(** * react-scan: render-outline pipeline and option handling

    A shallow embedding of the outline pipeline of
    [packages/scan/src/new-outlines/index.ts] (blueprint aggregation,
    rectangle merging, the batched visibility resolver, the frame flusher
    and its two renderer variants) and of the option validation of
    [packages/scan/src/core/index.ts].

    Conventions.
    - JavaScript numbers are modelled as integers ([Z]); statements
      about them use the operations of the code, in its order.  A store
      into a [Float32Array] rounds the number to the nearest binary32
      value, as [SpecFloat.binary_normalize] does for precision 24.
    - Object identity (fibers, DOM elements) is a natural number.
    - A [Map] is a [gmap]; a [Set] whose iteration order matters is a
      duplicate-free list in insertion order; a [Set] used only for
      membership and size is a [gset].
    - [undefined] results and a thrown [TypeError] are [None] in the
      option monad.
    - An options object is given by its own enumerable properties and
      inherits from [Object.prototype]; what the code needs to know of
      the objects and functions among its values is a [Heap]. *)

From Stdlib Require Import ZArith Lia.
From Stdlib Require SpecFloat.
From stdpp Require Import base option list gmap sets strings.

Local Open Scope Z_scope.

(* ===================================================================== *)
(** * Data model                                                          *)
(* ===================================================================== *)

Definition Element := nat.
Definition FiberRef := nat.

(** [fiber.stateNode] of a host fiber: a DOM [Element], or something that
    fails [instanceof Element] (a text node, [null], ...). *)
Inductive StateNode :=
  | ElementNode (e : Element)
  | OtherNode.

Inductive FiberType :=
  | TypeString (s : string)
  | TypeOther.

(** What [outlineFiber] observes of a fiber at one render notification.
    The [bippy] helpers are external; a fiber carries their results. *)
Record Fiber := {
  fiber_ref : FiberRef;                    (* identity: key of blueprintMap *)
  fiber_type : FiberType;                  (* fiber.type *)
  isCompositeFiber : bool;
  getDisplayName : option string;          (* string | null *)
  getNearestHostFibers : list StateNode;   (* the stateNode of each host fiber *)
  didFiberCommit : bool;
}.

Record BlueprintOutline := {
  bp_name : string;
  bp_count : Z;
  bp_elements : list StateNode;
  bp_didCommit : Z;
}.

Record DOMRect := {
  rect_x : Z;
  rect_y : Z;
  rect_width : Z;
  rect_height : Z;
}.

Record IntersectionObserverEntry := {
  target : Element;
  intersectionRect : DOMRect;
  isIntersecting : bool;
}.

Record OutlineData := {
  od_id : Z;
  od_name : string;
  od_count : Z;
  od_x : Z;
  od_y : Z;
  od_width : Z;
  od_height : Z;
  od_didCommit : Z;
}.

(** The aggregation window: [blueprintMap] and [blueprintMapKeys]. *)
Record Window := {
  blueprintMap : gmap FiberRef BlueprintOutline;
  blueprintMapKeys : list FiberRef;
}.

Definition emptyWindow : Window :=
  {| blueprintMap := ∅; blueprintMapKeys := [] |}.

(** [Set.prototype.add] on an insertion-ordered set. *)
Definition setAdd (k : FiberRef) (s : list FiberRef) : list FiberRef :=
  if decide (k ∈ s) then s else s ++ [k].

(** JavaScript truthiness of a number and of a string-or-null. *)
Definition truthyNumber (z : Z) : bool := negb (z =? 0).

Definition truthyName (o : option string) : option string :=
  match o with
  | Some s => if decide (s = EmptyString) then None else Some s
  | None => None
  end.

(* ===================================================================== *)
(** * Blueprint aggregator: [outlineFiber]                                *)
(* ===================================================================== *)

Definition fiberName (fiber : Fiber) : option string :=
  match fiber_type fiber with
  | TypeString s => Some s
  | TypeOther => getDisplayName fiber
  end.

Definition outlineFiber (fiber : Fiber) (w : Window) : Window :=
  if negb (isCompositeFiber fiber) then w else
  match truthyName (fiberName fiber) with
  | None => w
  | Some name =>
    let blueprint := blueprintMap w !! fiber_ref fiber in
    let nearestFibers := getNearestHostFibers fiber in
    let didCommit := didFiberCommit fiber in
    match blueprint with
    | None =>
      {| blueprintMap :=
           <[fiber_ref fiber :=
               {| bp_name := name;
                  bp_count := 1;
                  bp_elements := nearestFibers;
                  bp_didCommit := if didCommit then 1 else 0 |}]>
             (blueprintMap w);
         blueprintMapKeys := setAdd (fiber_ref fiber) (blueprintMapKeys w) |}
    | Some blueprint =>
      {| blueprintMap :=
           <[fiber_ref fiber :=
               {| bp_name := bp_name blueprint;
                  bp_count := bp_count blueprint + 1;
                  bp_elements := bp_elements blueprint;
                  bp_didCommit := bp_didCommit blueprint |}]>
             (blueprintMap w);
         blueprintMapKeys := blueprintMapKeys w |}
    end
  end.

(** A run of render notifications against one aggregation window. *)
Definition outlineFibers (fibers : list Fiber) (w : Window) : Window :=
  foldl (λ w fiber, outlineFiber fiber w) w fibers.

(* ===================================================================== *)
(** * Rect merger: [mergeRects]                                           *)
(* ===================================================================== *)

Record Bounds := {
  minX : option Z;
  minY : option Z;
  maxX : option Z;
  maxY : option Z;
}.

Definition noBounds : Bounds :=
  {| minX := None; minY := None; maxX := None; maxY := None |}.

(** One iteration of the [for] loop of [mergeRects]. *)
Definition mergeStep (b : Bounds) (rect : DOMRect) : Bounds :=
  {| minX := Some (match minX b with
                   | None => rect_x rect
                   | Some m => Z.min m (rect_x rect)
                   end);
     minY := Some (match minY b with
                   | None => rect_y rect
                   | Some m => Z.min m (rect_y rect)
                   end);
     maxX := Some (match maxX b with
                   | None => rect_x rect + rect_width rect
                   | Some m => Z.max m (rect_x rect + rect_width rect)
                   end);
     maxY := Some (match maxY b with
                   | None => rect_y rect + rect_height rect
                   | Some m => Z.max m (rect_y rect + rect_height rect)
                   end) |}.

(** [None] is the [undefined] that [rects[0]] yields on an empty array. *)
Definition mergeRects (rects : list DOMRect) : option DOMRect :=
  let firstRect := head rects in
  if decide (length rects = 1%nat) then firstRect else
  let b := foldl mergeStep noBounds rects in
  match minX b, minY b, maxX b, maxY b with
  | Some minX, Some minY, Some maxX, Some maxY =>
    Some {| rect_x := minX; rect_y := minY;
            rect_width := maxX - minX; rect_height := maxY - minY |}
  | _, _, _, _ => head rects
  end.

(** Least and greatest member of a list of numbers. *)
Definition is_min (m : Z) (l : list Z) : Prop := m ∈ l ∧ ∀ a, a ∈ l → m ≤ a.
Definition is_max (m : Z) (l : list Z) : Prop := m ∈ l ∧ ∀ a, a ∈ l → a ≤ m.

Definition rect_right (r : DOMRect) : Z := rect_x r + rect_width r.
Definition rect_bottom (r : DOMRect) : Z := rect_y r + rect_height r.

(* ===================================================================== *)
(** * Batched visibility resolver: [onIntersect], [getBatchedRectMap]     *)
(* ===================================================================== *)

(** [IntersectionState]. [resolveNext] records whether a resolver function
    is stored ([true]) or the field is [null] ([false]). *)
Record IntersectionState := {
  resolveNext : bool;
  seenElements : gset Element;
  uniqueElements : gset Element;
  done : bool;
}.

(** One resolution pass: the state object shared by the generator and the
    observer callback, the observer subscription, and the promise the
    generator is suspended on ([settled] is the value it was resolved
    with, [None] while it is pending). *)
Record Pass := {
  state : IntersectionState;
  connected : bool;
  settled : option (list IntersectionObserverEntry);
  finished : bool;
}.

(** Resolving a promise: only the first call has an effect. *)
Definition resolvePromise (value : list IntersectionObserverEntry)
    (p : option (list IntersectionObserverEntry)) :
    option (list IntersectionObserverEntry) :=
  match p with
  | None => Some value
  | Some _ => p
  end.

(** The [for (const entry of entries)] loop of [onIntersect]. *)
Definition collectStep
    (acc : gset Element * list IntersectionObserverEntry)
    (entry : IntersectionObserverEntry) :
    gset Element * list IntersectionObserverEntry :=
  let element := target entry in
  if decide (element ∈ acc.1) then acc
  else ({[element]} ∪ acc.1, acc.2 ++ [entry]).

Definition collectNew (seen : gset Element)
    (entries : list IntersectionObserverEntry) :
    gset Element * list IntersectionObserverEntry :=
  foldl collectStep (seen, []) entries.

Definition onIntersect (entries : list IntersectionObserverEntry)
    (p : Pass) : Pass :=
  let this := state p in
  let '(seen, newEntries) := collectNew (seenElements this) entries in
  (* if (newEntries.length > 0 && this.resolveNext) *)
  let '(resolveNext1, settled1) :=
    if bool_decide (newEntries ≠ []) && resolveNext this
    then (false, resolvePromise newEntries (settled p))
    else (resolveNext this, settled p) in
  (* if (this.seenElements.size === this.uniqueElements.size) *)
  if decide (size seen = size (uniqueElements this)) then
    {| state := {| resolveNext := resolveNext1;
                   seenElements := seen;
                   uniqueElements := uniqueElements this;
                   done := true |};
       connected := false;
       settled := if resolveNext1 then resolvePromise [] settled1
                  else settled1;
       finished := finished p |}
  else
    {| state := {| resolveNext := resolveNext1;
                   seenElements := seen;
                   uniqueElements := uniqueElements this;
                   done := done this |};
       connected := connected p;
       settled := settled1;
       finished := finished p |}.

(** [getBatchedRectMap] up to its first [await]: the state is created,
    every element is observed, the loop test passes ([done] is [false])
    and the generator suspends with [resolveNext] armed. *)
Definition getBatchedRectMap (elements : list Element) : Pass :=
  {| state := {| resolveNext := true;
                 seenElements := ∅;
                 uniqueElements := list_to_set elements;
                 done := false |};
     connected := true;
     settled := None;
     finished := false |}.

(** The generator's continuation once the awaited promise has settled.
    It yields a non-empty batch (second component), the consumer's loop
    body runs synchronously and asks for the next value, and the loop test
    either ends the generator or arms a fresh promise. *)
Definition resume (p : Pass) :
    Pass * option (list IntersectionObserverEntry) :=
  match settled p with
  | None => (p, None)
  | Some entries =>
    let yielded := if bool_decide (entries ≠ []) then Some entries else None in
    let this := state p in
    if done this then
      ({| state := this; connected := connected p;
          settled := None; finished := true |}, yielded)
    else
      ({| state := {| resolveNext := true;
                      seenElements := seenElements this;
                      uniqueElements := uniqueElements this;
                      done := done this |};
          connected := connected p;
          settled := None;
          finished := false |}, yielded)
  end.

(** One host callback followed by the microtasks it enables.  A
    disconnected observer delivers nothing. *)
Definition deliver (entries : list IntersectionObserverEntry) (p : Pass) :
    Pass * option (list IntersectionObserverEntry) :=
  if connected p then resume (onIntersect entries p) else (p, None).

(** A pass driven by a sequence of host callbacks, with the batches it
    yielded, in order. *)
Definition passStep
    (acc : Pass * list (list IntersectionObserverEntry))
    (entries : list IntersectionObserverEntry) :
    Pass * list (list IntersectionObserverEntry) :=
  let '(p, yielded) := deliver entries acc.1 in
  (p, acc.2 ++ option_list yielded).

Definition runPass (elements : list Element)
    (calls : list (list IntersectionObserverEntry)) :
    Pass * list (list IntersectionObserverEntry) :=
  foldl passStep (getBatchedRectMap elements, []) calls.

(** The first entry reported for each element, in report order. *)
Fixpoint firstReports (seen : gset Element)
    (entries : list IntersectionObserverEntry) :
    list IntersectionObserverEntry :=
  match entries with
  | [] => []
  | entry :: entries =>
    if decide (target entry ∈ seen) then firstReports seen entries
    else entry :: firstReports ({[target entry]} ∪ seen) entries
  end.

(* ===================================================================== *)
(** * Frame flusher: [flushOutlines]                                      *)
(* ===================================================================== *)

(** Modelled from the spec: [OUTLINE_ARRAY_SIZE] is imported from
    [./canvas], which is not part of the sources at hand; the buffer
    layout of the spec has seven numeric fields per record. *)
Definition OUTLINE_ARRAY_SIZE : nat := 7.

(** What [flushOutlines] reads from its surroundings: whether [worker] is
    set, whether [canvas && ctx] holds, and [bippy]'s [getFiberId]. *)
Record Env := {
  worker : bool;
  canvasCtx : bool;
  getFiberId : FiberRef → Z;
}.

(** An element of a [Float32Array]: an IEEE 754 binary32 value. *)
Definition Float32 := SpecFloat.spec_float.

(** The conversion a number undergoes when it is stored into a
    [Float32Array]: rounding to the nearest binary32 value, ties to
    even (precision 24, infinities from exponent 128 on). *)
Definition toFloat32 (n : Z) : Float32 :=
  SpecFloat.binary_normalize 24 128 n 0 false.

Arguments toFloat32 : simpl never.

(** The integer a binary32 value stands for, if it is one. *)
Definition float32ToZ (f : Float32) : option Z :=
  match f with
  | SpecFloat.S754_zero _ => Some 0
  | SpecFloat.S754_finite s m e =>
    if 0 <=? e then Some (SpecFloat.cond_Zopp s (Z.pos m * 2 ^ e))
    else if Z.pos m mod 2 ^ (- e) =? 0
    then Some (SpecFloat.cond_Zopp s (Z.pos m / 2 ^ (- e)))
    else None
  | _ => None
  end.

Inductive Dispatch :=
  | PostMessage (type : string) (byteLength : nat) (data : list Float32)
      (names : list (option string))
  | UpdateOutlines (outlineData : list (option OutlineData)).

Definition instanceofElement (node : StateNode) : option Element :=
  match node with
  | ElementNode e => Some e
  | OtherNode => None
  end.

(** The first loop: every [Element] of every pending blueprint. *)
Definition flushElements (w : Window) : list Element :=
  fiber ← blueprintMapKeys w;
  match blueprintMap w !! fiber with
  | None => []
  | Some blueprint => omap instanceofElement (bp_elements blueprint)
  end.

(** The loop over one batch that fills [rectsMap]. *)
Definition recordEntry (rectsMap : gmap Element DOMRect)
    (entry : IntersectionObserverEntry) : gmap Element DOMRect :=
  let element := target entry in
  let rect := intersectionRect entry in
  if isIntersecting entry && truthyNumber (rect_width rect)
     && truthyNumber (rect_height rect)
  then <[element := rect]> rectsMap
  else rectsMap.

Definition recordEntries (rectsMap : gmap Element DOMRect)
    (entries : list IntersectionObserverEntry) : gmap Element DOMRect :=
  foldl recordEntry rectsMap entries.

(** [rectsMap.get(element)]; only [Element]s are ever keys. *)
Definition rectOf (rectsMap : gmap Element DOMRect) (node : StateNode) :
    option DOMRect :=
  match node with
  | ElementNode e => rectsMap !! e
  | OtherNode => None
  end.

(** The inner loop collecting the resolved rectangles of one blueprint. *)
Definition resolvedRects (rectsMap : gmap Element DOMRect)
    (blueprint : BlueprintOutline) : list DOMRect :=
  omap (rectOf rectsMap) (bp_elements blueprint).

(** The three parallel arrays built per batch, and the arguments
    [mergeRects] was called with while building them. *)
Record Gathered := {
  blueprints : list BlueprintOutline;
  blueprintRects : list (option DOMRect);
  blueprintIds : list Z;
  mergeCalls : list (list DOMRect);
}.

Definition noneGathered : Gathered :=
  {| blueprints := []; blueprintRects := []; blueprintIds := [];
     mergeCalls := [] |}.

Definition gatherStep (env : Env) (w : Window)
    (rectsMap : gmap Element DOMRect) (g : Gathered) (fiber : FiberRef) :
    Gathered :=
  match blueprintMap w !! fiber with
  | None => g
  | Some blueprint =>
    let rects := resolvedRects rectsMap blueprint in
    if decide (length rects = 0%nat) then g else
    {| blueprints := blueprints g ++ [blueprint];
       blueprintRects := blueprintRects g ++ [mergeRects rects];
       blueprintIds := blueprintIds g ++ [getFiberId env fiber];
       mergeCalls := mergeCalls g ++ [rects] |}
  end.

Definition gather (env : Env) (w : Window)
    (rectsMap : gmap Element DOMRect) : Gathered :=
  foldl (gatherStep env w rectsMap) noneGathered (blueprintMapKeys w).

(** The state of the encoding loop. *)
Record Encoded := {
  sharedView : list Float32;
  blueprintNames : list (option string);
  outlineData : option (list (option OutlineData));
}.

(** One iteration of the encoding loop; [None] is a thrown [TypeError]. *)
Definition encodeStep (env : Env) (g : Gathered) (acc : option Encoded)
    (i : nat) : option Encoded :=
  acc ← acc;
  blueprint ← blueprints g !! i;
  id ← blueprintIds g !! i;
  rect ← mjoin (blueprintRects g !! i);
  if worker env then
    let scaledIndex := (i * OUTLINE_ARRAY_SIZE)%nat in
    Some {| sharedView :=
              <[(scaledIndex + 6)%nat := toFloat32 (bp_didCommit blueprint)]>
              (<[(scaledIndex + 5)%nat := toFloat32 (rect_height rect)]>
              (<[(scaledIndex + 4)%nat := toFloat32 (rect_width rect)]>
              (<[(scaledIndex + 3)%nat := toFloat32 (rect_y rect)]>
              (<[(scaledIndex + 2)%nat := toFloat32 (rect_x rect)]>
              (<[(scaledIndex + 1)%nat := toFloat32 (bp_count blueprint)]>
              (<[scaledIndex := toFloat32 id]> (sharedView acc)))))));
            blueprintNames :=
              <[i := Some (bp_name blueprint)]> (blueprintNames acc);
            outlineData := outlineData acc |}
  else
    let data :=
      default (replicate (length (blueprints g)) None) (outlineData acc) in
    Some {| sharedView := sharedView acc;
            blueprintNames := blueprintNames acc;
            outlineData :=
              Some (<[i := Some {| od_id := id;
                                   od_name := bp_name blueprint;
                                   od_count := bp_count blueprint;
                                   od_x := rect_x rect;
                                   od_y := rect_y rect;
                                   od_width := rect_width rect;
                                   od_height := rect_height rect;
                                   od_didCommit := bp_didCommit blueprint |}]>
                      data) |}.

(** The [if (blueprints.length > 0)] block: what is handed to the
    renderer for one batch, if anything. *)
Definition dispatch (env : Env) (g : Gathered) : option (option Dispatch) :=
  if decide (length (blueprints g) = 0%nat) then Some None else
  let byteLength := (length (blueprints g) * OUTLINE_ARRAY_SIZE * 4)%nat in
  encoded ← foldl (encodeStep env g)
               (Some {| sharedView := replicate (byteLength / 4) (toFloat32 0);
                        blueprintNames :=
                          replicate (length (blueprints g)) None;
                        outlineData := None |})
               (seq 0 (length (blueprints g)));
  if worker env then
    Some (Some (PostMessage "draw-outlines" byteLength
                  (sharedView encoded) (blueprintNames encoded)))
  else
    match outlineData encoded with
    | Some data => Some (if canvasCtx env then Some (UpdateOutlines data)
                         else None)
    | None => Some None
    end.

(** One iteration of the [for await] loop, with what it computed. *)
Record BatchTrace := {
  bt_entries : list IntersectionObserverEntry;
  bt_gathered : Gathered;
  bt_dispatch : option Dispatch;
}.

Record FlushState := {
  fs_window : Window;
  fs_pass : Pass;
  fs_rectsMap : gmap Element DOMRect;
  fs_trace : list BatchTrace;
}.

(** The final loop, deleting every key from both containers. *)
Definition clearWindow (w : Window) : Window :=
  {| blueprintMap :=
       foldl (λ m fiber, delete fiber m) (blueprintMap w)
         (blueprintMapKeys w);
     blueprintMapKeys := [] |}.

(** What can happen while a flush is in flight: React reports a render
    ([onRender] calls [outlineFiber]), or the host delivers an
    intersection callback. *)
Inductive Event :=
  | Render (fiber : Fiber)
  | Intersect (entries : list IntersectionObserverEntry).

Definition flushStart (w : Window) : FlushState :=
  {| fs_window := w;
     fs_pass := getBatchedRectMap (flushElements w);
     fs_rectsMap := ∅;
     fs_trace := [] |}.

(** The body of the [for await] loop for one yielded batch. *)
Definition flushBatch (env : Env) (w : Window)
    (rectsMap : gmap Element DOMRect)
    (entries : list IntersectionObserverEntry) :
    option (gmap Element DOMRect * BatchTrace) :=
  let rectsMap := recordEntries rectsMap entries in
  let g := gather env w rectsMap in
  d ← dispatch env g;
  Some (rectsMap,
        {| bt_entries := entries; bt_gathered := g; bt_dispatch := d |}).

Definition flushStep (env : Env) (s : FlushState) (ev : Event) :
    option FlushState :=
  match ev with
  | Render fiber =>
    Some {| fs_window := outlineFiber fiber (fs_window s);
            fs_pass := fs_pass s;
            fs_rectsMap := fs_rectsMap s;
            fs_trace := fs_trace s |}
  | Intersect entries =>
    let '(p, yielded) := deliver entries (fs_pass s) in
    '(rectsMap, trace) ←
      match yielded with
      | None => Some (fs_rectsMap s, fs_trace s)
      | Some batch =>
        '(rectsMap, bt) ← flushBatch env (fs_window s) (fs_rectsMap s) batch;
        Some (rectsMap, fs_trace s ++ [bt])
      end;
    Some {| fs_window := if finished p && negb (finished (fs_pass s))
                         then clearWindow (fs_window s) else fs_window s;
            fs_pass := p;
            fs_rectsMap := rectsMap;
            fs_trace := trace |}
  end.

(** [flushOutlines] on the window [w], driven by the events that occur
    while it runs.  [None]: an exception escaped the flush. *)
Definition flushOutlines (env : Env) (w : Window) (events : list Event) :
    option FlushState :=
  foldl (λ s ev, s ← s; flushStep env s ev) (Some (flushStart w)) events.

(** The intersection callbacks among the events of a flush. *)
Definition intersections (events : list Event) :
    list IntersectionObserverEntry :=
  ev ← events;
  match ev with
  | Render _ => []
  | Intersect entries => entries
  end.

(* ===================================================================== *)
(** * Options: [isOptionKey], [validateOptions], [setOptions]             *)
(* ===================================================================== *)

(** The JavaScript values an option field can hold.  Functions, other
    objects and symbols carry their identity. *)
Inductive JsValue :=
  | VUndefined
  | VNull
  | VBool (b : bool)
  | VNumber (n : Z)
  | VString (s : string)
  | VFunction (f : nat)
  | VObject (o : nat)
  | VSymbol (s : nat).

Global Instance JsValue_eq_dec : EqDecision JsValue.
Proof. solve_decision. Defined.

(** The initial value of [ReactScanInternals.options]. *)
Definition defaultOptions : gmap string JsValue :=
  <["enabled" := VBool true]>
  (<["log" := VBool false]>
  (<["showToolbar" := VBool true]>
  (<["animationSpeed" := VString "fast"]>
  (<["dangerouslyForceRunInProduction" := VBool false]>
  (<["showFPS" := VBool true]>
  (<["showNotificationCount" := VBool true]> ∅)))))).

(** [Object.keys(ReactScanInternals.options.value).includes(key)]. *)
Definition isOptionKey (current : gmap string JsValue) (key : string) :
    bool :=
  bool_decide (key ∈ dom current).

Definition booleanOptionKeys : list string :=
  ["enabled"; "log"; "showToolbar"; "showNotificationCount";
   "dangerouslyForceRunInProduction"; "trackUnnecessaryRenders";
   "showFPS"].

Definition animationSpeeds : list JsValue :=
  [VString "slow"; VString "fast"; VString "off"].

Definition callbackOptionKeys : list string :=
  ["onCommitStart"; "onCommitFinish"; "onPaintStart"; "onPaintFinish";
   "onRender"].

(** Outcome of the [switch] for one field: the value is stored, an error
    is pushed, or the [default] branch is reached. *)
Inductive FieldCheck := FieldValid | FieldError | FieldUnhandled.

Definition checkField (key : string) (value : JsValue) : FieldCheck :=
  if bool_decide (key ∈ booleanOptionKeys) then
    match value with
    | VBool _ => FieldValid
    | _ => FieldError
    end
  else if decide (key = "animationSpeed") then
    if bool_decide (value ∈ animationSpeeds) then FieldValid
    else FieldError
  else if decide (key = "_debug") then
    match value with
    | VString "verbose" | VBool false | VUndefined => FieldValid
    | _ => FieldError
    end
  else if bool_decide (key ∈ callbackOptionKeys) then
    match value with
    | VUndefined | VFunction _ => FieldValid
    | _ => FieldError
    end
  else FieldUnhandled.

(** What the functions below need to know of the objects and functions
    behind the identities, which is code and data of the caller:
    whether converting an object or a function to a string throws (it has
    no usable [toString] or [valueOf], as [Object.create(null)], or they
    throw), and how a function completes when it is called as
    [userOptions.hasOwnProperty('enabled')]: with a value, or by
    throwing ([None]).  Such a function is taken not to touch
    [ReactScanInternals]. *)
Record Heap := {
  objectToStringThrows : nat → bool;
  functionToStringThrows : nat → bool;
  callHasOwnProperty : nat → option JsValue;
}.

(** Whether the conversion of a value to a string, as a template literal
    performs it, throws a [TypeError]: always for a symbol, never for
    another primitive, and as the heap has it for objects and
    functions. *)
Definition templateThrows (heap : Heap) (value : JsValue) : bool :=
  match value with
  | VSymbol _ => true
  | VObject o => objectToStringThrows heap o
  | VFunction f => functionToStringThrows heap f
  | _ => false
  end.

(** One iteration of the [for (const key in options)] loop.  The
    accumulator is [validOptions] and the keys [errors] complains about
    (the wording of the messages is not modelled), or [None] once the
    template literal of an error message has thrown. *)
Definition validateStep (heap : Heap) (current : gmap string JsValue)
    (key : string) (value : JsValue)
    (acc : option (gmap string JsValue * list string)) :
    option (gmap string JsValue * list string) :=
  acc ← acc;
  if negb (isOptionKey current key) then Some acc else
  match checkField key value with
  | FieldValid => Some (<[key := value]> acc.1, acc.2)
  | FieldError =>
    if templateThrows heap value then None
    else Some (acc.1, acc.2 ++ [key])
  | FieldUnhandled => Some acc
  end.

(** [validateOptions(options)]: [validOptions] and the keys complained
    about, or [None] for a thrown [TypeError].  The object is given by
    its own enumerable properties. *)
Definition validateOptions (heap : Heap)
    (current options : gmap string JsValue) :
    option (gmap string JsValue * list string) :=
  map_fold (validateStep heap current) (Some (∅, [])) options.

(** Reading a property that may be absent. *)
Definition getProp (o : gmap string JsValue) (key : string) : JsValue :=
  default VUndefined (o !! key).

(** [Object.prototype.hasOwnProperty], as [validOptions], an object
    literal filled with option keys only, inherits it. *)
Definition hasOwnProperty (o : gmap string JsValue) (key : string) : bool :=
  bool_decide (key ∈ dom o).

Definition toBoolean (v : JsValue) : bool :=
  match v with
  | VUndefined | VNull => false
  | VBool b => b
  | VNumber n => negb (n =? 0)
  | VString s => negb (bool_decide (s = EmptyString))
  | VFunction _ | VObject _ | VSymbol _ => true
  end.

(** [userOptions.hasOwnProperty(key)] on the object of the caller, which
    inherits from [Object.prototype]: an own property of that name
    shadows the inherited method, and is called if it is a function; the
    call throws a [TypeError] ([None]) if it is anything else.  (An
    object without prototype has no such method either and fails the
    same way.)  The result is the truth value the [!] of the caller
    sees. *)
Definition userHasOwnProperty (heap : Heap) (o : gmap string JsValue)
    (key : string) : option bool :=
  match o !! "hasOwnProperty"%string with
  | None => Some (hasOwnProperty o key)
  | Some (VFunction f) => toBoolean <$> callHasOwnProperty heap f
  | Some _ => None
  end.

(** [ReactScanInternals]: the stored options and, when instrumentation
    exists, its [isPaused] signal. *)
Record Internals := {
  options : gmap string JsValue;
  isPaused : option bool;
}.

(** What a call of [setOptions] leaves behind: the new internals, what
    was handed to [saveLocalStorage], the argument of [initToolbar] if it
    was called, and the returned options, [None] when the call threw. *)
Record SetOptionsResult := {
  so_internals : Internals;
  so_saved : option (gmap string JsValue);
  so_toolbar : option bool;
  so_returned : option (gmap string JsValue);
}.

(** A call that throws before anything is stored. *)
Definition thrown (internals : Internals) : SetOptionsResult :=
  {| so_internals := internals; so_saved := None; so_toolbar := None;
     so_returned := None |}.

Definition storable (o : gmap string JsValue) : gmap string JsValue :=
  filter (λ kv, kv.1 ∉ callbackOptionKeys) o.

Definition setOptions (heap : Heap) (userOptions : gmap string JsValue)
    (internals : Internals) : SetOptionsResult :=
  match validateOptions heap (options internals) userOptions with
  | None => thrown internals
  | Some (validOptions, _) =>
  match
    (* Object.keys(validOptions).length === 0
       && !userOptions.hasOwnProperty('enabled') *)
    if bool_decide (size validOptions = 0%nat)
    then negb <$> userHasOwnProperty heap userOptions "enabled"
    else Some false
  with
  | None => thrown internals
  | Some true =>
    {| so_internals := internals; so_saved := None; so_toolbar := None;
       so_returned := Some (options internals) |}
  | Some false =>
    let currentOptions := options internals in
    let showToolbarChanged :=
      hasOwnProperty validOptions "showToolbar"
      && negb (bool_decide (getProp validOptions "showToolbar"
                            = getProp currentOptions "showToolbar")) in
    let enabledChanged :=
      hasOwnProperty validOptions "enabled"
      && negb (bool_decide (getProp validOptions "enabled"
                            = getProp currentOptions "enabled")) in
    (* { ...currentOptions, ...validOptions } *)
    let newOptions := validOptions ∪ currentOptions in
    let paused :=
      match isPaused internals with
      | Some paused =>
        if hasOwnProperty validOptions "enabled"
        then Some (bool_decide (getProp validOptions "enabled" = VBool false))
        else Some paused
      | None => None
      end in
    {| so_internals := {| options := newOptions; isPaused := paused |};
       so_saved := Some (storable newOptions);
       so_toolbar :=
         if showToolbarChanged
            || (enabledChanged
                && bool_decide (getProp newOptions "enabled" = VBool true)
                && bool_decide (getProp newOptions "showToolbar" = VBool true))
         then Some (toBoolean (getProp newOptions "showToolbar"))
         else if enabledChanged
                 && bool_decide (getProp newOptions "enabled" = VBool false)
         then Some false
         else None;
       so_returned := Some newOptions |}
  end
  end.

(* ===================================================================== *)
(** * Vocabulary of the statements                                        *)
(* ===================================================================== *)

(** ** Aggregation *)

(** A notification that passes both guards of [outlineFiber]. *)
Definition aggregated (fiber : Fiber) : Prop :=
  isCompositeFiber fiber = true ∧ is_Some (truthyName (fiberName fiber)).

Global Instance aggregated_dec fiber : Decision (aggregated fiber).
Proof. unfold aggregated. apply _. Defined.

(** The notifications of a run that are recorded for the identity [r]. *)
Definition recordedFor (r : FiberRef) (fibers : list Fiber) : list Fiber :=
  filter (λ fiber, fiber_ref fiber = r ∧ aggregated fiber) fibers.

(** The sticky OR of the [didCommit] flags, as a [0 | 1] number. *)
Definition stickyOr (fibers : list Fiber) : Z :=
  if existsb didFiberCommit fibers then 1 else 0.

(** ** Rectangles *)

Definition boundsOf (r : DOMRect) : Bounds :=
  {| minX := Some (rect_x r); minY := Some (rect_y r);
     maxX := Some (rect_right r); maxY := Some (rect_bottom r) |}.

(** ** Resolution passes *)

(** The set of elements the entries of a list report on. *)
Definition targets (entries : list IntersectionObserverEntry) :
    gset Element :=
  list_to_set (target <$> entries).

(** The generator awaits a pending promise and the observer is live. *)
Definition awaiting (p : Pass) : Prop :=
  connected p = true ∧ resolveNext (state p) = true ∧ settled p = None
  ∧ done (state p) = false ∧ finished p = false.

(** The observer is disconnected and the generator has returned. *)
Definition closed (p : Pass) : Prop :=
  connected p = false ∧ done (state p) = true ∧ settled p = None
  ∧ finished p = true.

(** ** Batches of a flush *)

(** A blueprint at least one of whose elements has a rectangle in
    [rectsMap]. *)
Definition hasResolvedRect (rectsMap : gmap Element DOMRect)
    (blueprint : BlueprintOutline) : Prop :=
  Exists (λ node, is_Some (rectOf rectsMap node)) (bp_elements blueprint).

(** What one pending fiber contributes to a batch: its blueprint, the
    rectangles resolved for it and their merge. *)
Record Contribution := {
  ct_fiber : FiberRef;
  ct_blueprint : BlueprintOutline;
  ct_rects : list DOMRect;
  ct_rect : DOMRect;
}.

Definition contributionOf (w : Window) (rectsMap : gmap Element DOMRect)
    (fiber : FiberRef) : option Contribution :=
  blueprint ← blueprintMap w !! fiber;
  let rects := resolvedRects rectsMap blueprint in
  if decide (rects = []) then None else
  rect ← mergeRects rects;
  Some {| ct_fiber := fiber; ct_blueprint := blueprint;
          ct_rects := rects; ct_rect := rect |}.

Definition contributions (w : Window) (rectsMap : gmap Element DOMRect) :
    list Contribution :=
  omap (contributionOf w rectsMap) (blueprintMapKeys w).

(** The Merged Outline Record of a blueprint. *)
Definition recordFor (env : Env) (fiber : FiberRef)
    (blueprint : BlueprintOutline) (rect : DOMRect) : OutlineData :=
  {| od_id := getFiberId env fiber;
     od_name := bp_name blueprint;
     od_count := bp_count blueprint;
     od_x := rect_x rect;
     od_y := rect_y rect;
     od_width := rect_width rect;
     od_height := rect_height rect;
     od_didCommit := bp_didCommit blueprint |}.

Definition recordOf (env : Env) (c : Contribution) : OutlineData :=
  recordFor env (ct_fiber c) (ct_blueprint c) (ct_rect c).

(** The records of the pending blueprints, in key order. *)
Definition outlineRecords (env : Env) (w : Window)
    (rectsMap : gmap Element DOMRect) : list OutlineData :=
  recordOf env <$> contributions w rectsMap.

(** The seven numeric fields of a record, in buffer order, as a
    [Float32Array] holds them. *)
Definition recordFields (r : OutlineData) : list Float32 :=
  toFloat32 <$> [od_id r; od_count r; od_x r; od_y r; od_width r;
                 od_height r; od_didCommit r].

Definition encodeRecords (records : list OutlineData) : list Float32 :=
  records ≫= recordFields.

(** Handing a non-empty set of records to the renderer in use. *)
Definition submitFrame (env : Env) (records : list OutlineData) :
    option Dispatch :=
  if worker env then
    Some (PostMessage "draw-outlines"
            (length records * OUTLINE_ARRAY_SIZE * 4)%nat
            (encodeRecords records)
            ((λ r, Some (od_name r)) <$> records))
  else if canvasCtx env then Some (UpdateOutlines (Some <$> records))
  else None.

Definition forward (env : Env) (records : list OutlineData) :
    option Dispatch :=
  if decide (records = []) then None else submitFrame env records.

Definition addContribution (env : Env) (g : Gathered) (c : Contribution) :
    Gathered :=
  {| blueprints := blueprints g ++ [ct_blueprint c];
     blueprintRects := blueprintRects g ++ [Some (ct_rect c)];
     blueprintIds := blueprintIds g ++ [getFiberId env (ct_fiber c)];
     mergeCalls := mergeCalls g ++ [ct_rects c] |}.

(** The arrays gathered from the contributions [cs]. *)
Definition gatheredFrom (env : Env) (cs : list Contribution) : Gathered :=
  {| blueprints := ct_blueprint <$> cs;
     blueprintRects := (λ c, Some (ct_rect c)) <$> cs;
     blueprintIds := (λ c, getFiberId env (ct_fiber c)) <$> cs;
     mergeCalls := ct_rects <$> cs |}.

(** The encoding loop's initial state for [n] blueprints. *)
Definition encodeInit (n : nat) : Encoded :=
  {| sharedView := replicate (n * OUTLINE_ARRAY_SIZE * 4 / 4) (toFloat32 0);
     blueprintNames := replicate n None;
     outlineData := None |}.

(** ** Flushes *)

(** The host callbacks among the events of a flush, one list each. *)
Definition callbacks (events : list Event) :
    list (list IntersectionObserverEntry) :=
  omap (λ ev, match ev with
              | Render _ => None
              | Intersect entries => Some entries
              end) events.

(** An entry that puts a rectangle into [rectsMap]. *)
Definition visibleReport (entry : IntersectionObserverEntry) : Prop :=
  isIntersecting entry = true
  ∧ rect_width (intersectionRect entry) ≠ 0
  ∧ rect_height (intersectionRect entry) ≠ 0.

(** Every rectangle of [rectsMap] stems from a visible report among
    [entries]. *)
Definition rectsFrom (rectsMap : gmap Element DOMRect)
    (entries : list IntersectionObserverEntry) : Prop :=
  ∀ e r, rectsMap !! e = Some r →
    ∃ entry, entry ∈ entries ∧ target entry = e
             ∧ intersectionRect entry = r ∧ visibleReport entry.

(** The batches a flush has consumed so far. *)
Definition consumed (s : FlushState) : list IntersectionObserverEntry :=
  concat (bt_entries <$> fs_trace s).

(** Invariant of a flush in flight. *)
Definition flushInv (env : Env) (w : Window) (events : list Event)
    (s : FlushState) : Prop :=
  (fs_pass s, bt_entries <$> fs_trace s)
    = runPass (flushElements w) (callbacks events)
  ∧ rectsFrom (fs_rectsMap s) (consumed s)
  ∧ Forall (λ bt, ∃ w' rectsMap,
              bt_gathered bt = gather env w' rectsMap
              ∧ bt_dispatch bt = forward env (outlineRecords env w' rectsMap)
              ∧ rectsFrom rectsMap (consumed s)) (fs_trace s).

(** ** Options *)

(** A field that [validateOptions] copies into [validOptions]. *)
Definition accepted (current : gmap string JsValue) (key : string)
    (value : JsValue) : bool :=
  isOptionKey current key
  && match checkField key value with
     | FieldValid => true
     | _ => false
     end.

(** A field whose error message cannot be built: an option key with a
    rejected value whose conversion to a string throws. *)
Definition unreportable (heap : Heap) (current : gmap string JsValue)
    (key : string) (value : JsValue) : bool :=
  isOptionKey current key
  && match checkField key value with
     | FieldError => templateThrows heap value
     | _ => false
     end.

(** The object has a field whose error message cannot be built. *)
Definition validationThrows (heap : Heap)
    (current userOptions : gmap string JsValue) : Prop :=
  ∃ key value, userOptions !! key = Some value
               ∧ unreportable heap current key value = true.

(** ** Sample data *)

Definition appFiber (committed : bool) : Fiber :=
  {| fiber_ref := 1%nat; fiber_type := TypeOther; isCompositeFiber := true;
     getDisplayName := Some "App"%string;
     getNearestHostFibers := [ElementNode 1%nat];
     didFiberCommit := committed |}.

Definition rectA : DOMRect :=
  {| rect_x := 0; rect_y := 0; rect_width := 10; rect_height := 10 |}.

Definition rectB : DOMRect :=
  {| rect_x := 20; rect_y := 20; rect_width := 5; rect_height := 5 |}.

Definition report (e : Element) (rect : DOMRect) (visible : bool) :
    IntersectionObserverEntry :=
  {| target := e; intersectionRect := rect; isIntersecting := visible |}.

Definition fiberA : Fiber :=
  {| fiber_ref := 1%nat; fiber_type := TypeOther; isCompositeFiber := true;
     getDisplayName := Some "A"%string;
     getNearestHostFibers := [ElementNode 1%nat; ElementNode 2%nat; OtherNode];
     didFiberCommit := true |}.

Definition fiberB : Fiber :=
  {| fiber_ref := 2%nat; fiber_type := TypeOther; isCompositeFiber := true;
     getDisplayName := Some "B"%string;
     getNearestHostFibers := [ElementNode 3%nat];
     didFiberCommit := false |}.

(** A once, committed; B twice, not committed. *)
Definition sampleWindow : Window :=
  outlineFibers [fiberA; fiberB; fiberB] emptyWindow.

Definition workerEnv : Env :=
  {| worker := true; canvasCtx := false; getFiberId := Z.of_nat |}.

Definition firstCall : list IntersectionObserverEntry :=
  [report 1%nat rectA true; report 3%nat rectB true; report 1%nat rectB false].

Definition secondCall : list IntersectionObserverEntry :=
  [report 3%nat rectA false; report 2%nat rectB true].

Definition sampleEvents : list Event :=
  [Intersect firstCall; Render fiberB; Intersect secondCall].

(** The flush of [sampleWindow] after its first callback. *)
Definition sampleState : FlushState :=
  default (flushStart sampleWindow)
    (flushOutlines workerEnv sampleWindow [Intersect firstCall]).


Definition defaultInternals : Internals :=
  {| options := defaultOptions; isPaused := None |}.

(** A heap of ordinary objects and functions: all convert to a string,
    and a function called as [hasOwnProperty] answers [false]. *)
Definition plainHeap : Heap :=
  {| objectToStringThrows := λ _, false;
     functionToStringThrows := λ _, false;
     callHasOwnProperty := λ _, Some (VBool false) |}.

(* ===================================================================== *)
(** * More of [new-outlines/index.ts]                                     *)
(* ===================================================================== *)

(** ** The scroll listener of [getCanvasEl]

    The listener arms one timer unless one is pending; when the timer
    fires it reads [window.scrollX] and [window.scrollY], forwards the
    difference to the position it remembered, and remembers the new one. *)

Record ScrollState := {
  prevScrollX : Z;
  prevScrollY : Z;
  isScrollScheduled : bool;
}.

Inductive ScrollEvent :=
  | OnScroll
  | ScrollTimeout (scrollX scrollY : Z).

(** [worker.postMessage({ type: 'scroll', ... })], or
    [requestAnimationFrame(updateScroll.bind(null, activeOutlines, ...))]. *)
Inductive ScrollEffect :=
  | PostScroll (deltaX deltaY : Z)
  | UpdateScroll (deltaX deltaY : Z).

Definition scrollStep (env : Env)
    (acc : ScrollState * list ScrollEffect) (ev : ScrollEvent) :
    ScrollState * list ScrollEffect :=
  let st := acc.1 in
  match ev with
  | OnScroll =>
    if negb (isScrollScheduled st) then
      ({| prevScrollX := prevScrollX st; prevScrollY := prevScrollY st;
          isScrollScheduled := true |}, acc.2)
    else acc
  | ScrollTimeout scrollX scrollY =>
    (* the timer only exists while it is scheduled *)
    if isScrollScheduled st then
      let deltaX := scrollX - prevScrollX st in
      let deltaY := scrollY - prevScrollY st in
      ({| prevScrollX := scrollX; prevScrollY := scrollY;
          isScrollScheduled := false |},
       acc.2 ++ [if worker env then PostScroll deltaX deltaY
                 else UpdateScroll deltaX deltaY])
    else acc
  end.

Definition scrollRun (env : Env) (st : ScrollState)
    (events : list ScrollEvent) : ScrollState * list ScrollEffect :=
  foldl (scrollStep env) (st, []) events.


(** ** [reportRenderToListeners] and the [onRender] callback of
    [initReactScanInstrumentation] *)

(** [OldRenderData] as [reportRenderToListeners] builds it. *)
Record RenderData := {
  rd_count : Z;
  rd_time : Z;
  rd_renders : list nat;
  rd_displayName : option string;
  rd_type : option nat;
  rd_changes : list nat;
}.

(** A render as the [onRender] callback sees it: the fiber, and what the
    [bippy] helpers return for it. *)
Record RenderReport := {
  rp_fiber : Fiber;
  rp_selfTime : Z;                 (* getTimings(fiber).selfTime *)
  rp_displayName : option string;  (* getDisplayName(fiber.type) *)
  rp_type : option nat;            (* getType(fiber.type) || null *)
}.

(** The state the callback reads and writes: [ReactScanInternals], the
    [Store] fields it uses, [needsReport] and the aggregation window. *)
Record Runtime := {
  rt_internals : Internals;
  rt_inspectKind : string;                  (* Store.inspectState.value.kind *)
  rt_reportData : gmap Z RenderData;        (* Store.reportData *)
  rt_changesListeners : gmap Z (list nat);  (* Store.changesListeners *)
  rt_interactionListening : bool;  (* Store.interactionListeningForRenders set *)
  rt_needsReport : bool;
  rt_window : Window;
}.

(** The calls the callback makes to code outside these sources.  What a
    changes listener is handed is assembled from helper results and is
    not modelled. *)
Inductive RenderEffect :=
  | InteractionListening (fiber : FiberRef)
  | NotifyChanges (listener : nat) (fiberId : Z)
  | LogRenders
  | InspectorUpdate
  | OptionsOnRender (callback : nat) (fiber : FiberRef).

Definition reportRenderToListeners (env : Env) (rp : RenderReport)
    (rt : Runtime) : Runtime * list RenderEffect :=
  let fiber := rp_fiber rp in
  if isCompositeFiber fiber then
    if negb (bool_decide
               (getProp (options (rt_internals rt)) "showToolbar"
                = VBool false))
       && bool_decide (rt_inspectKind rt = "focused"%string)
    then
      let selfTime := rp_selfTime rp in
      let displayName := rp_displayName rp in
      let fiberId := getFiberId env (fiber_ref fiber) in
      let currentData := rt_reportData rt !! fiberId in
      let existingCount := default 0 (rd_count <$> currentData) in
      let existingTime := default 0 (rd_time <$> currentData) in
      let listeners := default [] (rt_changesListeners rt !! fiberId) in
      let fiberData :=
        {| rd_count := existingCount + 1;
           rd_time := if truthyNumber (existingTime + selfTime)
                      then existingTime + selfTime else 0;
           rd_renders := [];
           rd_displayName := displayName;
           rd_type := rp_type rp;
           rd_changes := [] |} in
      ({| rt_internals := rt_internals rt;
          rt_inspectKind := rt_inspectKind rt;
          rt_reportData := <[fiberId := fiberData]> (rt_reportData rt);
          rt_changesListeners := rt_changesListeners rt;
          rt_interactionListening := rt_interactionListening rt;
          rt_needsReport := true;
          rt_window := rt_window rt |},
       (λ listener, NotifyChanges listener fiberId) <$> listeners)
    else (rt, [])
  else (rt, []).

(** [f?.(...)] on an option value: nothing for [undefined] and [null], a
    call for a function, a [TypeError] ([None]) for anything else. *)
Definition optionalCall (v : JsValue) : option (option nat) :=
  match v with
  | VUndefined | VNull => Some None
  | VFunction f => Some (Some f)
  | _ => None
  end.

(** The [onRender] callback handed to [createInstrumentation]. *)
Definition onRender (env : Env) (rp : RenderReport) (rt : Runtime) :
    option (Runtime * list RenderEffect) :=
  let fiber := rp_fiber rp in
  let effects1 :=
    if isCompositeFiber fiber && rt_interactionListening rt
    then [InteractionListening (fiber_ref fiber)] else [] in
  (* instrumentation?.isPaused.value *)
  let isOverlayPaused := default false (isPaused (rt_internals rt)) in
  let isInspectorInactive :=
    bool_decide (rt_inspectKind rt = "inspect-off"%string)
    || bool_decide (rt_inspectKind rt = "uninitialized"%string) in
  let shouldFullyAbort := isOverlayPaused && isInspectorInactive in
  if shouldFullyAbort then Some (rt, effects1) else
  let rt1 :=
    if negb isOverlayPaused then
      {| rt_internals := rt_internals rt;
         rt_inspectKind := rt_inspectKind rt;
         rt_reportData := rt_reportData rt;
         rt_changesListeners := rt_changesListeners rt;
         rt_interactionListening := rt_interactionListening rt;
         rt_needsReport := rt_needsReport rt;
         rt_window := outlineFiber fiber (rt_window rt) |}
    else rt in
  let effects2 :=
    if toBoolean (getProp (options (rt_internals rt)) "log")
    then [LogRenders] else [] in
  let effects3 :=
    if bool_decide (rt_inspectKind rt = "focused"%string)
    then [InspectorUpdate] else [] in
  let '(rt2, effects4) :=
    if negb isInspectorInactive then reportRenderToListeners env rp rt1
    else (rt1, []) in
  callback ← optionalCall (getProp (options (rt_internals rt)) "onRender");
  Some (rt2,
        effects1 ++ effects2 ++ effects3 ++ effects4
        ++ match callback with
           | Some f => [OptionsOnRender f (fiber_ref fiber)]
           | None => []
           end).

(** A run of renders through the callback. *)
Definition onRenders (env : Env) (rps : list RenderReport) (rt : Runtime) :
    option (Runtime * list RenderEffect) :=
  foldl (λ acc rp,
           '(rt, effects) ← acc;
           '(rt', effects') ← onRender env rp rt;
           Some (rt', effects ++ effects'))
        (Some (rt, [])) rps.

(** ** [ignoreScan] and [isValidFiber]

    [ignoredProps] is a [WeakSet]: it holds objects, by identity. *)

Definition ignoreScan (node : JsValue) (ignoredProps : gset nat) :
    gset nat :=
  match node with
  | VObject o => {[o]} ∪ ignoredProps
  | _ => ignoredProps
  end.

(** [isValidFiber(fiber)], on [fiber.memoizedProps]. *)
Definition isValidFiber (memoizedProps : JsValue) (ignoredProps : gset nat) :
    bool :=
  match memoizedProps with
  | VObject o => negb (bool_decide (o ∈ ignoredProps))
  | _ => true
  end.

(* ===================================================================== *)
(** * More of [core/index.ts]                                             *)
(* ===================================================================== *)

(** ** [onRender]: per-type render listeners

    [ReactScanInternals.onRender] is a closure over the previous one.  A
    handler is modelled by what it does with a fiber: given
    [getType(fiber.type)], the callbacks it invokes, in order. *)

Definition typeofValue (v : JsValue) : string :=
  match v with
  | VUndefined => "undefined"
  | VNull => "object"
  | VBool _ => "boolean"
  | VNumber _ => "number"
  | VString _ => "string"
  | VFunction _ => "function"
  | VObject _ => "object"
  | VSymbol _ => "symbol"
  end.

Definition coreOnRender (type : JsValue) (_onRender : nat)
    (current : option (JsValue → list nat)) :
    option (JsValue → list nat) :=
  if negb (toBoolean type)
     || (negb (bool_decide (typeofValue type = "function"%string))
         && negb (bool_decide (typeofValue type = "object"%string)))
  then current
  else
    let prevOnRender := current in
    Some (λ fiberType,
            match prevOnRender with
            | Some prev => prev fiberType
            | None => []
            end
            ++ if bool_decide (fiberType = type) then [_onRender] else []).

(** Calling [ReactScanInternals.onRender?.(fiber, renders)]. *)
Definition invokeOnRender (handler : option (JsValue → list nat))
    (fiberType : JsValue) : list nat :=
  match handler with
  | Some h => h fiberType
  | None => []
  end.

Definition coreOnRenders (registrations : list (JsValue * nat)) :
    option (JsValue → list nat) :=
  foldl (λ handler r, coreOnRender r.1 r.2 handler) None registrations.

(** ** The option loading of [start]

    [start] merges the options read from local storage, validated like
    those of [setOptions], over the current ones and stores the result.
    [None] is the [null] of [readLocalStorage].  When the validation
    throws, [start] is left before the assignment and the internals stay
    as they were. *)
Definition startLoadOptions (heap : Heap)
    (localStorageOptions : option (gmap string JsValue))
    (internals : Internals) : Internals :=
  let initialOptions := options internals in
  match localStorageOptions with
  | Some stored =>
    match validateOptions heap (options internals) stored with
    | Some (validLocalOptions, _) =>
      {| options := validLocalOptions ∪ initialOptions;
         isPaused := isPaused internals |}
    | None => internals
    end
  | None => {| options := initialOptions; isPaused := isPaused internals |}
  end.

(** A run of [setOptions] calls, each of which returns or is left by an
    exception the caller catches. *)
Definition setOptionsAll (heap : Heap) (calls : list (gmap string JsValue))
    (internals : Internals) : Internals :=
  foldl (λ internals userOptions,
           so_internals (setOptions heap userOptions internals))
        internals calls.

(* ===================================================================== *)
(** * Vocabulary of the further statements                                *)
(* ===================================================================== *)

(** [blueprintMapKeys] lists the keys of [blueprintMap], once each. *)
Definition windowInSync (w : Window) : Prop :=
  NoDup (blueprintMapKeys w)
  ∧ ∀ fiber, fiber ∈ blueprintMapKeys w ↔ is_Some (blueprintMap w !! fiber).

(** Every stored option value passes the check of its key. *)
Definition optionsValid (o : gmap string JsValue) : Prop :=
  ∀ key value, o !! key = Some value → checkField key value = FieldValid.

(** A registration [coreOnRender] accepts. *)
Definition validRegistration (r : JsValue * nat) : bool :=
  match r.1 with
  | VFunction _ | VObject _ => true
  | _ => false
  end.

Definition focusedRuntime (rt : Runtime) : Prop :=
  rt_inspectKind rt = "focused"%string
  ∧ getProp (options (rt_internals rt)) "showToolbar" ≠ VBool false.

Definition sampleRuntime : Runtime :=
  {| rt_internals := {| options := defaultOptions; isPaused := Some false |};
     rt_inspectKind := "focused";
     rt_reportData := ∅;
     rt_changesListeners := <[1 := [7%nat; 8%nat]]> ∅;
     rt_interactionListening := false;
     rt_needsReport := false;
     rt_window := emptyWindow |}.

Definition sampleReport (fiber : Fiber) (selfTime : Z) : RenderReport :=
  {| rp_fiber := fiber; rp_selfTime := selfTime;
     rp_displayName := Some "Component"%string; rp_type := Some 1%nat |}.

(** A component whose nearest host fibers are text nodes only. *)
Definition textFiber : Fiber :=
  {| fiber_ref := 7%nat; fiber_type := TypeOther; isCompositeFiber := true;
     getDisplayName := Some "Label"%string;
     getNearestHostFibers := [OtherNode];
     didFiberCommit := true |}.

Definition canvasEnv : Env :=
  {| worker := false; canvasCtx := true; getFiberId := Z.of_nat |}.

(** The scroll events among the events of the listener. *)
Definition isOnScroll (ev : ScrollEvent) : bool :=
  match ev with
  | OnScroll => true
  | ScrollTimeout _ _ => false
  end.

Definition scrollEvents (events : list ScrollEvent) : nat :=
  length (filter (λ ev, isOnScroll ev) events).

(** The runtime with other internals (what [setOptions] leaves). *)
Definition withInternals (internals : Internals) (rt : Runtime) : Runtime :=
  {| rt_internals := internals;
     rt_inspectKind := rt_inspectKind rt;
     rt_reportData := rt_reportData rt;
     rt_changesListeners := rt_changesListeners rt;
     rt_interactionListening := rt_interactionListening rt;
     rt_needsReport := rt_needsReport rt;
     rt_window := rt_window rt |}.

Definition inspectorInactive (rt : Runtime) : Prop :=
  rt_inspectKind rt = "inspect-off"%string
  ∨ rt_inspectKind rt = "uninitialized"%string.

(** The renders of a run that [reportRenderToListeners] files under the
    fiber id [id]. *)
Definition reportedFor (env : Env) (id : Z) (rps : list RenderReport) :
    list RenderReport :=
  filter (λ rp, isCompositeFiber (rp_fiber rp) = true
                ∧ getFiberId env (fiber_ref (rp_fiber rp)) = id) rps.

(** Callback by callback, the entries that are the first reported for
    their element, [seen] being the elements reported before. *)
Fixpoint firstReportsPerCall (seen : gset Element)
    (calls : list (list IntersectionObserverEntry)) :
    list (list IntersectionObserverEntry) :=
  match calls with
  | [] => []
  | entries :: calls =>
    firstReports seen entries
    :: firstReportsPerCall (targets entries ∪ seen) calls
  end.

(** The fields of a call that [setOptions] would take over already have
    their value. *)
Definition nothingNew (userOptions current : gmap string JsValue) : Prop :=
  ∀ key value, userOptions !! key = Some value →
    accepted current key value = true → current !! key = Some value.

(** The internals reached from the initial ones by a run of [setOptions]
    calls followed by the option loading of [start]. *)
Definition reachedInternals (heap : Heap)
    (calls : list (gmap string JsValue))
    (stored : option (gmap string JsValue)) : Internals :=
  startLoadOptions heap stored (setOptionsAll heap calls defaultInternals).

(** A run of [ignoreScan] calls on the initially empty [ignoredProps]. *)
Definition ignoreScans (nodes : list JsValue) : gset nat :=
  foldl (λ ignoredProps node, ignoreScan node ignoredProps) ∅ nodes.

(** [existingTime + selfTime || 0]. *)
Definition addTime (existingTime selfTime : Z) : Z :=
  if truthyNumber (existingTime + selfTime) then existingTime + selfTime
  else 0.

(** The report [reportRenderToListeners] leaves for a fiber id that had
    the report [existing], after the renders [reported] (the last one
    being [latest]): the count grown by their number, the time with
    their self times added one after the other. *)
Definition reportAfter (existing : option RenderData)
    (reported : list RenderReport) (latest : RenderReport) : RenderData :=
  {| rd_count :=
       default 0 (rd_count <$> existing) + Z.of_nat (length reported);
     rd_time :=
       foldl addTime (default 0 (rd_time <$> existing))
         (rp_selfTime <$> reported);
     rd_renders := [];
     rd_displayName := rp_displayName latest;
     rd_type := rp_type latest;
     rd_changes := [] |}.

(* ===================================================================== *)
(** * The [console.error] override installed by [start]                   *)
(* ===================================================================== *)

(** An argument of [console.error]: an [Error] object, with its identity
    and its [message], [stack] and [componentStack] properties, or any
    other value. *)
Inductive ConsoleArg :=
  | ArgError (error : nat) (message stack componentStack : JsValue)
  | ArgValue (v : JsValue).

(** The payload of an ['IFRAME_ERROR'] message; a key the object literal
    does not have is [None]. *)
Record ErrorPayload := {
  ep_message : JsValue;
  ep_stack : option JsValue;
  ep_componentStack : option JsValue;
}.

Definition lineFeed : Ascii.ascii := Ascii.ascii_of_nat 10.
Definition viteInternalServerError : string := "[vite] Internal Server Error".

(** [s.startsWith(p)]. *)
Definition startsWith (s p : string) : bool := String.prefix p s.

Fixpoint dropString (n : nat) (s : string) : string :=
  match n, s with
  | O, _ => s
  | S _, EmptyString => EmptyString
  | S n', String _ s' => dropString n' s'
  end.

(** [s.replace(pattern, '')] for a string pattern: the first occurrence
    of the pattern is taken out; without one the string is returned as it
    is. *)
Fixpoint replaceWithEmpty (pattern s : string) : string :=
  if String.prefix pattern s then dropString (String.length pattern) s
  else match s with
       | EmptyString => EmptyString
       | String c s' => String c (replaceWithEmpty pattern s')
       end.

(** [s.split(sep)] for a separator of one character. *)
Fixpoint split (sep : Ascii.ascii) (s : string) : list string :=
  match s with
  | EmptyString => [EmptyString]
  | String c s' =>
    if Ascii.eqb c sep then EmptyString :: split sep s'
    else match split sep s' with
         | first :: rest => String c first :: rest
         | [] => [String c EmptyString]
         end
  end.

(** [parts.join(sep)]. *)
Fixpoint join (sep : string) (parts : list string) : string :=
  match parts with
  | [] => EmptyString
  | [part] => part
  | part :: rest => part +:+ sep +:+ join sep rest
  end.

(** What the override posts to the parent window, if anything, after it
    has called the original [console.error]. *)
Definition consoleError (args : list ConsoleArg) : option ErrorPayload :=
  match args !! 0%nat with
  | Some (ArgError _ message stack componentStack) =>
    Some {| ep_message :=
              if toBoolean message then message
              else VString "Unknown error";
            ep_stack := Some stack;
            ep_componentStack := Some componentStack |}
  | Some (ArgValue (VString s)) =>
    if startsWith s viteInternalServerError then
      let errorWithStack :=
        replaceWithEmpty
          (viteInternalServerError +:+ String lineFeed EmptyString) s in
      let errorItself :=
        match split lineFeed errorWithStack !! 0%nat with
        | Some line => VString line
        | None => VUndefined
        end in
      let stack :=
        join (String lineFeed EmptyString)
          (drop 1 (split lineFeed errorWithStack)) in
      Some {| ep_message := errorItself;
              ep_stack := Some (VString stack);
              ep_componentStack := None |}
    else if bool_decide (s = "[vite]"%string) then
      Some {| ep_message :=
                match args !! 1%nat with
                | Some (ArgValue v) => v
                | Some (ArgError error _ _ _) => VObject error
                | None => VUndefined
                end;
              ep_stack := None;
              ep_componentStack := None |}
    else
      Some {| ep_message := VString s;
              ep_stack := None;
              ep_componentStack := None |}
  | _ => None
  end.

(** The character [c] occurs in [s]. *)
Fixpoint occurs (c : Ascii.ascii) (s : string) : bool :=
  match s with
  | EmptyString => false
  | String c' s' => Ascii.eqb c' c || occurs c s'
  end.

(* ===================================================================== *)
(** * Properties                                                          *)
(* ===================================================================== *)

Set Warnings "-clear-no-such-hyp".

(** Tactics for goals over explicit lists: bounds on the members, and
    membership hypotheses. *)
Ltac members :=
  let a := fresh "a" in
  let Ha := fresh "Ha" in
  intros a Ha; unfold rect_right, rect_bottom in Ha; cbn in Ha;
  repeat (apply elem_of_cons in Ha as [->|Ha]; [lia|]);
  by apply elem_of_nil in Ha.

Ltac list_cases H :=
  cbn in H;
  repeat (apply elem_of_cons in H as [->|H];
          [by apply (bool_decide_unpack _)|]);
  by apply elem_of_nil in H.

(* ===================================================================== *)
(** * Rect merger                                                       *)
(* ===================================================================== *)

Section merge_rects.

Lemma mergeStep_noBounds r : mergeStep noBounds r = boundsOf r.
Proof. reflexivity. Qed.

Lemma foldl_mergeStep_bounds rects : ∀ x0 y0 x1 y1 xs ys rs bs,
  is_min x0 xs → is_min y0 ys → is_max x1 rs → is_max y1 bs →
  ∃ x0' y0' x1' y1',
    foldl mergeStep
      {| minX := Some x0; minY := Some y0;
         maxX := Some x1; maxY := Some y1 |} rects
    = {| minX := Some x0'; minY := Some y0';
         maxX := Some x1'; maxY := Some y1' |}
    ∧ is_min x0' (xs ++ (rect_x <$> rects))
    ∧ is_min y0' (ys ++ (rect_y <$> rects))
    ∧ is_max x1' (rs ++ (rect_right <$> rects))
    ∧ is_max y1' (bs ++ (rect_bottom <$> rects)).
Proof.
  induction rects as [|r rects IH]; intros x0 y0 x1 y1 xs ys rs bs Hx Hy Hr Hb.
  - exists x0, y0, x1, y1. rewrite !app_nil_r. done.
  - simpl foldl. unfold mergeStep at 2. simpl.
    destruct (IH (Z.min x0 (rect_x r)) (Z.min y0 (rect_y r))
                 (Z.max x1 (rect_x r + rect_width r))
                 (Z.max y1 (rect_y r + rect_height r))
                 (xs ++ [rect_x r]) (ys ++ [rect_y r])
                 (rs ++ [rect_right r]) (bs ++ [rect_bottom r]))
      as (x0' & y0' & x1' & y1' & Heq & Hx' & Hy' & Hr' & Hb').
    + destruct Hx as [Hin Hle]. split.
      * destruct (Z.min_spec x0 (rect_x r)) as [[_ ->]|[_ ->]]; set_solver.
      * intros a [Ha| ->%list_elem_of_singleton]%elem_of_app; [specialize (Hle a Ha)|]; lia.
    + destruct Hy as [Hin Hle]. split.
      * destruct (Z.min_spec y0 (rect_y r)) as [[_ ->]|[_ ->]]; set_solver.
      * intros a [Ha| ->%list_elem_of_singleton]%elem_of_app; [specialize (Hle a Ha)|]; lia.
    + destruct Hr as [Hin Hle]. split.
      * unfold rect_right.
        destruct (Z.max_spec x1 (rect_x r + rect_width r)) as [[_ ->]|[_ ->]]; set_solver.
      * unfold rect_right.
        intros a [Ha| ->%list_elem_of_singleton]%elem_of_app; [specialize (Hle a Ha)|]; lia.
    + destruct Hb as [Hin Hle]. split.
      * unfold rect_bottom.
        destruct (Z.max_spec y1 (rect_y r + rect_height r)) as [[_ ->]|[_ ->]]; set_solver.
      * unfold rect_bottom.
        intros a [Ha| ->%list_elem_of_singleton]%elem_of_app; [specialize (Hle a Ha)|]; lia.
    + exists x0', y0', x1', y1'. rewrite Heq.
      rewrite <- (assoc app) in Hx', Hy', Hr', Hb'. done.
Qed.

Lemma is_min_singleton a : is_min a [a].
Proof. split; [set_solver|]. intros b ->%list_elem_of_singleton. lia. Qed.

Lemma is_max_singleton a : is_max a [a].
Proof. split; [set_solver|]. intros b ->%list_elem_of_singleton. lia. Qed.

Lemma is_min_unique m m' l : is_min m l → is_min m' l → m = m'.
Proof. intros [H1 H2] [H3 H4]. specialize (H2 _ H3). specialize (H4 _ H1). lia. Qed.

Lemma is_max_unique m m' l : is_max m l → is_max m' l → m = m'.
Proof. intros [H1 H2] [H3 H4]. specialize (H2 _ H3). specialize (H4 _ H1). lia. Qed.

(** On a non-empty list the loop leaves all four bounds defined, so the
    result is the bounding box (also for a single rectangle, had the
    early return not been taken). *)
Lemma foldl_mergeStep_nonempty r rects :
  ∃ x0 y0 x1 y1,
    foldl mergeStep noBounds (r :: rects)
    = {| minX := Some x0; minY := Some y0;
         maxX := Some x1; maxY := Some y1 |}
    ∧ is_min x0 (rect_x <$> r :: rects)
    ∧ is_min y0 (rect_y <$> r :: rects)
    ∧ is_max x1 (rect_right <$> r :: rects)
    ∧ is_max y1 (rect_bottom <$> r :: rects).
Proof.
  simpl foldl. rewrite mergeStep_noBounds. unfold boundsOf.
  apply (foldl_mergeStep_bounds rects _ _ _ _
           [rect_x r] [rect_y r] [rect_right r] [rect_bottom r]);
    auto using is_min_singleton, is_max_singleton.
Qed.

(** mergeRects never yields [undefined] on a non-empty list. *)
Lemma mergeRects_nonempty_Some rects :
  rects ≠ [] → is_Some (mergeRects rects).
Proof.
  destruct rects as [|r rects]; [done|]. intros _.
  unfold mergeRects. case_decide; [by eexists|].
  destruct (foldl_mergeStep_nonempty r rects)
    as (x0 & y0 & x1 & y1 & -> & _). simpl. by eexists.
Qed.

End merge_rects.

(** C3: [mergeRects] on a list of length exactly one returns the one
    rectangle of the list, unchanged. *)
Theorem mergeRects_single (rects : list DOMRect) :
  length rects = 1%nat →
  ∃ r, rects = [r] ∧ mergeRects rects = Some r.
Proof.
  intros Hlen. destruct rects as [|r [|r' rects]]; [done| |done].
  exists r. split; [done|].
  unfold mergeRects. by rewrite decide_True.
Qed.

Lemma mergeRects_single_witness :
  ∃ r, [rectA] = [r] ∧ mergeRects [rectA] = Some r.
Proof. apply mergeRects_single. reflexivity. Defined.

(** C2: on a list of at least two rectangles [mergeRects] returns the
    bounding box: [x] is the least input [x], [y] the least input [y],
    [width] is the greatest [x + width] minus the least [x], and [height]
    is the greatest [y + height] minus the least [y]. *)
Theorem mergeRects_bounding_box (rects : list DOMRect) :
  (2 ≤ length rects)%nat →
  ∃ x0 y0 x1 y1,
    is_min x0 (rect_x <$> rects) ∧
    is_min y0 (rect_y <$> rects) ∧
    is_max x1 (rect_right <$> rects) ∧
    is_max y1 (rect_bottom <$> rects) ∧
    mergeRects rects
    = Some {| rect_x := x0; rect_y := y0;
              rect_width := x1 - x0; rect_height := y1 - y0 |}.
Proof.
  intros Hlen. destruct rects as [|r rects]; [simpl in Hlen; lia|].
  destruct (foldl_mergeStep_nonempty r rects)
    as (x0 & y0 & x1 & y1 & Heq & Hx & Hy & Hr & Hb).
  exists x0, y0, x1, y1. repeat split; try apply Hx; try apply Hy;
    try apply Hr; try apply Hb.
  unfold mergeRects. case_decide as H1; [simpl in *; lia|].
  rewrite Heq. reflexivity.
Qed.

(** The example of the specification, obtained from the theorem. *)
Lemma mergeRects_bounding_box_witness :
  mergeRects [rectA; rectB]
  = Some {| rect_x := 0; rect_y := 0; rect_width := 25; rect_height := 25 |}.
Proof.
  destruct (mergeRects_bounding_box [rectA; rectB])
    as (x0 & y0 & x1 & y1 & Hx & Hy & Hr & Hb & ->); [simpl; lia|].
  assert (x0 = 0) as ->.
  { apply (is_min_unique _ _ _ Hx). split; [cbn; set_solver|]. members. }
  assert (y0 = 0) as ->.
  { apply (is_min_unique _ _ _ Hy). split; [cbn; set_solver|]. members. }
  assert (x1 = 25) as ->.
  { apply (is_max_unique _ _ _ Hr). split; [cbn; set_solver|]. members. }
  assert (y1 = 25) as ->.
  { apply (is_max_unique _ _ _ Hb). split; [cbn; set_solver|]. members. }
  reflexivity.
Defined.

(* ===================================================================== *)
(** * Blueprint aggregator                                              *)
(* ===================================================================== *)

Section aggregator.

Lemma outlineFiber_not_aggregated fiber w :
  ¬ aggregated fiber → outlineFiber fiber w = w.
Proof.
  unfold aggregated, outlineFiber. intros Hn.
  destruct (isCompositeFiber fiber); [|done]. simpl.
  destruct (truthyName (fiberName fiber)); [|done].
  exfalso. apply Hn. split; [done|by eexists].
Qed.

Lemma outlineFiber_other fiber w r :
  fiber_ref fiber ≠ r →
  blueprintMap (outlineFiber fiber w) !! r = blueprintMap w !! r.
Proof.
  intros Hne. unfold outlineFiber.
  destruct (isCompositeFiber fiber); [|done]. simpl.
  destruct (truthyName (fiberName fiber)); [|done].
  destruct (blueprintMap w !! fiber_ref fiber); simpl;
    by rewrite lookup_insert_ne.
Qed.

Lemma outlineFiber_create fiber w :
  aggregated fiber → blueprintMap w !! fiber_ref fiber = None →
  ∃ bp, blueprintMap (outlineFiber fiber w) !! fiber_ref fiber = Some bp
        ∧ bp_count bp = 1
        ∧ bp_didCommit bp = (if didFiberCommit fiber then 1 else 0).
Proof.
  intros [Hc [name Hn]] Hnone. unfold outlineFiber.
  rewrite Hc, Hn, Hnone. simpl. rewrite lookup_insert_eq.
  eexists. split; [done|]. done.
Qed.

Lemma outlineFiber_increment fiber w bp :
  aggregated fiber → blueprintMap w !! fiber_ref fiber = Some bp →
  ∃ bp', blueprintMap (outlineFiber fiber w) !! fiber_ref fiber = Some bp'
         ∧ bp_count bp' = bp_count bp + 1
         ∧ bp_didCommit bp' = bp_didCommit bp.
Proof.
  intros [Hc [name Hn]] Hsome. unfold outlineFiber.
  rewrite Hc, Hn, Hsome. simpl. rewrite lookup_insert_eq.
  eexists. split; [done|]. done.
Qed.

(** Once a blueprint exists, later notifications only count. *)
Lemma outlineFibers_existing r fibers : ∀ w bp,
  blueprintMap w !! r = Some bp →
  ∃ bp', blueprintMap (outlineFibers fibers w) !! r = Some bp'
         ∧ bp_count bp' = bp_count bp + Z.of_nat (length (recordedFor r fibers))
         ∧ bp_didCommit bp' = bp_didCommit bp.
Proof.
  induction fibers as [|fiber fibers IH]; intros w bp Hbp.
  - exists bp. simpl. split; [done|]. split; [lia|done].
  - unfold outlineFibers, recordedFor in *. simpl foldl.
    rewrite filter_cons. case_decide as Hd.
    + destruct Hd as [<- Hagg].
      destruct (outlineFiber_increment fiber w bp Hagg Hbp)
        as (bp1 & Hl1 & Hc1 & Hd1).
      destruct (IH _ _ Hl1) as (bp' & Hl' & Hc' & Hd').
      exists bp'. split; [done|]. simpl length. split; [lia|congruence].
    + apply IH.
      destruct (decide (fiber_ref fiber = r)) as [Heq|Hne].
      * rewrite outlineFiber_not_aggregated; [done|]. tauto.
      * by rewrite outlineFiber_other.
Qed.

(** Notifications that are not recorded for [r] leave [r] absent. *)
Lemma outlineFibers_absent r fibers : ∀ w,
  blueprintMap w !! r = None → recordedFor r fibers = [] →
  blueprintMap (outlineFibers fibers w) !! r = None.
Proof.
  induction fibers as [|fiber fibers IH]; intros w Hw Hrec; [done|].
  unfold outlineFibers, recordedFor in *. simpl foldl.
  rewrite filter_cons in Hrec. case_decide as Hd; [done|].
  apply IH; [|done].
  destruct (decide (fiber_ref fiber = r)) as [Heq|Hne].
  - rewrite outlineFiber_not_aggregated; [done|]. tauto.
  - by rewrite outlineFiber_other.
Qed.

End aggregator.

(** C10: a fiber that is not composite, or whose name resolves to [null]
    or to the empty string, leaves the aggregation window untouched. *)
Theorem outlineFiber_skips (fiber : Fiber) (w : Window) :
  isCompositeFiber fiber = false
  ∨ fiberName fiber = None
  ∨ fiberName fiber = Some EmptyString →
  outlineFiber fiber w = w.
Proof.
  intros H. apply outlineFiber_not_aggregated. intros [Hc [name Hn]].
  destruct H as [H|[H|H]]; [congruence| |]; rewrite H in Hn; done.
Qed.

Lemma outlineFiber_skips_witness :
  outlineFiber
    {| fiber_ref := 1%nat; fiber_type := TypeString "div";
       isCompositeFiber := false; getDisplayName := None;
       getNearestHostFibers := [ElementNode 1%nat]; didFiberCommit := true |}
    (outlineFiber (appFiber true) emptyWindow)
  = outlineFiber (appFiber true) emptyWindow.
Proof. apply outlineFiber_skips. left. reflexivity. Defined.

(** C1 (as amended): when the notifications recorded for an identity in
    one aggregation window are [first :: rest], its blueprint has [count]
    equal to their number and [didCommit] equal to the flag of the first
    one; later notifications only increment [count]. *)
Theorem outlineFibers_count_first_commit
    (r : FiberRef) (fibers : list Fiber) (first : Fiber) (rest : list Fiber)
    (w : Window) :
  blueprintMap w !! r = None →
  recordedFor r fibers = first :: rest →
  ∃ bp, blueprintMap (outlineFibers fibers w) !! r = Some bp
        ∧ bp_count bp = Z.of_nat (length (first :: rest))
        ∧ bp_didCommit bp = (if didFiberCommit first then 1 else 0).
Proof.
  revert w. induction fibers as [|fiber fibers IH]; intros w Hw Hrec; [done|].
  unfold outlineFibers, recordedFor in *. simpl foldl.
  rewrite filter_cons in Hrec. case_decide as Hd.
  - injection Hrec as -> Hrest. destruct Hd as [<- Hagg].
    destruct (outlineFiber_create first w Hagg Hw) as (bp1 & Hl1 & Hc1 & Hd1).
    destruct (outlineFibers_existing (fiber_ref first) fibers _ _ Hl1)
      as (bp' & Hl' & Hc' & Hd').
    exists bp'. split; [done|]. unfold recordedFor in Hc'. rewrite Hrest in Hc'.
    simpl length. split; [lia|congruence].
  - apply IH; [|done].
    destruct (decide (fiber_ref fiber = r)) as [Heq|Hne].
    + rewrite outlineFiber_not_aggregated; [done|]. tauto.
    + by rewrite outlineFiber_other.
Qed.

Lemma outlineFibers_count_first_commit_witness :
  ∃ bp, blueprintMap (outlineFibers [appFiber true; appFiber false; appFiber false]
                        emptyWindow) !! 1%nat = Some bp
        ∧ bp_count bp = 3
        ∧ bp_didCommit bp = 1.
Proof.
  apply (outlineFibers_count_first_commit 1%nat
           [appFiber true; appFiber false; appFiber false]
           (appFiber true) [appFiber false; appFiber false] emptyWindow);
    reflexivity.
Defined.

(** C1 as stated fails: a blueprint created by an uncommitted render does
    not pick up the flag of a later committed one. *)
Lemma outlineFibers_sticky_or_counterexample :
  recordedFor 1%nat [appFiber false; appFiber true]
  = [appFiber false; appFiber true]
  ∧ ∃ bp, blueprintMap (outlineFibers [appFiber false; appFiber true]
                          emptyWindow) !! 1%nat = Some bp
          ∧ bp_count bp = 2
          ∧ bp_didCommit bp = 0
          ∧ stickyOr [appFiber false; appFiber true] = 1.
Proof.
  split; [reflexivity|]. eexists. split; [reflexivity|]. done.
Qed.

(* ===================================================================== *)
(** * Batched visibility resolver                                       *)
(* ===================================================================== *)

Section first_reports.

Lemma targets_app l1 l2 : targets (l1 ++ l2) = targets l1 ∪ targets l2.
Proof. unfold targets. rewrite fmap_app, list_to_set_app_L. done. Qed.

Lemma elem_of_targets e l : e ∈ targets l ↔ e ∈ target <$> l.
Proof. unfold targets. by rewrite elem_of_list_to_set. Qed.

Lemma foldl_collectStep entries : ∀ seen acc,
  foldl collectStep (seen, acc) entries
  = (targets entries ∪ seen, acc ++ firstReports seen entries).
Proof.
  induction entries as [|entry entries IH]; intros seen acc.
  - simpl. f_equal; [set_solver|by rewrite app_nil_r].
  - simpl foldl. unfold collectStep at 2. simpl.
    destruct (decide (target entry ∈ seen)) as [Hin|Hnin].
    + rewrite IH. f_equal. unfold targets. set_solver.
    + rewrite IH. f_equal; [unfold targets; set_solver|].
      by rewrite <- (assoc app).
Qed.

Lemma collectNew_spec seen entries :
  collectNew seen entries
  = (targets entries ∪ seen, firstReports seen entries).
Proof. unfold collectNew. by rewrite foldl_collectStep. Qed.

Lemma firstReports_app l1 : ∀ seen l2,
  firstReports seen (l1 ++ l2)
  = firstReports seen l1 ++ firstReports (targets l1 ∪ seen) l2.
Proof.
  induction l1 as [|entry l1 IH]; intros seen l2; simpl.
  - f_equal. unfold targets. set_solver.
  - destruct (decide (target entry ∈ seen)) as [Hin|Hnin].
    + rewrite IH. do 2 f_equal. unfold targets. set_solver.
    + rewrite IH. simpl. do 3 f_equal. unfold targets. set_solver.
Qed.

Lemma firstReports_seen l : ∀ seen,
  targets l ⊆ seen → firstReports seen l = [].
Proof.
  induction l as [|entry l IH]; intros seen Hsub; [done|]. simpl.
  unfold targets in *. rewrite decide_True by set_solver.
  apply IH. set_solver.
Qed.

Lemma elem_of_firstReports_targets l : ∀ seen e,
  e ∈ target <$> firstReports seen l ↔ e ∈ target <$> l ∧ e ∉ seen.
Proof.
  induction l as [|entry l IH]; intros seen e; simpl; [set_solver|].
  destruct (decide (target entry ∈ seen)) as [Hin|Hnin].
  - rewrite IH. set_solver.
  - rewrite fmap_cons, !elem_of_cons, IH.
    destruct (decide (e = target entry)) as [->|Hne]; set_solver.
Qed.

Lemma NoDup_firstReports l : ∀ seen,
  NoDup (target <$> firstReports seen l).
Proof.
  induction l as [|entry l IH]; intros seen; simpl; [constructor|].
  destruct (decide (target entry ∈ seen)) as [Hin|Hnin]; [apply IH|].
  rewrite fmap_cons. constructor; [|apply IH].
  rewrite elem_of_firstReports_targets. set_solver.
Qed.

(** Every kept entry is the earliest entry of its element. *)
Lemma firstReports_first l : ∀ seen entry,
  entry ∈ firstReports seen l →
  ∃ l1 l2, l = l1 ++ entry :: l2
           ∧ (target entry ∉ seen)
           ∧ (target entry ∉ target <$> l1).
Proof.
  induction l as [|x l IH]; intros seen entry Hin; simpl in Hin.
  - by apply elem_of_nil in Hin.
  - destruct (decide (target x ∈ seen)) as [Hx|Hx].
    + destruct (IH _ _ Hin) as (l1 & l2 & -> & Hs & Hn).
      exists (x :: l1), l2. split; [done|]. split; [done|].
      rewrite fmap_cons, not_elem_of_cons. split; [congruence|done].
    + apply elem_of_cons in Hin as [->|Hin].
      * exists [], l. split; [done|]. split; [done|]. apply not_elem_of_nil.
      * destruct (IH _ _ Hin) as (l1 & l2 & -> & Hs & Hn).
        exists (x :: l1), l2. split; [done|]. split; [set_solver|].
        rewrite fmap_cons, not_elem_of_cons. split; [set_solver|done].
Qed.

End first_reports.

Section resolver.

(** One host callback on an awaiting pass: everything new is handed over
    as one batch, and the pass closes exactly when the sizes agree. *)
Lemma deliver_awaiting entries p :
  awaiting p →
  ∃ p', deliver entries p
        = (p', if decide (firstReports (seenElements (state p)) entries = [])
               then None
               else Some (firstReports (seenElements (state p)) entries))
    ∧ seenElements (state p') = targets entries ∪ seenElements (state p)
    ∧ uniqueElements (state p') = uniqueElements (state p)
    ∧ (size (targets entries ∪ seenElements (state p))
         = size (uniqueElements (state p)) → closed p')
    ∧ (size (targets entries ∪ seenElements (state p))
         ≠ size (uniqueElements (state p)) → awaiting p').
Proof.
  intros (Hc & Hr & Hs & Hd & Hf).
  unfold deliver, onIntersect. rewrite Hc, collectNew_spec, Hr, Hs.
  rewrite andb_true_r.
  destruct (decide (firstReports (seenElements (state p)) entries = []))
    as [Hnil|Hnil].
  - rewrite Hnil. simpl.
    destruct (decide (size (targets entries ∪ seenElements (state p))
                      = size (uniqueElements (state p)))) as [Heq|Hne].
    + unfold resume. simpl. eexists. split; [reflexivity|]. simpl.
      repeat split; try done.
    + unfold resume. simpl. rewrite ?Hs. eexists. split; [reflexivity|].
      simpl. repeat split; try done.
  - rewrite bool_decide_true by done. simpl.
    destruct (decide (size (targets entries ∪ seenElements (state p))
                      = size (uniqueElements (state p)))) as [Heq|Hne].
    + unfold resume. simpl. rewrite bool_decide_true by done.
      eexists. split; [reflexivity|]. simpl. repeat split; try done.
    + unfold resume. simpl. rewrite bool_decide_true by done. rewrite Hd.
      eexists. split; [reflexivity|]. simpl. repeat split; try done.
Qed.

Lemma deliver_closed entries p : closed p → deliver entries p = (p, None).
Proof. intros (Hc & _). unfold deliver. by rewrite Hc. Qed.

Lemma runPass_snoc elements calls entries :
  runPass elements (calls ++ [entries])
  = passStep (runPass elements calls) entries.
Proof. unfold runPass. by rewrite foldl_app. Qed.

(** The pass after any sequence of host callbacks. *)
Lemma runPass_inv elements calls :
  let p := (runPass elements calls).1 in
  let batches := (runPass elements calls).2 in
  uniqueElements (state p) = list_to_set elements
  ∧ Forall (λ batch, batch ≠ []) batches
  ∧ ((awaiting p
      ∧ seenElements (state p) = targets (concat calls)
      ∧ concat batches = firstReports ∅ (concat calls)
      ∧ (calls = [] ∨ size (seenElements (state p))
                       ≠ size (uniqueElements (state p))))
     ∨ (closed p
        ∧ ∃ pre post, calls = pre ++ post ∧ pre ≠ []
            ∧ seenElements (state p) = targets (concat pre)
            ∧ size (seenElements (state p))
              = size (uniqueElements (state p))
            ∧ concat batches = firstReports ∅ (concat pre))).
Proof.
  induction calls as [|entries calls IH] using rev_ind.
  - simpl. split; [done|]. split; [constructor|]. left.
    split; [by repeat split|]. split; [done|]. split; [done|]. by left.
  - rewrite runPass_snoc. destruct (runPass elements calls) as [p batches].
    simpl in IH. destruct IH as (Hu & Hne & [Hlive|Hclosed]).
    + destruct Hlive as (Haw & Hseen & Hcat & _).
      destruct (deliver_awaiting entries p Haw)
        as (p' & Hdel & Hseen' & Hu' & Hclose & Hopen).
      unfold passStep. simpl. rewrite Hdel. simpl.
      split; [congruence|]. split.
      { apply Forall_app. split; [done|]. case_decide; simpl;
          [constructor|]. by constructor. }
      assert (seenElements (state p') = targets (concat (calls ++ [entries])))
        as Hs'.
      { rewrite Hseen', Hseen, concat_app, targets_app. simpl.
        rewrite app_nil_r. set_solver. }
      assert (concat (batches ++ option_list
                (if decide (firstReports (seenElements (state p)) entries = [])
                 then None
                 else Some (firstReports (seenElements (state p)) entries)))
              = firstReports ∅ (concat (calls ++ [entries]))) as Hc'.
      { rewrite !concat_app, firstReports_app, Hcat. simpl.
        rewrite !app_nil_r, (right_id_L ∅ (∪)), <- Hseen. f_equal.
        case_decide as Hnil; simpl; [by rewrite Hnil|by rewrite app_nil_r]. }
      destruct (decide (size (targets entries ∪ seenElements (state p))
                        = size (uniqueElements (state p)))) as [Heq|Hneq].
      * right. split; [by apply Hclose|].
        exists (calls ++ [entries]), []. rewrite app_nil_r.
        split; [done|]. split; [by destruct calls|]. split; [done|].
        split; [by rewrite Hseen', Hu'|done].
      * left. split; [by apply Hopen|]. split; [done|]. split; [done|].
        right. by rewrite Hseen', Hu'.
    + destruct Hclosed as (Hcl & pre & post & -> & Hpre & Hseen & Hsz & Hcat).
      unfold passStep. simpl. rewrite (deliver_closed _ _ Hcl). simpl.
      rewrite app_nil_r. split; [done|]. split; [done|]. right.
      split; [done|]. exists pre, (post ++ [entries]).
      rewrite (assoc app). done.
Qed.

End resolver.

(** C5, on the input where the code fails it: a pass over no elements.
    The observer watches nothing, so a host that reports watched elements
    only, with at least one entry per callback, has nothing to call back
    with.  Every element (there is none) has reported, yet the generator
    still awaits its first promise, the observer is still connected, and
    nothing has been yielded: the test that ends a pass is made in
    [onIntersect] only. *)
Theorem resolver_without_elements_never_ends
    (calls : list (list IntersectionObserverEntry)) :
  (∀ e, e ∈ target <$> concat calls → e ∈ (@nil Element)) →
  Forall (λ entries, entries ≠ []) calls →
  let p := (runPass [] calls).1 in
  (∀ e, e ∈ (@nil Element) → e ∈ target <$> concat calls)
  ∧ finished p = false
  ∧ connected p = true
  ∧ done (state p) = false
  ∧ resolveNext (state p) = true
  ∧ (runPass [] calls).2 = [].
Proof.
  intros Hwatched Hnonempty.
  assert (calls = []) as ->.
  { destruct calls as [|entries calls]; [done|]. exfalso.
    apply Forall_cons in Hnonempty as [Hne _].
    destruct entries as [|entry entries]; [done|].
    specialize (Hwatched (target entry)). simpl in Hwatched.
    apply elem_of_nil in Hwatched; [done|]. apply elem_of_cons. by left. }
  simpl. split; [|done]. intros e He. by apply elem_of_nil in He.
Qed.

Lemma resolver_without_elements_never_ends_witness :
  let p := (runPass [] []).1 in
  (∀ e, e ∈ (@nil Element) → e ∈ target <$> concat [])
  ∧ finished p = false
  ∧ connected p = true
  ∧ done (state p) = false
  ∧ resolveNext (state p) = true
  ∧ (runPass [] []).2 = [].
Proof.
  apply (resolver_without_elements_never_ends []).
  - intros e He. simpl in He. by apply elem_of_nil in He.
  - constructor.
Defined.

(** X27: let the host deliver the callbacks [calls] (at least one) for a
    pass over [elements], reporting only watched elements and every
    watched element at least once, grouped in any way.  Then the pass has
    disconnected its observer and its generator has returned; the batches
    it yielded are non-empty, name every watched element exactly once
    overall, and each yielded entry is the first one the host reported
    for its element. *)
Theorem resolver_reports_each_once
    (elements : list Element) (calls : list (list IntersectionObserverEntry)) :
  calls ≠ [] →
  (∀ e, e ∈ target <$> concat calls → e ∈ elements) →
  (∀ e, e ∈ elements → e ∈ target <$> concat calls) →
  let p := (runPass elements calls).1 in
  let batches := (runPass elements calls).2 in
  finished p = true
  ∧ connected p = false
  ∧ Forall (λ batch, batch ≠ []) batches
  ∧ NoDup (target <$> concat batches)
  ∧ (∀ e, e ∈ target <$> concat batches ↔ e ∈ elements)
  ∧ (∀ entry, entry ∈ concat batches →
       ∃ l1 l2, concat calls = l1 ++ entry :: l2
                ∧ (target entry ∉ target <$> l1)).
Proof.
  intros Hcalls Hsub Hall.
  destruct (runPass_inv elements calls) as (Hu & Hne & Hcases).
  simpl. destruct (runPass elements calls) as [p batches]. simpl in *.
  assert (targets (concat calls) = list_to_set elements) as Hsets.
  { apply set_eq. intros e. rewrite elem_of_targets, elem_of_list_to_set.
    split; auto. }
  assert (concat batches = firstReports ∅ (concat calls)
          ∧ closed p) as [Hcat Hcl].
  { destruct Hcases as [(Haw & Hseen & Hcat & [->|Hsz])|Hclosed]; [done| |].
    - exfalso. apply Hsz. by rewrite Hseen, Hu, Hsets.
    - destruct Hclosed as (Hcl & pre & post & -> & Hpre & Hseen & Hsz & Hcat).
      split; [|done]. rewrite concat_app, firstReports_app, Hcat.
      rewrite (firstReports_seen (concat post)); [by rewrite app_nil_r|].
      rewrite (right_id_L ∅ (∪)), <- Hseen.
      assert (seenElements (state p) = uniqueElements (state p)) as ->.
      { apply set_subseteq_size_eq; [|lia].
        rewrite Hseen, Hu, <- Hsets, concat_app, targets_app. set_solver. }
      rewrite Hu, <- Hsets, concat_app, targets_app. set_solver. }
  destruct Hcl as (Hconn & _ & _ & Hfin).
  split; [done|]. split; [done|]. split; [done|]. rewrite Hcat.
  split; [apply NoDup_firstReports|]. split.
  - intros e. rewrite elem_of_firstReports_targets. split.
    + intros [He _]. by apply Hsub.
    + intros He. split; [by apply Hall|set_solver].
  - intros entry Hin.
    destruct (firstReports_first _ _ _ Hin) as (l1 & l2 & Heq & _ & Hn).
    by exists l1, l2.
Qed.

(* ===================================================================== *)
(** * One batch: gathering and encoding                                 *)
(* ===================================================================== *)

Section gather.
Context (env : Env) (w : Window) (rectsMap : gmap Element DOMRect).

Lemma resolvedRects_nil blueprint :
  resolvedRects rectsMap blueprint = []
  ↔ ¬ hasResolvedRect rectsMap blueprint.
Proof.
  unfold resolvedRects, hasResolvedRect.
  induction (bp_elements blueprint) as [|node nodes IH]; simpl.
  - split; [|done]. intros _ H. by apply Exists_nil in H.
  - rewrite Exists_cons. destruct (rectOf rectsMap node) as [r|] eqn:Hr.
    + split; [done|]. intros Hn. exfalso. apply Hn. left. by eexists.
    + rewrite IH. split.
      * intros Hn [[? ?]|?]; [done|tauto].
      * tauto.
Qed.

Lemma gatherStep_contribution g fiber :
  gatherStep env w rectsMap g fiber
  = match contributionOf w rectsMap fiber with
    | None => g
    | Some c => addContribution env g c
    end.
Proof.
  unfold gatherStep, contributionOf.
  destruct (blueprintMap w !! fiber) as [bp|]; simpl; [|done].
  destruct (decide (resolvedRects rectsMap bp = [])) as [Hnil|Hne].
  - rewrite Hnil. done.
  - rewrite decide_False by (by destruct (resolvedRects rectsMap bp)).
    destruct (mergeRects_nonempty_Some _ Hne) as [rect Hrect].
    rewrite Hrect. done.
Qed.

Lemma foldl_gatherStep fibers : ∀ g,
  foldl (gatherStep env w rectsMap) g fibers
  = foldl (addContribution env) g (omap (contributionOf w rectsMap) fibers).
Proof.
  induction fibers as [|fiber fibers IH]; intros g; [done|].
  simpl. rewrite gatherStep_contribution.
  destruct (contributionOf w rectsMap fiber); simpl; apply IH.
Qed.

Lemma foldl_addContribution cs : ∀ g,
  foldl (addContribution env) g cs
  = {| blueprints := blueprints g ++ (ct_blueprint <$> cs);
       blueprintRects := blueprintRects g ++ ((λ c, Some (ct_rect c)) <$> cs);
       blueprintIds :=
         blueprintIds g ++ ((λ c, getFiberId env (ct_fiber c)) <$> cs);
       mergeCalls := mergeCalls g ++ (ct_rects <$> cs) |}.
Proof.
  induction cs as [|c cs IH]; intros g.
  - simpl. rewrite !app_nil_r. by destruct g.
  - simpl. rewrite IH. simpl. by rewrite <- !(assoc app).
Qed.

(** The arrays of a batch, in terms of the contributions. *)
Lemma gather_spec :
  gather env w rectsMap
  = {| blueprints := ct_blueprint <$> contributions w rectsMap;
       blueprintRects :=
         (λ c, Some (ct_rect c)) <$> contributions w rectsMap;
       blueprintIds :=
         (λ c, getFiberId env (ct_fiber c)) <$> contributions w rectsMap;
       mergeCalls := ct_rects <$> contributions w rectsMap |}.
Proof.
  unfold gather. rewrite foldl_gatherStep, foldl_addContribution. done.
Qed.

Lemma contributionOf_Some fiber c :
  contributionOf w rectsMap fiber = Some c →
  ct_fiber c = fiber
  ∧ blueprintMap w !! fiber = Some (ct_blueprint c)
  ∧ ct_rects c = resolvedRects rectsMap (ct_blueprint c)
  ∧ ct_rects c ≠ []
  ∧ mergeRects (ct_rects c) = Some (ct_rect c).
Proof.
  unfold contributionOf. intros H.
  destruct (blueprintMap w !! fiber) as [bp|]; simpl in H; [|done].
  case_decide as Hne; [done|].
  destruct (mergeRects (resolvedRects rectsMap bp)) eqn:Hm; simpl in H;
    [|done].
  injection H as <-. done.
Qed.

Lemma elem_of_contributions c :
  c ∈ contributions w rectsMap →
  ct_fiber c ∈ blueprintMapKeys w
  ∧ blueprintMap w !! ct_fiber c = Some (ct_blueprint c)
  ∧ ct_rects c = resolvedRects rectsMap (ct_blueprint c)
  ∧ ct_rects c ≠ []
  ∧ mergeRects (ct_rects c) = Some (ct_rect c).
Proof.
  unfold contributions. rewrite list_elem_of_omap.
  intros (fiber & Hin & Hc).
  destruct (contributionOf_Some _ _ Hc) as (<- & H). done.
Qed.

(** Every pending blueprint with a resolved rectangle contributes. *)
Lemma resolved_contributes fiber blueprint :
  fiber ∈ blueprintMapKeys w →
  blueprintMap w !! fiber = Some blueprint →
  hasResolvedRect rectsMap blueprint →
  ∃ rect, mergeRects (resolvedRects rectsMap blueprint) = Some rect
          ∧ recordFor env fiber blueprint rect
            ∈ outlineRecords env w rectsMap.
Proof.
  intros Hin Hbp Hres.
  assert (resolvedRects rectsMap blueprint ≠ []) as Hne.
  { intros Hnil. by apply resolvedRects_nil in Hnil. }
  destruct (mergeRects_nonempty_Some _ Hne) as [rect Hrect].
  exists rect. split; [done|].
  unfold outlineRecords. apply list_elem_of_fmap.
  exists {| ct_fiber := fiber; ct_blueprint := blueprint;
            ct_rects := resolvedRects rectsMap blueprint;
            ct_rect := rect |}.
  split; [done|]. unfold contributions. apply list_elem_of_omap.
  exists fiber. split; [done|]. unfold contributionOf.
  rewrite Hbp. simpl. rewrite decide_False by done. rewrite Hrect. done.
Qed.

End gather.

Section encode.
Context (env : Env) (cs : list Contribution).

Lemma length_encodeRecords records :
  length (encodeRecords records) = (length records * 7)%nat.
Proof.
  unfold encodeRecords. induction records as [|r records IH]; [done|].
  rewrite bind_cons, length_app, IH. simpl. lia.
Qed.

Lemma write_record (L R : list Float32) (k : nat)
    (v0 v1 v2 v3 v4 v5 v6 : Float32) :
  length L = (k * 7)%nat →
  <[(k * 7 + 6)%nat := v6]>
  (<[(k * 7 + 5)%nat := v5]>
  (<[(k * 7 + 4)%nat := v4]>
  (<[(k * 7 + 3)%nat := v3]>
  (<[(k * 7 + 2)%nat := v2]>
  (<[(k * 7 + 1)%nat := v1]>
  (<[(k * 7)%nat := v0]> (L ++ replicate 7 (toFloat32 0) ++ R)))))))
  = L ++ [v0; v1; v2; v3; v4; v5; v6] ++ R.
Proof.
  intros HL.
  replace (k * 7)%nat with (length L + 0)%nat at 7 by lia.
  rewrite <- HL, !insert_app_r. reflexivity.
Qed.

Lemma encodeStep_worker k c acc :
  worker env = true → cs !! k = Some c →
  encodeStep env (gatheredFrom env cs) (Some acc) k
  = Some {| sharedView :=
              <[(k * 7 + 6)%nat := toFloat32 (od_didCommit (recordOf env c))]>
              (<[(k * 7 + 5)%nat := toFloat32 (od_height (recordOf env c))]>
              (<[(k * 7 + 4)%nat := toFloat32 (od_width (recordOf env c))]>
              (<[(k * 7 + 3)%nat := toFloat32 (od_y (recordOf env c))]>
              (<[(k * 7 + 2)%nat := toFloat32 (od_x (recordOf env c))]>
              (<[(k * 7 + 1)%nat := toFloat32 (od_count (recordOf env c))]>
              (<[(k * 7)%nat := toFloat32 (od_id (recordOf env c))]>
                 (sharedView acc)))))));
            blueprintNames :=
              <[k := Some (od_name (recordOf env c))]> (blueprintNames acc);
            outlineData := outlineData acc |}.
Proof.
  intros Hw Hc. unfold encodeStep, gatheredFrom. simpl.
  rewrite !list_lookup_fmap, Hc. simpl. rewrite Hw. reflexivity.
Qed.

Lemma encodeStep_inprocess k c acc :
  worker env = false → cs !! k = Some c →
  encodeStep env (gatheredFrom env cs) (Some acc) k
  = Some {| sharedView := sharedView acc;
            blueprintNames := blueprintNames acc;
            outlineData :=
              Some (<[k := Some (recordOf env c)]>
                      (default (replicate (length cs) None)
                         (outlineData acc))) |}.
Proof.
  intros Hw Hc. unfold encodeStep, gatheredFrom. simpl.
  rewrite !list_lookup_fmap, Hc. simpl. rewrite Hw, length_fmap.
  reflexivity.
Qed.

Local Abbreviation records := (recordOf env <$> cs).
Local Abbreviation n := (length cs).

Lemma encode_worker_prefix k :
  worker env = true → (k ≤ n)%nat →
  foldl (encodeStep env (gatheredFrom env cs)) (Some (encodeInit n)) (seq 0 k)
  = Some {| sharedView :=
              encodeRecords (take k records) ++ replicate ((n - k) * 7) (toFloat32 0);
            blueprintNames :=
              ((λ r, Some (od_name r)) <$> take k records)
              ++ replicate (n - k) None;
            outlineData := None |}.
Proof.
  intros Hw. induction k as [|k IH]; intros Hk.
  - simpl. unfold encodeInit, OUTLINE_ARRAY_SIZE.
    rewrite Nat.div_mul by done. by rewrite Nat.sub_0_r.
  - rewrite seq_S, foldl_app, IH by lia. cbn [foldl Nat.add].
    destruct (lookup_lt_is_Some_2 cs k) as [c Hc]; [lia|].
    rewrite (encodeStep_worker k c) by done. simpl.
    assert (records !! k = Some (recordOf env c)) as Hrec.
    { by rewrite list_lookup_fmap, Hc. }
    rewrite (take_S_r _ _ _ Hrec).
    replace ((n - k) * 7)%nat with (7 + (n - S k) * 7)%nat by lia.
    rewrite replicate_add. rewrite write_record.
    2:{ rewrite length_encodeRecords, length_take_le; [done|].
        rewrite length_fmap. lia. }
    f_equal. f_equal.
    + unfold encodeRecords. rewrite bind_app, bind_singleton.
      by rewrite <- (assoc app).
    + rewrite fmap_app. simpl.
      replace (n - k)%nat with (S (n - S k)) by lia.
      replace k with (length ((λ r, Some (od_name r)) <$> take k records) + 0)%nat
        at 1.
      2:{ rewrite length_fmap, length_take_le; [lia|].
          rewrite length_fmap. lia. }
      rewrite insert_app_r. simpl. by rewrite <- (assoc app).
Qed.

Lemma encode_inprocess_prefix k :
  worker env = false → (k ≤ n)%nat →
  ∃ acc,
    foldl (encodeStep env (gatheredFrom env cs)) (Some (encodeInit n)) (seq 0 k)
    = Some acc
    ∧ default (replicate n None) (outlineData acc)
      = (Some <$> take k records) ++ replicate (n - k) None
    ∧ ((0 < k)%nat → is_Some (outlineData acc)).
Proof.
  intros Hw. induction k as [|k IH]; intros Hk.
  - exists (encodeInit n). simpl. rewrite Nat.sub_0_r.
    split; [done|]. split; [done|lia].
  - destruct IH as (acc & Hacc & Hdata & _); [lia|].
    rewrite seq_S, foldl_app, Hacc. cbn [foldl Nat.add].
    destruct (lookup_lt_is_Some_2 cs k) as [c Hc]; [lia|].
    rewrite (encodeStep_inprocess k c) by done.
    eexists. split; [reflexivity|]. simpl. split; [|by eexists].
    rewrite Hdata.
    assert (records !! k = Some (recordOf env c)) as Hrec.
    { by rewrite list_lookup_fmap, Hc. }
    rewrite (take_S_r _ _ _ Hrec), fmap_app. simpl.
    replace (n - k)%nat with (S (n - S k)) by lia.
    replace k with (length (Some <$> take k records) + 0)%nat at 1.
    2:{ rewrite length_fmap, length_take_le; [lia|].
        rewrite length_fmap. lia. }
    rewrite insert_app_r. simpl. by rewrite <- (assoc app).
Qed.

(** What [dispatch] hands over for the gathered arrays. *)
Lemma dispatch_gatheredFrom :
  dispatch env (gatheredFrom env cs) = Some (forward env records).
Proof.
  unfold dispatch, forward.
  assert (length (blueprints (gatheredFrom env cs)) = n) as ->
    by apply length_fmap.
  destruct (decide (n = 0%nat)) as [Hn|Hn].
  { destruct cs; [done|]. simpl in Hn. done. }
  rewrite decide_False.
  2:{ intros H. apply Hn. 
      apply (f_equal length) in H. rewrite length_fmap in H. done. }
  unfold submitFrame.
  assert (take n records = records) as Htake.
  { apply take_ge. rewrite length_fmap. done. }
  destruct (worker env) eqn:Hw.
  - pose proof (encode_worker_prefix n Hw (le_n _)) as Hfold.
    unfold encodeInit in Hfold. rewrite Hfold. simpl.
    rewrite Htake, Nat.sub_diag. simpl. rewrite !app_nil_r.
    rewrite length_fmap. done.
  - destruct (encode_inprocess_prefix n Hw (le_n _))
      as (acc & Hfold & Hdata & Hsome).
    unfold encodeInit in Hfold. rewrite Hfold. simpl.
    destruct Hsome as [data Hd]; [lia|]. rewrite Hd in Hdata |- *.
    simpl in Hdata. rewrite Hdata, Htake, Nat.sub_diag. simpl.
    rewrite app_nil_r. done.
Qed.

End encode.

Section batch.
Context (env : Env).

Lemma dispatch_gather w rectsMap :
  dispatch env (gather env w rectsMap)
  = Some (forward env (outlineRecords env w rectsMap)).
Proof.
  rewrite gather_spec. apply dispatch_gatheredFrom.
Qed.

(** One iteration of the [for await] loop never throws. *)
Lemma flushBatch_spec w rectsMap entries :
  flushBatch env w rectsMap entries
  = Some (recordEntries rectsMap entries,
          {| bt_entries := entries;
             bt_gathered := gather env w (recordEntries rectsMap entries);
             bt_dispatch :=
               forward env
                 (outlineRecords env w (recordEntries rectsMap entries)) |}).
Proof. unfold flushBatch. rewrite dispatch_gather. reflexivity. Qed.

End batch.

(* ===================================================================== *)
(** * A flush in flight                                                 *)
(* ===================================================================== *)

Section flush.
Context (env : Env).

Lemma intersections_callbacks events :
  intersections events = concat (callbacks events).
Proof.
  unfold intersections, callbacks.
  induction events as [|[fiber|entries] events IH]; [done| |];
    rewrite bind_cons; simpl; by rewrite IH.
Qed.

Lemma callbacks_app events1 events2 :
  callbacks (events1 ++ events2) = callbacks events1 ++ callbacks events2.
Proof. apply omap_app. Qed.

Lemma recordEntry_lookup rectsMap entry e r :
  recordEntry rectsMap entry !! e = Some r →
  rectsMap !! e = Some r
  ∨ (target entry = e ∧ intersectionRect entry = r ∧ visibleReport entry).
Proof.
  unfold recordEntry, visibleReport, truthyNumber.
  destruct (isIntersecting entry); simpl; [|by left].
  destruct (Z.eqb_spec (rect_width (intersectionRect entry)) 0);
    simpl; [by left|].
  destruct (Z.eqb_spec (rect_height (intersectionRect entry)) 0);
    simpl; [by left|].
  destruct (decide (target entry = e)) as [->|Hne].
  - rewrite lookup_insert_eq. intros [= <-]. by right.
  - rewrite lookup_insert_ne by done. by left.
Qed.

Lemma recordEntries_from entries : ∀ rectsMap seen,
  rectsFrom rectsMap seen →
  rectsFrom (recordEntries rectsMap entries) (seen ++ entries).
Proof.
  induction entries as [|entry entries IH]; intros rectsMap seen Hfrom.
  - by rewrite app_nil_r.
  - unfold recordEntries. simpl.
    rewrite (cons_middle entry), (assoc app). apply IH.
    intros e r [Hold|(He & Hr & Hv)]%recordEntry_lookup.
    + destruct (Hfrom e r Hold) as (en & Hin & H).
      exists en. split; [set_solver|done].
    + exists entry. split; [set_solver|done].
Qed.

Lemma rectsFrom_mono rectsMap l1 l2 :
  l1 ⊆ l2 → rectsFrom rectsMap l1 → rectsFrom rectsMap l2.
Proof.
  intros Hsub Hfrom e r Her. destruct (Hfrom e r Her) as (en & Hin & H).
  exists en. split; [by apply Hsub|done].
Qed.

Lemma flushOutlines_snoc w events ev :
  flushOutlines env w (events ++ [ev])
  = flushOutlines env w events ≫= λ s, flushStep env s ev.
Proof. unfold flushOutlines. by rewrite foldl_app. Qed.

(** What one host callback does to a flush in flight. *)
Lemma flushStep_Intersect s entries :
  flushStep env s (Intersect entries)
  = Some
      (let p := (deliver entries (fs_pass s)).1 in
       let cleared :=
         if finished p && negb (finished (fs_pass s))
         then clearWindow (fs_window s) else fs_window s in
       match (deliver entries (fs_pass s)).2 with
       | None =>
         {| fs_window := cleared; fs_pass := p;
            fs_rectsMap := fs_rectsMap s; fs_trace := fs_trace s |}
       | Some batch =>
         {| fs_window := cleared; fs_pass := p;
            fs_rectsMap := recordEntries (fs_rectsMap s) batch;
            fs_trace :=
              fs_trace s
              ++ [ {| bt_entries := batch;
                      bt_gathered :=
                        gather env (fs_window s)
                          (recordEntries (fs_rectsMap s) batch);
                      bt_dispatch :=
                        forward env
                          (outlineRecords env (fs_window s)
                             (recordEntries (fs_rectsMap s) batch)) |} ] |}
       end).
Proof.
  unfold flushStep. destruct (deliver entries (fs_pass s)) as [p [batch|]];
    simpl; [|done].
  rewrite flushBatch_spec. done.
Qed.

Lemma flushOutlines_inv w events :
  ∃ s, flushOutlines env w events = Some s ∧ flushInv env w events s.
Proof.
  induction events as [|ev events IH] using rev_ind.
  - exists (flushStart w). split; [done|]. split; [done|].
    split; [|constructor]. intros e r Her. simpl in Her. by rewrite lookup_empty in Her.
  - destruct IH as (s & Hs & Hpass & Hrects & Htrace).
    rewrite flushOutlines_snoc, Hs. simpl.
    destruct ev as [fiber|entries].
    + eexists. split; [reflexivity|]. unfold flushInv. simpl.
      rewrite callbacks_app. simpl. rewrite app_nil_r. done.
    + rewrite flushStep_Intersect. eexists. split; [reflexivity|].
      unfold flushInv. rewrite callbacks_app. simpl callbacks.
      rewrite runPass_snoc, <- Hpass. unfold passStep. simpl.
      destruct (deliver entries (fs_pass s)) as [p [batch|]]; simpl.
      * unfold consumed. simpl.
        rewrite fmap_app, concat_app. simpl. rewrite app_nil_r.
        split; [done|]. split; [by apply recordEntries_from|].
        apply Forall_app. split.
        -- eapply Forall_impl; [exact Htrace|]. simpl.
           intros bt (w' & rm & Hg & Hd & Hf). exists w', rm.
           split; [done|]. split; [done|].
           eapply rectsFrom_mono; [|exact Hf]. set_solver.
        -- constructor; [|constructor]. simpl. eexists _, _.
           split; [done|]. split; [done|]. by apply recordEntries_from.
      * rewrite app_nil_r. done.
Qed.

(** The batches consumed by a flush are first reports of its events. *)
Lemma consumed_first_reports w events s :
  flushInv env w events s →
  ∃ pre post, callbacks events = pre ++ post
              ∧ consumed s = firstReports ∅ (concat pre).
Proof.
  intros (Hpass & _).
  destruct (runPass_inv (flushElements w) (callbacks events))
    as (_ & _ & Hcases).
  rewrite <- Hpass in Hcases. simpl in Hcases. unfold consumed.
  destruct Hcases as [(_ & _ & Hcat & _)|(_ & pre & post & Heq & _ & _ & _ & Hcat)].
  - exists (callbacks events), []. by rewrite app_nil_r.
  - by exists pre, post.
Qed.

Lemma consumed_reported w events s entry :
  flushInv env w events s → entry ∈ consumed s → entry ∈ intersections events.
Proof.
  intros Hinv Hin.
  destruct (consumed_first_reports _ _ _ Hinv) as (pre & post & Heq & Hc).
  rewrite Hc in Hin.
  destruct (firstReports_first _ _ _ Hin) as (l1 & l2 & Hl & _).
  rewrite intersections_callbacks, Heq, concat_app, Hl. set_solver.
Qed.

End flush.

(* ===================================================================== *)
(** * Frame flusher                                                     *)
(* ===================================================================== *)

Section float32.

Lemma digits2_pos_size (m : positive) :
  SpecFloat.digits2_pos m = Pos.size m.
Proof. induction m as [m IH|m IH|]; simpl; by rewrite ?IH. Qed.

Lemma digits2_pos_bound (m : positive) :
  Z.pos m < 2 ^ 24 → Z.pos (SpecFloat.digits2_pos m) ≤ 24.
Proof.
  intros Hm. rewrite digits2_pos_size.
  pose proof (Pos.size_le m) as Hle.
  destruct (decide (Z.pos (Pos.size m) ≤ 24)) as [|Hgt]; [done|exfalso].
  assert (2 ^ 25 ≤ 2 ^ Z.pos (Pos.size m)) as Hpow.
  { apply Z.pow_le_mono_r; lia. }
  assert (Z.pos (2 ^ Pos.size m) ≤ Z.pos m~0) as Hle'
    by (by apply Pos2Z.pos_le_pos).
  rewrite Pos2Z.inj_pow in Hle'. lia.
Qed.

Lemma iter_xO_digits (m k : positive) :
  SpecFloat.digits2_pos (Pos.iter xO m k)
  = (SpecFloat.digits2_pos m + k)%positive.
Proof.
  induction k as [|k IH] using Pos.peano_ind.
  - simpl. lia.
  - rewrite Pos.iter_succ. simpl. rewrite IH. lia.
Qed.

Lemma iter_xO_value (m k : positive) :
  Z.pos (Pos.iter xO m k) = Z.pos m * 2 ^ Z.pos k.
Proof.
  induction k as [|k IH] using Pos.peano_ind.
  - simpl. lia.
  - rewrite Pos.iter_succ, Pos2Z.inj_xO, IH, Pos2Z.inj_succ, Z.pow_succ_r;
      lia.
Qed.

(** A mantissa of 24 digits with an exponent in range is kept as it
    is. *)
Lemma binary_round_aux_canonical (s : bool) (m : positive) (e : Z) :
  Z.pos (SpecFloat.digits2_pos m) = 24 → -149 ≤ e ≤ 104 →
  SpecFloat.binary_round_aux 24 128 s (Z.pos m) e SpecFloat.loc_Exact
  = SpecFloat.S754_finite s m e.
Proof.
  intros Hd He. unfold SpecFloat.binary_round_aux, SpecFloat.shr_fexp.
  cbn [SpecFloat.Zdigits2 SpecFloat.shr_record_of_loc]. rewrite Hd.
  unfold SpecFloat.fexp, SpecFloat.emin.
  replace (Z.max (24 + e - 24) (3 - 128 - 24) - e) with 0 by lia.
  cbn [SpecFloat.shr SpecFloat.shr_m SpecFloat.loc_of_shr_record
       SpecFloat.round_nearest_even SpecFloat.Zdigits2].
  rewrite Hd.
  replace (Z.max (24 + e - 24) (3 - 128 - 24) - e) with 0 by lia.
  cbn [SpecFloat.shr SpecFloat.shr_m].
  destruct (e <=? 128 - 24) eqn:Hle; [done|]. apply Z.leb_gt in Hle. lia.
Qed.

Lemma binary_round_small (s : bool) (m : positive) :
  Z.pos m < 2 ^ 24 →
  float32ToZ (SpecFloat.binary_round 24 128 s m 0)
  = Some (SpecFloat.cond_Zopp s (Z.pos m)).
Proof.
  intros Hm. pose proof (digits2_pos_bound m Hm) as Hd.
  unfold SpecFloat.binary_round, SpecFloat.shl_align.
  unfold SpecFloat.fexp at 1 2, SpecFloat.emin.
  remember (SpecFloat.digits2_pos m) as d eqn:Heqd.
  replace (Z.max (Z.pos d + 0 - 24) (3 - 128 - 24) - 0) with (Z.pos d - 24)
    by lia.
  replace (Z.max (Z.pos d + 0 - 24) (3 - 128 - 24)) with (Z.pos d - 24)
    by lia.
  destruct (Z.pos d - 24) as [|k|k] eqn:Hk; [|lia|].
  - rewrite binary_round_aux_canonical by (rewrite <- ?Heqd; lia).
    simpl. by rewrite Z.mul_1_r.
  - rewrite binary_round_aux_canonical.
    + unfold float32ToZ.
      replace (- Z.neg k) with (Z.pos k) by lia.
      replace (0 <=? Z.neg k) with false by (symmetry; apply Z.leb_gt; lia).
      rewrite iter_xO_value.
      assert (0 < 2 ^ Z.pos k) by (apply Z.pow_pos_nonneg; lia).
      rewrite Z.mod_mul by lia. simpl (0 =? 0).
      cbv iota. by rewrite Z.div_mul by lia.
    + rewrite iter_xO_digits, <- Heqd. lia.
    + lia.
Qed.

(** An integer of magnitude up to [2 ^ 24] is stored as it is. *)
Lemma toFloat32_exact (n : Z) :
  Z.abs n ≤ 2 ^ 24 → float32ToZ (toFloat32 n) = Some n.
Proof.
  intros Hn.
  destruct (decide (Z.abs n = 2 ^ 24)) as [Heq|Hne].
  - destruct (Z.abs_eq_or_opp n) as [H|H]; rewrite H in Heq.
    + subst n. vm_compute. reflexivity.
    + replace n with (- 2 ^ 24) by lia. vm_compute. reflexivity.
  - unfold toFloat32, SpecFloat.binary_normalize.
    destruct n as [|m|m]; [done| |].
    + rewrite binary_round_small by lia. done.
    + rewrite binary_round_small by lia. done.
Qed.

(** Beyond that the store rounds. *)
Example toFloat32_rounds : toFloat32 16777217 = toFloat32 16777216.
Proof. vm_compute. reflexivity. Qed.

End float32.

Section flush_facts.
Context (env : Env).

Lemma resolvedRects_elem rectsMap blueprint r :
  r ∈ resolvedRects rectsMap blueprint →
  ∃ e, ElementNode e ∈ bp_elements blueprint ∧ rectsMap !! e = Some r.
Proof.
  unfold resolvedRects. rewrite list_elem_of_omap.
  intros ([e|] & Hin & Hr); [|done]. by exists e.
Qed.

Lemma elem_of_gather_blueprints w rectsMap blueprint :
  blueprint ∈ blueprints (gather env w rectsMap) →
  hasResolvedRect rectsMap blueprint
  ∧ ∃ e r, ElementNode e ∈ bp_elements blueprint ∧ rectsMap !! e = Some r.
Proof.
  rewrite gather_spec. simpl. rewrite list_elem_of_fmap.
  intros (c & -> & Hc).
  destruct (elem_of_contributions _ _ _ Hc) as (_ & _ & Hr & Hne & _).
  rewrite Hr in Hne. split.
  - destruct (decide (hasResolvedRect rectsMap (ct_blueprint c)))
      as [H|H]; [done|]. by apply resolvedRects_nil in H.
  - destruct (resolvedRects rectsMap (ct_blueprint c)) as [|r rs] eqn:Hrs;
      [done|].
    destruct (resolvedRects_elem rectsMap (ct_blueprint c) r) as (e & H);
      [rewrite Hrs; left|]. by exists e, r.
Qed.

Lemma gather_mergeCalls w rectsMap :
  let g := gather env w rectsMap in
  mergeCalls g = resolvedRects rectsMap <$> blueprints g
  ∧ Forall (hasResolvedRect rectsMap) (blueprints g)
  ∧ Forall (λ rects, rects ≠ [] ∧ is_Some (mergeRects rects)) (mergeCalls g).
Proof.
  split; [|split].
  - rewrite gather_spec. simpl. rewrite <- list_fmap_compose.
    apply Forall_fmap_ext, Forall_forall. intros c Hc. simpl.
    by destruct (elem_of_contributions _ _ _ Hc) as (_ & _ & Hr & _).
  - apply Forall_forall. intros bp Hbp.
    by apply elem_of_gather_blueprints in Hbp as [H _].
  - rewrite gather_spec. simpl. apply Forall_fmap, Forall_forall.
    intros c Hc. simpl.
    destruct (elem_of_contributions _ _ _ Hc) as (_ & _ & _ & Hne & Hm).
    split; [done|]. by eexists.
Qed.

Lemma lookup_encodeRecords records : ∀ i rec j,
  records !! i = Some rec → (j < 7)%nat →
  encodeRecords records !! (i * 7 + j)%nat = recordFields rec !! j.
Proof.
  unfold encodeRecords.
  induction records as [|r records IH]; intros i rec j Hi Hj; [done|].
  rewrite bind_cons. destruct i as [|i]; simpl in Hi.
  - injection Hi as ->. by rewrite lookup_app_l by (simpl; lia).
  - rewrite lookup_app_r by (simpl; lia).
    replace (S i * 7 + j - length (recordFields r))%nat
      with (i * 7 + j)%nat by (simpl; lia).
    by apply IH.
Qed.

(** The message of the worker variant for a non-empty set of records. *)
Lemma forward_worker records :
  worker env = true → records ≠ [] →
  ∃ data names,
    forward env records
    = Some (PostMessage "draw-outlines" (length records * 7 * 4)
              data names)
    ∧ length data = (length records * 7)%nat
    ∧ length names = length records
    ∧ ∀ i rec, records !! i = Some rec →
        data !! (i * 7)%nat = Some (toFloat32 (od_id rec))
        ∧ data !! (i * 7 + 1)%nat = Some (toFloat32 (od_count rec))
        ∧ data !! (i * 7 + 2)%nat = Some (toFloat32 (od_x rec))
        ∧ data !! (i * 7 + 3)%nat = Some (toFloat32 (od_y rec))
        ∧ data !! (i * 7 + 4)%nat = Some (toFloat32 (od_width rec))
        ∧ data !! (i * 7 + 5)%nat = Some (toFloat32 (od_height rec))
        ∧ data !! (i * 7 + 6)%nat = Some (toFloat32 (od_didCommit rec))
        ∧ names !! i = Some (Some (od_name rec)).
Proof.
  intros Hw Hne. unfold forward, submitFrame.
  rewrite decide_False by done. rewrite Hw.
  eexists _, _. split; [reflexivity|].
  split; [apply length_encodeRecords|]. split; [apply length_fmap|].
  intros i rec Hrec.
  replace (i * 7)%nat with (i * 7 + 0)%nat at 1 by lia.
  rewrite !(lookup_encodeRecords records _ rec) by (done || lia).
  rewrite list_lookup_fmap, Hrec. done.
Qed.


End flush_facts.

(** C4: in every flush, whatever happens while it runs, no exception
    escapes, and in each batch [mergeRects] is called exactly on the
    resolved rectangles of the blueprints that were kept; each of these
    blueprints has a resolved rectangle, so each argument is non-empty and
    each result is defined. *)
Theorem flush_merges_nonempty (env : Env) (w : Window) (events : list Event) :
  ∃ s, flushOutlines env w events = Some s
       ∧ Forall (λ bt, ∃ w' rectsMap,
                   bt_gathered bt = gather env w' rectsMap
                   ∧ mergeCalls (bt_gathered bt)
                     = resolvedRects rectsMap <$> blueprints (bt_gathered bt)
                   ∧ Forall (hasResolvedRect rectsMap)
                       (blueprints (bt_gathered bt))
                   ∧ Forall (λ rects, rects ≠ [] ∧ is_Some (mergeRects rects))
                       (mergeCalls (bt_gathered bt)))
           (fs_trace s).
Proof.
  destruct (flushOutlines_inv env w events) as (s & Hs & _ & _ & Htrace).
  exists s. split; [done|]. eapply Forall_impl; [exact Htrace|]. simpl.
  intros bt (w' & rm & Hg & _ & _). exists w', rm. rewrite Hg.
  split; [done|]. apply gather_mergeCalls.
Qed.

(** C6: with the worker variant, every batch of a flush that has records
    posts one ['draw-outlines'] message whose buffer has
    [records.length * 7 * 4] bytes, that is [records.length * 7] binary32
    slots; the slots [i*7 .. i*7+6] hold [id], [count], [x], [y],
    [width], [height], [didCommit] of record [i], each as the store into
    the [Float32Array] converts it (the number itself up to [2 ^ 24] in
    magnitude, see [toFloat32_exact]), and [names[i]] is its name. *)
Theorem worker_buffer_layout (env : Env) (w : Window) (events : list Event) :
  worker env = true →
  ∃ s, flushOutlines env w events = Some s
       ∧ Forall (λ bt, ∃ w' rectsMap,
                   bt_gathered bt = gather env w' rectsMap
                   ∧ let records := outlineRecords env w' rectsMap in
                     length records = length (blueprints (bt_gathered bt))
                     ∧ (records ≠ [] →
                        ∃ data names,
                          bt_dispatch bt
                          = Some (PostMessage "draw-outlines"
                                    (length records * 7 * 4) data names)
                          ∧ length data = (length records * 7)%nat
                          ∧ length names = length records
                          ∧ ∀ i rec, records !! i = Some rec →
                              data !! (i * 7)%nat
                                = Some (toFloat32 (od_id rec))
                              ∧ data !! (i * 7 + 1)%nat
                                = Some (toFloat32 (od_count rec))
                              ∧ data !! (i * 7 + 2)%nat
                                = Some (toFloat32 (od_x rec))
                              ∧ data !! (i * 7 + 3)%nat
                                = Some (toFloat32 (od_y rec))
                              ∧ data !! (i * 7 + 4)%nat
                                = Some (toFloat32 (od_width rec))
                              ∧ data !! (i * 7 + 5)%nat
                                = Some (toFloat32 (od_height rec))
                              ∧ data !! (i * 7 + 6)%nat
                                = Some (toFloat32 (od_didCommit rec))
                              ∧ names !! i = Some (Some (od_name rec))))
           (fs_trace s).
Proof.
  intros Hw.
  destruct (flushOutlines_inv env w events) as (s & Hs & _ & _ & Htrace).
  exists s. split; [done|]. eapply Forall_impl; [exact Htrace|]. simpl.
  intros bt (w' & rm & Hg & Hd & _). exists w', rm. split; [done|].
  split.
  - rewrite Hg, gather_spec. simpl. unfold outlineRecords.
    by rewrite !length_fmap.
  - intros Hne. rewrite Hd. by apply forward_worker.
Qed.

(** C7: whenever a host callback makes the resolver yield a batch (be it
    the last one of the flush or not), the flusher adds the batch to its
    rectangle map, recomputes the records of the pending blueprints, which
    include one for every pending blueprint with a resolved rectangle, and
    hands them, if there are any, to the renderer in use. *)
Theorem flush_forwards_each_batch
    (env : Env) (w : Window) (events : list Event)
    (entries batch : list IntersectionObserverEntry) (s : FlushState) :
  flushOutlines env w events = Some s →
  (deliver entries (fs_pass s)).2 = Some batch →
  ∃ s' bt,
    flushOutlines env w (events ++ [Intersect entries]) = Some s'
    ∧ fs_rectsMap s' = recordEntries (fs_rectsMap s) batch
    ∧ fs_trace s' = fs_trace s ++ [bt]
    ∧ bt_entries bt = batch
    ∧ let records := outlineRecords env (fs_window s) (fs_rectsMap s') in
      bt_dispatch bt
      = (if decide (records = []) then None else submitFrame env records)
      ∧ ∀ fiber blueprint,
          fiber ∈ blueprintMapKeys (fs_window s) →
          blueprintMap (fs_window s) !! fiber = Some blueprint →
          hasResolvedRect (fs_rectsMap s') blueprint →
          ∃ rect,
            mergeRects (resolvedRects (fs_rectsMap s') blueprint) = Some rect
            ∧ recordFor env fiber blueprint rect ∈ records.
Proof.
  intros Hs Hbatch.
  rewrite flushOutlines_snoc, Hs. cbn [mbind option_bind].
  rewrite flushStep_Intersect, Hbatch.
  eexists _, _. split; [reflexivity|]. simpl.
  split; [done|]. split; [done|]. split; [done|]. split; [done|].
  intros fiber bp Hin Hbp Hres. by apply resolved_contributes.
Qed.

(* ===================================================================== *)
(** * Options                                                           *)
(* ===================================================================== *)

Section options.
Context (heap : Heap).

(** [validateOptions] throws exactly on a field whose error message
    cannot be built; otherwise [validOptions] holds the accepted
    fields. *)
Lemma validateOptions_spec current userOptions :
  match validateOptions heap current userOptions with
  | None => validationThrows heap current userOptions
  | Some acc =>
    ¬ validationThrows heap current userOptions
    ∧ ∀ key, acc.1 !! key
        = match userOptions !! key with
          | Some value =>
            if accepted current key value then Some value else None
          | None => None
          end
  end.
Proof.
  unfold validateOptions, validationThrows.
  apply (map_fold_weak_ind
           (λ r m,
              match r with
              | None => ∃ key value, m !! key = Some value
                          ∧ unreportable heap current key value = true
              | Some acc =>
                ¬ (∃ key value, m !! key = Some value
                      ∧ unreportable heap current key value = true)
                ∧ ∀ key, acc.1 !! key
                    = match m !! key with
                      | Some value =>
                        if accepted current key value then Some value
                        else None
                      | None => None
                      end
              end)).
  - split; [|intros key; simpl; by rewrite !lookup_empty].
    intros (key & value & Hl & _). by rewrite lookup_empty in Hl.
  - intros i x m r Hi IH. destruct r as [acc|]; simpl.
    + destruct IH as [Hno IH]. unfold unreportable, accepted in *.
      destruct (isOptionKey current i) eqn:Hk; simpl.
      * destruct (checkField i x) eqn:Hc; simpl.
        -- split.
           ++ intros (key & value & Hl & Hu).
              apply lookup_insert_Some in Hl as [[<- <-]|[Hne Hl]].
              ** by rewrite Hk, Hc in Hu.
              ** apply Hno. by exists key, value.
           ++ intros key. destruct (decide (i = key)) as [->|Hne].
              ** by rewrite !lookup_insert_eq, Hk, Hc.
              ** by rewrite !lookup_insert_ne, IH by done.
        -- destruct (templateThrows heap x) eqn:Ht; simpl.
           ++ exists i, x. by rewrite lookup_insert_eq, Hk, Hc.
           ++ split.
              ** intros (key & value & Hl & Hu).
                 apply lookup_insert_Some in Hl as [[<- <-]|[Hne Hl]].
                 --- by rewrite Hk, Hc, Ht in Hu.
                 --- apply Hno. by exists key, value.
              ** intros key. destruct (decide (i = key)) as [->|Hne].
                 --- rewrite lookup_insert_eq, Hk, Hc, IH. simpl.
                     by rewrite Hi.
                 --- by rewrite lookup_insert_ne, IH by done.
        -- split.
           ++ intros (key & value & Hl & Hu).
              apply lookup_insert_Some in Hl as [[<- <-]|[Hne Hl]].
              ** by rewrite Hk, Hc in Hu.
              ** apply Hno. by exists key, value.
           ++ intros key. destruct (decide (i = key)) as [->|Hne].
              ** rewrite lookup_insert_eq, Hk, Hc, IH. simpl.
                 by rewrite Hi.
              ** by rewrite lookup_insert_ne, IH by done.
      * split.
        -- intros (key & value & Hl & Hu).
           apply lookup_insert_Some in Hl as [[<- <-]|[Hne Hl]].
           ++ by rewrite Hk in Hu.
           ++ apply Hno. by exists key, value.
        -- intros key. destruct (decide (i = key)) as [->|Hne].
           ++ rewrite lookup_insert_eq, Hk, IH. simpl. by rewrite Hi.
           ++ by rewrite lookup_insert_ne, IH by done.
    + destruct IH as (key & value & Hl & Hu). exists key, value.
      split; [|done]. rewrite lookup_insert_ne; [done|].
      intros ->. by rewrite Hi in Hl.
Qed.

Lemma validateOptions_None current userOptions :
  validateOptions heap current userOptions = None
  ↔ validationThrows heap current userOptions.
Proof.
  pose proof (validateOptions_spec current userOptions) as H.
  destruct (validateOptions heap current userOptions) as [acc|].
  - split; [done|]. intros Ht. by destruct H.
  - done.
Qed.

Lemma validateOptions_lookup current userOptions acc key :
  validateOptions heap current userOptions = Some acc →
  acc.1 !! key
  = match userOptions !! key with
    | Some value => if accepted current key value then Some value else None
    | None => None
    end.
Proof.
  intros Hv. pose proof (validateOptions_spec current userOptions) as H.
  rewrite Hv in H. apply H.
Qed.

(** A call that throws leaves everything as it was. *)
Lemma setOptions_thrown userOptions internals :
  so_returned (setOptions heap userOptions internals) = None →
  setOptions heap userOptions internals = thrown internals.
Proof.
  unfold setOptions.
  destruct (validateOptions heap (options internals) userOptions)
    as [[validOptions errors]|]; [|done].
  destruct (if bool_decide (size validOptions = 0%nat)
            then negb <$> userHasOwnProperty heap userOptions "enabled"
            else Some false) as [[]|]; done.
Qed.

Lemma setOptions_throws_on_validation userOptions internals :
  validationThrows heap (options internals) userOptions →
  setOptions heap userOptions internals = thrown internals.
Proof.
  intros Ht. apply validateOptions_None in Ht.
  unfold setOptions. by rewrite Ht.
Qed.

(** Field by field, what [setOptions] stores when the validation does
    not throw. *)
Lemma setOptions_lookup userOptions internals key :
  ¬ validationThrows heap (options internals) userOptions →
  options (so_internals (setOptions heap userOptions internals)) !! key
  = match userOptions !! key with
    | Some value =>
      if accepted (options internals) key value then Some value
      else options internals !! key
    | None => options internals !! key
    end.
Proof.
  intros Hno. rewrite <- validateOptions_None in Hno.
  destruct (validateOptions heap (options internals) userOptions)
    as [[validOptions errors]|] eqn:Hv; [|done].
  pose proof (validateOptions_lookup _ _ _ key Hv) as Hvalid.
  simpl in Hvalid. unfold setOptions. rewrite Hv.
  assert (validOptions = ∅ →
          options internals !! key
          = match userOptions !! key with
            | Some value =>
              if accepted (options internals) key value then Some value
              else options internals !! key
            | None => options internals !! key
            end) as Hempty.
  { intros ->. rewrite lookup_empty in Hvalid.
    destruct (userOptions !! key) as [value|]; [|done].
    by destruct (accepted (options internals) key value). }
  destruct (bool_decide (size validOptions = 0%nat)) eqn:Hsize.
  - apply bool_decide_eq_true, map_size_empty_iff in Hsize.
    destruct (negb <$> userHasOwnProperty heap userOptions "enabled")
      as [[]|]; simpl; [by apply Hempty| |by apply Hempty].
    rewrite lookup_union, Hvalid.
    destruct (userOptions !! key) as [value|]; simpl.
    + destruct (accepted (options internals) key value); simpl;
        by destruct (options internals !! key).
    + by destruct (options internals !! key).
  - simpl. rewrite lookup_union, Hvalid.
    destruct (userOptions !! key) as [value|]; simpl.
    + destruct (accepted (options internals) key value); simpl;
        by destruct (options internals !! key).
    + by destruct (options internals !! key).
Qed.


Lemma accepted_boolean current key value :
  key ∈ booleanOptionKeys →
  accepted current key value
  = bool_decide (key ∈ dom current)
    && match value with VBool _ => true | _ => false end.
Proof.
  intros Hk. unfold accepted, isOptionKey, checkField.
  rewrite (bool_decide_true (key ∈ booleanOptionKeys)) by done.
  by destruct value.
Qed.


End options.




(* ===================================================================== *)
(** * The statements on the sample run                                    *)
(* ===================================================================== *)

Lemma resolver_reports_each_once_witness :
  let p := (runPass [1; 2; 3]%nat [firstCall; secondCall]).1 in
  let batches := (runPass [1; 2; 3]%nat [firstCall; secondCall]).2 in
  finished p = true
  ∧ connected p = false
  ∧ Forall (λ batch, batch ≠ []) batches
  ∧ NoDup (target <$> concat batches)
  ∧ (∀ e, e ∈ target <$> concat batches ↔ e ∈ [1; 2; 3]%nat)
  ∧ (∀ entry, entry ∈ concat batches →
       ∃ l1 l2, concat [firstCall; secondCall] = l1 ++ entry :: l2
                ∧ (target entry ∉ target <$> l1)).
Proof.
  apply resolver_reports_each_once.
  - discriminate.
  - intros e He. list_cases He.
  - intros e He. list_cases He.
Defined.

Lemma flush_merges_nonempty_witness :
  ∃ s, flushOutlines workerEnv sampleWindow sampleEvents = Some s
       ∧ Forall (λ bt, ∃ w' rectsMap,
                   bt_gathered bt = gather workerEnv w' rectsMap
                   ∧ mergeCalls (bt_gathered bt)
                     = resolvedRects rectsMap <$> blueprints (bt_gathered bt)
                   ∧ Forall (hasResolvedRect rectsMap)
                       (blueprints (bt_gathered bt))
                   ∧ Forall (λ rects, rects ≠ [] ∧ is_Some (mergeRects rects))
                       (mergeCalls (bt_gathered bt)))
           (fs_trace s).
Proof. apply flush_merges_nonempty. Defined.

Lemma worker_buffer_layout_witness :
  ∃ s, flushOutlines workerEnv sampleWindow sampleEvents = Some s
       ∧ Forall (λ bt, ∃ w' rectsMap,
                   bt_gathered bt = gather workerEnv w' rectsMap
                   ∧ let records := outlineRecords workerEnv w' rectsMap in
                     length records = length (blueprints (bt_gathered bt))
                     ∧ (records ≠ [] →
                        ∃ data names,
                          bt_dispatch bt
                          = Some (PostMessage "draw-outlines"
                                    (length records * 7 * 4) data names)
                          ∧ length data = (length records * 7)%nat
                          ∧ length names = length records
                          ∧ ∀ i rec, records !! i = Some rec →
                              data !! (i * 7)%nat
                                = Some (toFloat32 (od_id rec))
                              ∧ data !! (i * 7 + 1)%nat
                                = Some (toFloat32 (od_count rec))
                              ∧ data !! (i * 7 + 2)%nat
                                = Some (toFloat32 (od_x rec))
                              ∧ data !! (i * 7 + 3)%nat
                                = Some (toFloat32 (od_y rec))
                              ∧ data !! (i * 7 + 4)%nat
                                = Some (toFloat32 (od_width rec))
                              ∧ data !! (i * 7 + 5)%nat
                                = Some (toFloat32 (od_height rec))
                              ∧ data !! (i * 7 + 6)%nat
                                = Some (toFloat32 (od_didCommit rec))
                              ∧ names !! i = Some (Some (od_name rec))))
           (fs_trace s).
Proof. apply worker_buffer_layout. reflexivity. Defined.

(** The two messages of the sample flush.  A was rendered once and
    committed; B twice before the flush and once while it ran, never
    committed.  A's box grows with the second batch; the later,
    non-intersecting reports of elements 1 and 3 never reach the flusher,
    their first reports stand for this pass. *)
Example sample_flush_messages :
  (λ s, bt_dispatch <$> fs_trace s)
    <$> flushOutlines workerEnv sampleWindow sampleEvents
  = Some [ Some (PostMessage "draw-outlines" 56
                   (toFloat32
                      <$> [1; 1; 0; 0; 10; 10; 1; 2; 2; 20; 20; 5; 5; 0])
                   [Some "A"%string; Some "B"%string]);
           Some (PostMessage "draw-outlines" 56
                   (toFloat32
                      <$> [1; 1; 0; 0; 25; 25; 1; 2; 3; 20; 20; 5; 5; 0])
                   [Some "A"%string; Some "B"%string]) ].
Proof. vm_compute. reflexivity. Qed.

Lemma flush_forwards_each_batch_witness :
  ∃ s' bt,
    flushOutlines workerEnv sampleWindow
      ([Intersect firstCall] ++ [Intersect secondCall]) = Some s'
    ∧ fs_rectsMap s'
      = recordEntries (fs_rectsMap sampleState) [report 2%nat rectB true]
    ∧ fs_trace s' = fs_trace sampleState ++ [bt]
    ∧ bt_entries bt = [report 2%nat rectB true]
    ∧ let records :=
        outlineRecords workerEnv (fs_window sampleState) (fs_rectsMap s') in
      bt_dispatch bt
      = (if decide (records = []) then None
         else submitFrame workerEnv records)
      ∧ ∀ fiber blueprint,
          fiber ∈ blueprintMapKeys (fs_window sampleState) →
          blueprintMap (fs_window sampleState) !! fiber = Some blueprint →
          hasResolvedRect (fs_rectsMap s') blueprint →
          ∃ rect,
            mergeRects (resolvedRects (fs_rectsMap s') blueprint) = Some rect
            ∧ recordFor workerEnv fiber blueprint rect ∈ records.
Proof.
  apply (flush_forwards_each_batch workerEnv sampleWindow
           [Intersect firstCall] secondCall [report 2%nat rectB true]
           sampleState).
  - vm_compute. reflexivity.
  - vm_compute. reflexivity.
Defined.




(* ===================================================================== *)
(** * Further properties: blueprint aggregator                            *)
(* ===================================================================== *)

Section aggregator_more.

Lemma emptyWindow_in_sync : windowInSync emptyWindow.
Proof.
  split; [constructor|]. intros fiber. simpl. rewrite lookup_empty. split.
  - intros H. by apply elem_of_nil in H.
  - by intros [? ?].
Qed.

Lemma setAdd_fresh k s : k ∉ s → setAdd k s = s ++ [k].
Proof. intros Hk. unfold setAdd. by rewrite decide_False. Qed.

Lemma outlineFiber_in_sync fiber w :
  windowInSync w → windowInSync (outlineFiber fiber w).
Proof.
  intros [Hnd Hkeys]. unfold outlineFiber.
  destruct (isCompositeFiber fiber); simpl; [|done].
  destruct (truthyName (fiberName fiber)) as [name|]; [|done].
  destruct (blueprintMap w !! fiber_ref fiber) as [bp|] eqn:Hbp.
  - split; [done|]. simpl. intros f. rewrite Hkeys.
    destruct (decide (f = fiber_ref fiber)) as [->|Hne].
    + rewrite lookup_insert_eq, Hbp. split; by eexists.
    + by rewrite lookup_insert_ne.
  - assert (fiber_ref fiber ∉ blueprintMapKeys w) as Hfresh.
    { rewrite Hkeys, Hbp. by intros [? ?]. }
    split; simpl; rewrite setAdd_fresh by done.
    + apply NoDup_app. split; [done|]. split; [|apply NoDup_singleton].
      intros f Hf ->%list_elem_of_singleton. done.
    + intros f. rewrite elem_of_app, list_elem_of_singleton, Hkeys.
      destruct (decide (f = fiber_ref fiber)) as [->|Hne].
      * rewrite lookup_insert_eq. split; [by eexists|by right].
      * rewrite lookup_insert_ne by done. split; [|by left].
        by intros [H|H].
Qed.

Lemma outlineFiber_create_fields fiber w name :
  isCompositeFiber fiber = true →
  truthyName (fiberName fiber) = Some name →
  blueprintMap w !! fiber_ref fiber = None →
  blueprintMap (outlineFiber fiber w) !! fiber_ref fiber
  = Some {| bp_name := name; bp_count := 1;
            bp_elements := getNearestHostFibers fiber;
            bp_didCommit := if didFiberCommit fiber then 1 else 0 |}.
Proof.
  intros Hc Hn Hnone. unfold outlineFiber.
  rewrite Hc, Hn, Hnone. simpl. by rewrite lookup_insert_eq.
Qed.

(** A notification never removes a blueprint nor touches its name, its
    elements or its [didCommit]. *)
Lemma outlineFiber_keeps_fields fiber w r bp :
  blueprintMap w !! r = Some bp →
  ∃ bp', blueprintMap (outlineFiber fiber w) !! r = Some bp'
         ∧ bp_name bp' = bp_name bp
         ∧ bp_elements bp' = bp_elements bp
         ∧ bp_didCommit bp' = bp_didCommit bp
         ∧ bp_count bp ≤ bp_count bp'.
Proof.
  intros Hbp. unfold outlineFiber.
  destruct (isCompositeFiber fiber); simpl;
    [|exists bp; repeat split; [done|lia]].
  destruct (truthyName (fiberName fiber)) as [name|];
    [|exists bp; repeat split; [done|lia]].
  destruct (decide (fiber_ref fiber = r)) as [->|Hne].
  - rewrite Hbp. simpl. rewrite lookup_insert_eq.
    eexists. split; [done|]. simpl. repeat split. lia.
  - destruct (blueprintMap w !! fiber_ref fiber); simpl;
      rewrite lookup_insert_ne by done;
      exists bp; repeat split; (done || lia).
Qed.

Lemma outlineFibers_keeps_fields fibers : ∀ w r bp,
  blueprintMap w !! r = Some bp →
  ∃ bp', blueprintMap (outlineFibers fibers w) !! r = Some bp'
         ∧ bp_name bp' = bp_name bp
         ∧ bp_elements bp' = bp_elements bp
         ∧ bp_didCommit bp' = bp_didCommit bp
         ∧ bp_count bp ≤ bp_count bp'.
Proof.
  induction fibers as [|fiber fibers IH]; intros w r bp Hbp.
  - exists bp. repeat split; (done || lia).
  - unfold outlineFibers in *. simpl.
    destruct (outlineFiber_keeps_fields fiber w r bp Hbp)
      as (bp1 & H1 & Hn1 & He1 & Hd1 & Hc1).
    destruct (IH _ _ _ H1) as (bp' & H' & Hn' & He' & Hd' & Hc').
    exists bp'. repeat split; (congruence || lia).
Qed.

End aggregator_more.

(** X1: the two containers of the aggregation window stay in step under
    any run of render notifications: [blueprintMapKeys] has no duplicate
    and holds exactly the keys of [blueprintMap]. *)
Theorem outlineFibers_keeps_window_in_sync
    (fibers : list Fiber) (w : Window) :
  windowInSync w → windowInSync (outlineFibers fibers w).
Proof.
  revert w. induction fibers as [|fiber fibers IH]; intros w Hw; [done|].
  unfold outlineFibers in *. simpl. apply IH.
  by apply outlineFiber_in_sync.
Qed.

Lemma outlineFibers_keeps_window_in_sync_witness :
  windowInSync (outlineFibers [fiberA; fiberB; fiberB] emptyWindow).
Proof.
  apply outlineFibers_keeps_window_in_sync. apply emptyWindow_in_sync.
Defined.

(** X2: the name and the elements of a blueprint are those of the first
    notification recorded for its identity in the window; what later
    notifications of the same fiber carry is not looked at. *)
Theorem outlineFibers_fields_of_first
    (r : FiberRef) (fibers : list Fiber) (first : Fiber) (rest : list Fiber)
    (w : Window) :
  blueprintMap w !! r = None →
  recordedFor r fibers = first :: rest →
  ∃ bp, blueprintMap (outlineFibers fibers w) !! r = Some bp
        ∧ Some (bp_name bp) = truthyName (fiberName first)
        ∧ bp_elements bp = getNearestHostFibers first.
Proof.
  revert w. induction fibers as [|fiber fibers IH]; intros w Hw Hrec; [done|].
  unfold outlineFibers, recordedFor in *. simpl foldl.
  rewrite filter_cons in Hrec. case_decide as Hd.
  - injection Hrec as -> _. destruct Hd as [<- [Hc [name Hn]]].
    pose proof (outlineFiber_create_fields first w name Hc Hn Hw) as Hnew.
    destruct (outlineFibers_keeps_fields fibers _ _ _ Hnew)
      as (bp' & H' & Hn' & He' & _).
    exists bp'. split; [done|]. rewrite Hn', He', Hn. done.
  - apply IH; [|done].
    destruct (decide (fiber_ref fiber = r)) as [Heq|Hne].
    + rewrite outlineFiber_not_aggregated; [done|]. tauto.
    + by rewrite outlineFiber_other.
Qed.

Lemma outlineFibers_fields_of_first_witness :
  ∃ bp, blueprintMap (outlineFibers [fiberB; fiberA; fiberB] emptyWindow)
          !! 2%nat = Some bp
        ∧ Some (bp_name bp) = truthyName (fiberName fiberB)
        ∧ bp_elements bp = getNearestHostFibers fiberB.
Proof.
  apply (outlineFibers_fields_of_first 2%nat [fiberB; fiberA; fiberB]
           fiberB [fiberB] emptyWindow); reflexivity.
Defined.

(* ===================================================================== *)
(** * Further properties: rect merger                                     *)
(* ===================================================================== *)

Section merge_more.

(** The extremes of the merged rectangle, for every non-empty list. *)
Lemma mergeRects_extremes rects merged :
  mergeRects rects = Some merged →
  rects ≠ []
  ∧ is_min (rect_x merged) (rect_x <$> rects)
  ∧ is_min (rect_y merged) (rect_y <$> rects)
  ∧ is_max (rect_right merged) (rect_right <$> rects)
  ∧ is_max (rect_bottom merged) (rect_bottom <$> rects).
Proof.
  destruct rects as [|r rects]; [done|]. intros Hm. split; [done|].
  unfold mergeRects in Hm. case_decide as Hlen.
  - destruct rects; [|done]. simpl in Hm. injection Hm as <-.
    simpl. auto using is_min_singleton, is_max_singleton.
  - destruct (foldl_mergeStep_nonempty r rects)
      as (x0 & y0 & x1 & y1 & Heq & Hx & Hy & Hr & Hb).
    rewrite Heq in Hm. simpl in Hm. injection Hm as <-.
    unfold rect_right at 1, rect_bottom at 1. simpl.
    replace (x0 + (x1 - x0)) with x1 by lia.
    replace (y0 + (y1 - y0)) with y1 by lia. done.
Qed.

Lemma mergeRects_two_plus rects x0 y0 x1 y1 :
  (2 ≤ length rects)%nat →
  is_min x0 (rect_x <$> rects) → is_min y0 (rect_y <$> rects) →
  is_max x1 (rect_right <$> rects) → is_max y1 (rect_bottom <$> rects) →
  mergeRects rects
  = Some {| rect_x := x0; rect_y := y0;
            rect_width := x1 - x0; rect_height := y1 - y0 |}.
Proof.
  intros Hlen Hx Hy Hr Hb.
  destruct rects as [|r rects]; [simpl in Hlen; lia|].
  destruct (foldl_mergeStep_nonempty r rects)
    as (x0' & y0' & x1' & y1' & Heq & Hx' & Hy' & Hr' & Hb').
  unfold mergeRects. case_decide as H1; [simpl in *; lia|].
  rewrite Heq. simpl.
  rewrite (is_min_unique _ _ _ Hx Hx'), (is_min_unique _ _ _ Hy Hy'),
    (is_max_unique _ _ _ Hr Hr'), (is_max_unique _ _ _ Hb Hb'). done.
Qed.

Lemma is_min_perm m l1 l2 : l1 ≡ₚ l2 → is_min m l1 → is_min m l2.
Proof.
  intros Hp [Hin Hle]. split; [by rewrite <- Hp|].
  intros a Ha. apply Hle. by rewrite Hp.
Qed.

Lemma is_max_perm m l1 l2 : l1 ≡ₚ l2 → is_max m l1 → is_max m l2.
Proof.
  intros Hp [Hin Hle]. split; [by rewrite <- Hp|].
  intros a Ha. apply Hle. by rewrite Hp.
Qed.

End merge_more.

(** X4: the result of [mergeRects] does not depend on the order of the
    rectangles. *)
Theorem mergeRects_permutation (rects1 rects2 : list DOMRect) :
  rects1 ≡ₚ rects2 → mergeRects rects1 = mergeRects rects2.
Proof.
  intros Hp.
  destruct (mergeRects rects1) as [m|] eqn:Hm.
  - destruct (mergeRects_extremes _ _ Hm) as (Hne & Hx & Hy & Hr & Hb).
    destruct (decide (length rects1 = 1%nat)) as [H1|H1].
    + destruct rects1 as [|r [|]]; try done.
      apply Permutation_singleton_l in Hp. subst. by rewrite Hm.
    + assert (2 ≤ length rects2)%nat as Hlen.
      { rewrite <- Hp. destruct rects1 as [|? [|]]; simpl in *; (done || lia). }
      symmetry.
      replace m with {| rect_x := rect_x m; rect_y := rect_y m;
                        rect_width := rect_right m - rect_x m;
                        rect_height := rect_bottom m - rect_y m |}.
      2:{ destruct m. unfold rect_right, rect_bottom. simpl. f_equal; lia. }
      apply mergeRects_two_plus; [done|..].
      * eapply is_min_perm; [|exact Hx]. by rewrite Hp.
      * eapply is_min_perm; [|exact Hy]. by rewrite Hp.
      * eapply is_max_perm; [|exact Hr]. by rewrite Hp.
      * eapply is_max_perm; [|exact Hb]. by rewrite Hp.
  - destruct (decide (rects1 = [])) as [->|Hne].
    + apply Permutation_nil_l in Hp. by subst.
    + destruct (mergeRects_nonempty_Some _ Hne) as [m' Hm']. congruence.
Qed.

Lemma mergeRects_permutation_witness :
  mergeRects [rectA; rectB; rectA] = mergeRects [rectB; rectA; rectA].
Proof.
  apply mergeRects_permutation.
  apply (Permutation_swap rectB rectA [rectA]).
Defined.


(* ===================================================================== *)
(** * Further properties: batched visibility resolver                     *)
(* ===================================================================== *)

Section resolver_more.

Lemma firstReports_sublist l : ∀ seen, firstReports seen l `sublist_of` l.
Proof.
  induction l as [|entry l IH]; intros seen; simpl; [constructor|].
  destruct (decide (target entry ∈ seen)).
  - apply sublist_cons, IH.
  - apply sublist_skip, IH.
Qed.

(** A pass is either suspended or over. *)
Lemma runPass_awaiting_or_closed elements calls :
  awaiting (runPass elements calls).1 ∨ closed (runPass elements calls).1.
Proof.
  destruct (runPass_inv elements calls) as (_ & _ & [(H & _)|(H & _)]);
    [by left|by right].
Qed.

Lemma closed_of_finished elements calls :
  finished (runPass elements calls).1 = true →
  closed (runPass elements calls).1.
Proof.
  intros Hfin.
  destruct (runPass_awaiting_or_closed elements calls)
    as [(_ & _ & _ & _ & Hf)|Hcl]; [congruence|done].
Qed.

(** What has been yielded is the first reports of the callbacks that
    came before the pass was over. *)
Lemma runPass_yielded elements calls :
  ∃ pre post, calls = pre ++ post
              ∧ concat (runPass elements calls).2
                = firstReports ∅ (concat pre).
Proof.
  destruct (runPass_inv elements calls)
    as (_ & _ & [(_ & _ & Hcat & _)|(_ & pre & post & Heq & _ & _ & _ & Hcat)]).
  - exists calls, []. by rewrite app_nil_r.
  - by exists pre, post.
Qed.

Lemma runPass_batches_length elements calls :
  (length (runPass elements calls).2 ≤ length calls)%nat.
Proof.
  induction calls as [|entries calls IH] using rev_ind; [done|].
  rewrite runPass_snoc. unfold passStep.
  destruct (runPass elements calls) as [p batches]. simpl in *.
  destruct (deliver entries p) as [p' [batch|]]; simpl;
    rewrite !length_app; simpl; lia.
Qed.

Lemma foldl_passStep_closed more : ∀ p batches,
  closed p → foldl passStep (p, batches) more = (p, batches).
Proof.
  induction more as [|entries more IH]; intros p batches Hcl; [done|].
  simpl. unfold passStep at 2. simpl.
  rewrite (deliver_closed _ _ Hcl). simpl. rewrite app_nil_r. by apply IH.
Qed.

(** When the host reports watched elements only, a pass is over exactly
    when a callback has come and every element has reported. *)
Lemma runPass_finished_iff elements calls :
  (∀ e, e ∈ target <$> concat calls → e ∈ elements) →
  finished (runPass elements calls).1 = true
  ↔ calls ≠ [] ∧ ∀ e, e ∈ elements → e ∈ target <$> concat calls.
Proof.
  intros Hsub.
  destruct (runPass_inv elements calls) as (Hu & _ & Hcases).
  destruct Hcases as [(Haw & Hseen & _ & Hsz)|Hclosed].
  - destruct Haw as (_ & _ & _ & _ & Hf). rewrite Hf. split; [done|].
    intros [Hne Hall]. exfalso. destruct Hsz as [->|Hsz]; [done|].
    apply Hsz. rewrite Hseen, Hu. f_equal. apply set_eq. intros e.
    rewrite elem_of_targets, elem_of_list_to_set. split; auto.
  - destruct Hclosed as ((_ & _ & _ & Hf) & pre & post & -> & Hpre & Hseen & Hsz & _).
    rewrite Hf. split; [|done]. intros _. split; [by destruct pre|].
    assert (seenElements (state (runPass elements (pre ++ post)).1)
            = uniqueElements (state (runPass elements (pre ++ post)).1))
      as Heq.
    { apply set_subseteq_size_eq; [|lia]. rewrite Hseen, Hu.
      intros e He. apply elem_of_list_to_set, Hsub.
      rewrite concat_app, fmap_app, elem_of_app. left.
      by apply elem_of_targets. }
    intros e He. rewrite concat_app, fmap_app, elem_of_app. left.
    apply elem_of_targets. rewrite <- Hseen, Heq, Hu.
    by apply elem_of_list_to_set.
Qed.

Lemma firstReportsPerCall_app l1 : ∀ seen l2,
  firstReportsPerCall seen (l1 ++ l2)
  = firstReportsPerCall seen l1
    ++ firstReportsPerCall (targets (concat l1) ∪ seen) l2.
Proof.
  induction l1 as [|entries l1 IH]; intros seen l2; simpl.
  - f_equal. unfold targets. simpl. set_solver.
  - rewrite IH. do 3 f_equal. rewrite targets_app. set_solver.
Qed.

Lemma concat_firstReportsPerCall calls : ∀ seen,
  concat (firstReportsPerCall seen calls)
  = firstReports seen (concat calls).
Proof.
  induction calls as [|entries calls IH]; intros seen; simpl; [done|].
  by rewrite firstReports_app, IH.
Qed.

Lemma concat_filter_nonempty {A} (l : list (list A)) :
  concat (filter (λ x, x ≠ []) l) = concat l.
Proof.
  induction l as [|x l IH]; [done|]. rewrite filter_cons.
  destruct (decide (x ≠ [])) as [|Hx]; simpl; rewrite IH; [done|].
  apply dec_stable in Hx. by subst.
Qed.

(** The callbacks that reach the generator, and what it yields for
    them. *)
Lemma runPass_batches elements calls :
  ∃ used ignored,
    calls = used ++ ignored
    ∧ runPass elements calls = runPass elements used
    ∧ (ignored ≠ [] → closed (runPass elements used).1)
    ∧ (∀ before after, used = before ++ after → after ≠ [] →
         finished (runPass elements before).1 = false)
    ∧ (runPass elements calls).2
      = filter (λ batch, batch ≠ []) (firstReportsPerCall ∅ used).
Proof.
  induction calls as [|entries calls IH] using rev_ind.
  - exists [], []. repeat split; try done.
    intros before after Heq Hne. symmetry in Heq.
    apply app_eq_nil in Heq as [_ ->]. done.
  - destruct IH as (used & ignored & Hcalls & Hrun & Hover & Hmin & Hb).
    destruct (runPass_awaiting_or_closed elements calls) as [Haw|Hcl].
    + assert (ignored = []) as ->.
      { destruct ignored as [|x ignored]; [done|]. exfalso.
        destruct (Hover ltac:(done)) as (_ & _ & _ & Hf).
        rewrite <- Hrun in Hf. destruct Haw as (_ & _ & _ & _ & Hf').
        congruence. }
      rewrite app_nil_r in Hcalls. subst used.
      exists (calls ++ [entries]), []. rewrite app_nil_r.
      split; [done|]. split; [done|]. split; [done|]. split.
      * intros before after Heq Hne.
        destruct after as [|x after _] using rev_ind; [done|].
        rewrite app_assoc in Heq. apply app_inj_tail in Heq as [Heq _].
        destruct (decide (after = [])) as [->|Hafter].
        -- rewrite app_nil_r in Heq. subst before.
           by destruct Haw as (_ & _ & _ & _ & ?).
        -- by eapply Hmin.
      * rewrite runPass_snoc. unfold passStep.
        destruct (runPass_inv elements calls)
          as (_ & _ & [(_ & Hseen & _)|(Hcl & _)]).
        2:{ destruct Hcl as (_ & _ & _ & Hf).
            destruct Haw as (_ & _ & _ & _ & Hf'). congruence. }
        destruct (deliver_awaiting entries _ Haw) as (p' & Hd & _).
        rewrite Hd, Hseen. cbn [snd]. rewrite Hb.
        rewrite firstReportsPerCall_app, filter_app. f_equal.
        rewrite (right_id_L ∅ (∪)). cbn [firstReportsPerCall].
        rewrite filter_cons, filter_nil.
        destruct (decide (firstReports (targets (concat calls)) entries
                          = [])) as [He|He].
        -- rewrite decide_False by (by intros ?). done.
        -- by rewrite decide_True.
    + exists used, (ignored ++ [entries]).
      assert (runPass elements (calls ++ [entries])
              = runPass elements calls) as Hsame.
      { rewrite runPass_snoc. unfold passStep.
        rewrite (deliver_closed _ _ Hcl).
        destruct (runPass elements calls). simpl. by rewrite app_nil_r. }
      rewrite Hsame. split; [by rewrite Hcalls, app_assoc|].
      split; [done|]. split; [|done].
      intros _. by rewrite <- Hrun.
Qed.

End resolver_more.

(** X6: when the host reports watched elements only, a resolution pass
    is over (generator returned, observer disconnected) exactly when at
    least one callback has come and every watched element has reported:
    it neither stops early nor goes on afterwards. *)
Theorem resolver_over_exactly_when_all_reported
    (elements : list Element) (calls : list (list IntersectionObserverEntry)) :
  (∀ e, e ∈ target <$> concat calls → e ∈ elements) →
  let p := (runPass elements calls).1 in
  (finished p = true
   ↔ calls ≠ [] ∧ ∀ e, e ∈ elements → e ∈ target <$> concat calls)
  ∧ connected p = negb (finished p)
  ∧ done (state p) = finished p.
Proof.
  intros Hsub. simpl. split; [by apply runPass_finished_iff|].
  destruct (runPass_awaiting_or_closed elements calls)
    as [(Hc & _ & _ & Hd & Hf)|(Hc & Hd & _ & Hf)];
    by rewrite Hc, Hd, Hf.
Qed.

Lemma resolver_over_exactly_when_all_reported_witness :
  let p := (runPass [1; 2; 3]%nat [firstCall]).1 in
  (finished p = true
   ↔ [firstCall] ≠ []
     ∧ ∀ e, e ∈ [1; 2; 3]%nat → e ∈ target <$> concat [firstCall])
  ∧ connected p = negb (finished p)
  ∧ done (state p) = finished p.
Proof.
  apply resolver_over_exactly_when_all_reported.
  intros e He. list_cases He.
Defined.

(** X7: whatever the host delivers, the callbacks split into those
    that came while the pass was running, up to and including the one
    that ended it, and those that came after and were ignored.  The
    batches are, callback by callback, the entries of the former that
    were the first reported for their element, empty ones left out:
    together they are exactly the first reports among these callbacks,
    in order of arrival, and no element occurs twice. *)
Theorem resolver_batches_in_arrival_order
    (elements : list Element) (calls : list (list IntersectionObserverEntry)) :
  let batches := (runPass elements calls).2 in
  ∃ used ignored,
    calls = used ++ ignored
    ∧ (ignored ≠ [] → finished (runPass elements used).1 = true)
    ∧ (∀ before after, used = before ++ after → after ≠ [] →
         finished (runPass elements before).1 = false)
    ∧ batches = filter (λ batch, batch ≠ []) (firstReportsPerCall ∅ used)
    ∧ concat batches = firstReports ∅ (concat used)
    ∧ Forall (λ batch, batch ≠ []) batches
    ∧ (length batches ≤ length calls)%nat
    ∧ NoDup (target <$> concat batches)
    ∧ ∀ entry, entry ∈ concat batches →
        ∃ l1 l2, concat calls = l1 ++ entry :: l2
                 ∧ (target entry ∉ target <$> l1).
Proof.
  simpl.
  destruct (runPass_batches elements calls)
    as (used & ignored & Hcalls & _ & Hover & Hmin & Hbatches).
  exists used, ignored. split; [done|]. split; [|split; [done|]].
  { intros Hne. by destruct (Hover Hne) as (_ & _ & _ & ?). }
  assert (concat (runPass elements calls).2 = firstReports ∅ (concat used))
    as Hcat.
  { rewrite Hbatches, concat_filter_nonempty.
    apply concat_firstReportsPerCall. }
  split; [done|]. split; [done|].
  destruct (runPass_inv elements calls) as (_ & Hne & _).
  split; [done|]. split; [apply runPass_batches_length|].
  rewrite Hcat. split; [apply NoDup_firstReports|].
  intros entry Hin.
  destruct (firstReports_first _ _ _ Hin) as (l1 & l2 & Heq & _ & Hn).
  exists l1, (l2 ++ concat ignored). split; [|done].
  by rewrite Hcalls, concat_app, Heq, <- (assoc app).
Qed.

Lemma runPass_sample_batches :
  (runPass [1; 2; 3]%nat [firstCall; secondCall; firstCall]).2
  = [[report 1%nat rectA true; report 3%nat rectB true];
     [report 2%nat rectB true]].
Proof. vm_compute. reflexivity. Qed.

(** X8: once a pass is over, further callbacks change neither its state
    nor what it has yielded. *)
Theorem resolver_over_is_final
    (elements : list Element)
    (calls more : list (list IntersectionObserverEntry)) :
  finished (runPass elements calls).1 = true →
  runPass elements (calls ++ more) = runPass elements calls.
Proof.
  intros Hfin. apply closed_of_finished in Hfin.
  unfold runPass in *. rewrite foldl_app.
  destruct (foldl passStep (getBatchedRectMap elements, []) calls)
    as [p batches].
  by apply foldl_passStep_closed.
Qed.

Lemma resolver_over_is_final_witness :
  runPass [1; 2; 3]%nat ([firstCall; secondCall] ++ [firstCall])
  = runPass [1; 2; 3]%nat [firstCall; secondCall].
Proof. apply resolver_over_is_final. vm_compute. reflexivity. Defined.


(* ===================================================================== *)
(** * Further properties: frame flusher                                   *)
(* ===================================================================== *)

Section flush_more.
Context (env : Env).

Lemma lookup_foldl_delete (ks : list FiberRef) :
  ∀ (m : gmap FiberRef BlueprintOutline) i,
    foldl (λ m fiber, delete fiber m) m ks !! i
    = if decide (i ∈ ks) then None else m !! i.
Proof.
  induction ks as [|k ks IH]; intros m i; cbn [foldl].
  - case_decide as Hin; [by apply elem_of_nil in Hin|done].
  - rewrite IH. destruct (decide (i ∈ ks)) as [Hin|Hnin].
    + rewrite decide_True; [done|by right].
    + destruct (decide (i = k)) as [->|Hne].
      * rewrite lookup_delete_eq, decide_True; [done|by left].
      * rewrite lookup_delete_ne by done.
        rewrite decide_False; [done|]. rewrite elem_of_cons. tauto.
Qed.

Lemma clearWindow_empty w : windowInSync w → clearWindow w = emptyWindow.
Proof.
  intros [_ Hkeys]. unfold clearWindow, emptyWindow. f_equal.
  apply map_eq. intros i. rewrite lookup_foldl_delete, lookup_empty.
  case_decide as Hin; [done|].
  destruct (blueprintMap w !! i) eqn:Hi; [|done].
  exfalso. apply Hin, Hkeys. by eexists.
Qed.

Lemma flushStep_in_sync s ev s' :
  windowInSync (fs_window s) → flushStep env s ev = Some s' →
  windowInSync (fs_window s').
Proof.
  intros Hw Hstep. destruct ev as [fiber|entries].
  - injection Hstep as <-. simpl. by apply outlineFiber_in_sync.
  - rewrite flushStep_Intersect in Hstep. injection Hstep as <-.
    assert (windowInSync
              (if finished (deliver entries (fs_pass s)).1
                  && negb (finished (fs_pass s))
               then clearWindow (fs_window s) else fs_window s)) as H.
    { destruct (_ && _); [|done]. rewrite clearWindow_empty by done.
      apply emptyWindow_in_sync. }
    by destruct ((deliver entries (fs_pass s)).2).
Qed.

Lemma flushOutlines_in_sync w events s :
  windowInSync w → flushOutlines env w events = Some s →
  windowInSync (fs_window s).
Proof.
  intros Hw. revert s.
  induction events as [|ev events IH] using rev_ind; intros s Hs.
  - by injection Hs as <-.
  - rewrite flushOutlines_snoc in Hs.
    destruct (flushOutlines env w events) as [s0|]; [|done].
    simpl in Hs. eapply flushStep_in_sync; [|exact Hs]. by apply IH.
Qed.

Lemma flushOutlines_inv_of w events s :
  flushOutlines env w events = Some s → flushInv env w events s.
Proof.
  intros Hs. destruct (flushOutlines_inv env w events) as (s' & Hs' & Hinv).
  congruence.
Qed.

Lemma flush_pass_awaiting_or_closed w events s :
  flushOutlines env w events = Some s →
  awaiting (fs_pass s) ∨ closed (fs_pass s).
Proof.
  intros Hs. destruct (flushOutlines_inv_of _ _ _ Hs) as (Hpass & _).
  pose proof (runPass_awaiting_or_closed (flushElements w)
                (callbacks events)) as H.
  by rewrite <- Hpass in H.
Qed.

(** What was consumed has been seen by the pass. *)
Lemma consumed_seen w events s entry :
  flushOutlines env w events = Some s → entry ∈ consumed s →
  target entry ∈ seenElements (state (fs_pass s)).
Proof.
  intros Hs Hin. destruct (flushOutlines_inv_of _ _ _ Hs) as (Hpass & _).
  destruct (runPass_inv (flushElements w) (callbacks events))
    as (_ & _ & Hcases).
  rewrite <- Hpass in Hcases. simpl in Hcases. unfold consumed in Hin.
  assert (∃ l, seenElements (state (fs_pass s)) = targets l
               ∧ concat (bt_entries <$> fs_trace s) = firstReports ∅ l)
    as (l & Hseen & Hcat).
  { destruct Hcases as [(_ & Hseen & Hcat & _)|(_ & pre & post & _ & _ & Hseen & _ & Hcat)];
      eauto. }
  rewrite Hseen, elem_of_targets. rewrite Hcat in Hin.
  apply (list_elem_of_fmap_2 target) in Hin.
  by apply elem_of_firstReports_targets in Hin as [? _].
Qed.

Lemma recordEntries_lookup_other batch : ∀ rectsMap e,
  (e ∉ target <$> batch) → recordEntries rectsMap batch !! e = rectsMap !! e.
Proof.
  induction batch as [|entry batch IH]; intros rectsMap e Hn; [done|].
  rewrite fmap_cons, not_elem_of_cons in Hn. destruct Hn as [Hne Hn].
  unfold recordEntries in *. simpl. rewrite IH by done.
  unfold recordEntry. destruct (_ && _); [|done].
  by rewrite lookup_insert_ne.
Qed.

Lemma recordEntries_lookup_visible batch : ∀ rectsMap entry,
  NoDup (target <$> batch) → entry ∈ batch → visibleReport entry →
  recordEntries rectsMap batch !! target entry
  = Some (intersectionRect entry).
Proof.
  induction batch as [|x batch IH]; intros rectsMap entry Hnd Hin Hv.
  - by apply elem_of_nil in Hin.
  - rewrite fmap_cons in Hnd. apply NoDup_cons in Hnd as [Hx Hnd].
    unfold recordEntries in *. simpl.
    apply elem_of_cons in Hin as [->|Hin].
    + rewrite (recordEntries_lookup_other batch) by done.
      unfold recordEntry. destruct Hv as (-> & Hw & Hh).
      unfold truthyNumber.
      rewrite (proj2 (Z.eqb_neq _ _) Hw), (proj2 (Z.eqb_neq _ _) Hh).
      simpl. by rewrite lookup_insert_eq.
    + by apply IH.
Qed.

(** The batch a callback makes the resolver yield is new to the pass. *)
Lemma deliver_yields_new entries p batch :
  awaiting p ∨ closed p →
  (deliver entries p).2 = Some batch →
  NoDup (target <$> batch)
  ∧ ∀ entry, entry ∈ batch → target entry ∉ seenElements (state p).
Proof.
  intros [Haw|Hcl] Hb.
  - destruct (deliver_awaiting entries p Haw) as (p' & Hd & _).
    rewrite Hd in Hb. simpl in Hb. case_decide; [done|].
    injection Hb as <-. split; [apply NoDup_firstReports|].
    intros entry Hin. apply (list_elem_of_fmap_2 target) in Hin.
    by apply elem_of_firstReports_targets in Hin as [_ ?].
  - by rewrite (deliver_closed _ _ Hcl) in Hb.
Qed.

(** One step of a flush keeps every rectangle it has. *)
Lemma flushStep_rects_kept w events s ev s' :
  flushOutlines env w events = Some s → flushStep env s ev = Some s' →
  fs_rectsMap s ⊆ fs_rectsMap s' ∧ fs_trace s `prefix_of` fs_trace s'.
Proof.
  intros Hs Hstep. destruct ev as [fiber|entries].
  - injection Hstep as <-. done.
  - rewrite flushStep_Intersect in Hstep. injection Hstep as <-.
    destruct ((deliver entries (fs_pass s)).2) as [batch|] eqn:Hb;
      simpl; [|done].
    split; [|by apply prefix_app_r].
    destruct (deliver_yields_new entries (fs_pass s) batch) as [_ Hnew];
      [by eapply flush_pass_awaiting_or_closed|done|].
    apply map_subseteq_spec. intros e r Her.
    rewrite recordEntries_lookup_other; [done|].
    intros (entry & -> & Hin)%list_elem_of_fmap.
    apply (Hnew entry Hin).
    destruct (flushOutlines_inv_of _ _ _ Hs) as (_ & Hfrom & _).
    destruct (Hfrom _ _ Her) as (entry' & Hin' & <- & _).
    by eapply consumed_seen.
Qed.

(** The rectangle map holds every visible entry consumed so far. *)
Lemma flushOutlines_visible_recorded w events : ∀ s entry,
  flushOutlines env w events = Some s →
  entry ∈ consumed s → visibleReport entry →
  fs_rectsMap s !! target entry = Some (intersectionRect entry).
Proof.
  induction events as [|ev events IH] using rev_ind; intros s entry Hs Hin Hv.
  - injection Hs as <-. by apply elem_of_nil in Hin.
  - rewrite flushOutlines_snoc in Hs.
    destruct (flushOutlines env w events) as [s0|] eqn:Hs0; [|done].
    simpl in Hs.
    destruct (flushStep_rects_kept _ _ _ _ _ Hs0 Hs) as [Hsub _].
    destruct ev as [fiber|entries].
    + injection Hs as <-. by apply (IH s0).
    + rewrite flushStep_Intersect in Hs. injection Hs as <-.
      destruct ((deliver entries (fs_pass s0)).2) as [batch|] eqn:Hb;
        simpl in *; [|by apply (IH s0)].
      unfold consumed in Hin. simpl in Hin.
      rewrite fmap_app, concat_app in Hin. simpl in Hin.
      rewrite app_nil_r in Hin. apply elem_of_app in Hin as [Hin|Hin].
      * eapply lookup_weaken; [|exact Hsub]. by apply (IH s0).
      * destruct (deliver_yields_new entries (fs_pass s0) batch)
          as [Hnd _];
          [by eapply flush_pass_awaiting_or_closed|done|].
        by apply recordEntries_lookup_visible.
Qed.

End flush_more.

(** X9: a flush only adds to its rectangle map and to what it has
    dispatched: whatever happens next, every rectangle resolved so far
    stays as it is and the batches handled so far stay a prefix. *)
Theorem flush_keeps_resolved_rects
    (env : Env) (w : Window) (events more : list Event) (s : FlushState) :
  flushOutlines env w events = Some s →
  ∃ s', flushOutlines env w (events ++ more) = Some s'
        ∧ fs_rectsMap s ⊆ fs_rectsMap s'
        ∧ fs_trace s `prefix_of` fs_trace s'.
Proof.
  intros Hs. induction more as [|ev more IH] using rev_ind.
  - exists s. by rewrite app_nil_r.
  - destruct IH as (s1 & Hs1 & Hsub & Hpre).
    rewrite app_assoc.
    destruct (flushOutlines_inv env w ((events ++ more) ++ [ev]))
      as (s2 & Hs2 & _).
    exists s2. split; [done|].
    rewrite flushOutlines_snoc, Hs1 in Hs2. simpl in Hs2.
    destruct (flushStep_rects_kept env _ _ _ _ _ Hs1 Hs2) as [Hsub' Hpre'].
    split; by etrans.
Qed.

Lemma flush_keeps_resolved_rects_witness :
  ∃ s', flushOutlines workerEnv sampleWindow
          ([Intersect firstCall] ++ [Render fiberB; Intersect secondCall])
        = Some s'
        ∧ fs_rectsMap sampleState ⊆ fs_rectsMap s'
        ∧ fs_trace sampleState `prefix_of` fs_trace s'.
Proof.
  apply (flush_keeps_resolved_rects workerEnv sampleWindow
           [Intersect firstCall] [Render fiberB; Intersect secondCall]
           sampleState).
  vm_compute. reflexivity.
Defined.

(** X10: at any point of a flush the rectangle map holds, for an
    element, exactly the rectangle of the entry consumed for it, provided
    that entry is intersecting with non-zero width and height. *)
Theorem flush_rects_are_visible_first_reports
    (env : Env) (w : Window) (events : list Event) :
  ∃ s, flushOutlines env w events = Some s
    ∧ NoDup (target <$> consumed s)
    ∧ ∀ e r,
        fs_rectsMap s !! e = Some r
        ↔ ∃ entry, entry ∈ consumed s ∧ target entry = e
                   ∧ intersectionRect entry = r
                   ∧ isIntersecting entry = true
                   ∧ rect_width r ≠ 0 ∧ rect_height r ≠ 0.
Proof.
  destruct (flushOutlines_inv env w events) as (s & Hs & Hinv).
  exists s. split; [done|]. split.
  - destruct (consumed_first_reports env _ _ _ Hinv) as (pre & post & _ & ->).
    apply NoDup_firstReports.
  - intros e r. split.
    + intros Her. destruct Hinv as (_ & Hfrom & _).
      destruct (Hfrom _ _ Her) as (entry & Hin & He & Hr & Hi & Hw & Hh).
      exists entry. rewrite <- Hr. done.
    + intros (entry & Hin & <- & <- & Hi & Hw & Hh).
      by eapply flushOutlines_visible_recorded.
Qed.

(** X11: with the in-process variant and a canvas context, every batch
    of a flush that has records hands [updateOutlines] an array holding
    exactly these records, in order and without holes; a batch without
    records hands over nothing, and so does every batch when there is no
    canvas context. *)
Theorem inprocess_update_outlines
    (env : Env) (w : Window) (events : list Event) :
  worker env = false →
  ∃ s, flushOutlines env w events = Some s
       ∧ Forall (λ bt, ∃ w' rectsMap,
                   bt_gathered bt = gather env w' rectsMap
                   ∧ let records := outlineRecords env w' rectsMap in
                     length records = length (blueprints (bt_gathered bt))
                     ∧ bt_dispatch bt
                       = if canvasCtx env && bool_decide (records ≠ [])
                         then Some (UpdateOutlines (Some <$> records))
                         else None)
           (fs_trace s).
Proof.
  intros Hw.
  destruct (flushOutlines_inv env w events) as (s & Hs & _ & _ & Htrace).
  exists s. split; [done|]. eapply Forall_impl; [exact Htrace|]. simpl.
  intros bt (w' & rm & Hg & Hd & _). exists w', rm. split; [done|].
  split.
  - rewrite Hg, gather_spec. simpl. unfold outlineRecords.
    by rewrite !length_fmap.
  - rewrite Hd. unfold forward, submitFrame. rewrite Hw.
    destruct (decide (outlineRecords env w' rm = [])) as [->|Hne].
    + by rewrite andb_false_r.
    + rewrite bool_decide_true by done. by rewrite andb_true_r.
Qed.

Lemma inprocess_update_outlines_witness :
  ∃ s, flushOutlines canvasEnv sampleWindow sampleEvents = Some s
       ∧ Forall (λ bt, ∃ w' rectsMap,
                   bt_gathered bt = gather canvasEnv w' rectsMap
                   ∧ let records := outlineRecords canvasEnv w' rectsMap in
                     length records = length (blueprints (bt_gathered bt))
                     ∧ bt_dispatch bt
                       = if canvasCtx canvasEnv && bool_decide (records ≠ [])
                         then Some (UpdateOutlines (Some <$> records))
                         else None)
           (fs_trace s).
Proof. apply inprocess_update_outlines. reflexivity. Defined.

(** X12: the callback that ends the resolution pass leaves the
    aggregation window empty: every blueprint is deleted, also one that
    was recorded while the flush was running. *)
Theorem flush_end_clears_window
    (env : Env) (w : Window) (events : list Event)
    (entries : list IntersectionObserverEntry) (s : FlushState) :
  windowInSync w →
  flushOutlines env w events = Some s →
  finished (fs_pass s) = false →
  finished (deliver entries (fs_pass s)).1 = true →
  ∃ s', flushOutlines env w (events ++ [Intersect entries]) = Some s'
        ∧ finished (fs_pass s') = true
        ∧ fs_window s' = emptyWindow.
Proof.
  intros Hw Hs Hf Hf'.
  rewrite flushOutlines_snoc, Hs. cbn [mbind option_bind].
  rewrite flushStep_Intersect. eexists. split; [reflexivity|].
  pose proof (clearWindow_empty _ (flushOutlines_in_sync env _ _ _ Hw Hs))
    as Hclear.
  destruct ((deliver entries (fs_pass s)).2); simpl;
    rewrite Hf, Hf'; simpl; by split.
Qed.

Lemma flush_end_clears_window_witness :
  ∃ s', flushOutlines workerEnv sampleWindow
          ([Intersect firstCall] ++ [Intersect secondCall]) = Some s'
        ∧ finished (fs_pass s') = true
        ∧ fs_window s' = emptyWindow.
Proof.
  apply (flush_end_clears_window workerEnv sampleWindow
           [Intersect firstCall] secondCall sampleState).
  - unfold sampleWindow, outlineFibers. cbn [foldl].
    repeat apply outlineFiber_in_sync. apply emptyWindow_in_sync.
  - vm_compute. reflexivity.
  - vm_compute. reflexivity.
  - vm_compute. reflexivity.
Defined.

(** X25: when the host reports watched elements only, a flush hands over
    records only for blueprints with an element that was watched from
    its start, that is an element of a blueprint pending when the flush
    began: a blueprint recorded while the flush runs, with elements of
    its own, is never dispatched by this flush. *)
Theorem flush_dispatches_only_watched
    (env : Env) (w : Window) (events : list Event) :
  (∀ e, e ∈ target <$> intersections events → e ∈ flushElements w) →
  ∃ s, flushOutlines env w events = Some s
    ∧ ∀ bt blueprint,
        bt ∈ fs_trace s → blueprint ∈ blueprints (bt_gathered bt) →
        ∃ e, ElementNode e ∈ bp_elements blueprint ∧ e ∈ flushElements w.
Proof.
  intros Hwatched.
  destruct (flushOutlines_inv env w events) as (s & Hs & Hinv).
  exists s. split; [done|]. intros bt bp Hbt Hbp.
  pose proof Hinv as (_ & _ & Htrace).
  rewrite Forall_forall in Htrace.
  destruct (Htrace bt Hbt) as (w' & rm & Hg & _ & Hrm).
  rewrite Hg in Hbp.
  apply elem_of_gather_blueprints in Hbp as (_ & e & r & He & Her).
  destruct (Hrm e r Her) as (entry & Hin & Ht & _).
  exists e. split; [done|]. apply Hwatched. rewrite <- Ht.
  apply list_elem_of_fmap_2. by eapply consumed_reported.
Qed.

Lemma flush_dispatches_only_watched_witness :
  ∃ s, flushOutlines workerEnv sampleWindow sampleEvents = Some s
    ∧ ∀ bt blueprint,
        bt ∈ fs_trace s → blueprint ∈ blueprints (bt_gathered bt) →
        ∃ e, ElementNode e ∈ bp_elements blueprint
             ∧ e ∈ flushElements sampleWindow.
Proof.
  apply flush_dispatches_only_watched.
  intros e He. list_cases He.
Defined.

(** X28: a flush of a window none of whose blueprints has a DOM element
    runs its pass over no elements.  The host then has nothing to call
    back with, and whatever is rendered meanwhile the flush handles no
    batch, its pass stays suspended with the observer connected, and the
    window is not cleared: the renders pile up in it. *)
Theorem flush_without_elements_never_ends
    (env : Env) (w : Window) (fibers : list Fiber) :
  flushElements w = [] →
  ∃ s, flushOutlines env w (Render <$> fibers) = Some s
       ∧ fs_window s = outlineFibers fibers w
       ∧ fs_trace s = []
       ∧ fs_pass s = getBatchedRectMap []
       ∧ finished (fs_pass s) = false
       ∧ connected (fs_pass s) = true.
Proof.
  intros Hnone.
  assert (∃ s, flushOutlines env w (Render <$> fibers) = Some s
               ∧ fs_window s = outlineFibers fibers w
               ∧ fs_trace s = []
               ∧ fs_pass s = getBatchedRectMap []) as (s & Hs & Hw & Ht & Hp).
  { induction fibers as [|fiber fibers IH] using rev_ind.
    - eexists. split; [reflexivity|]. unfold flushStart. simpl.
      by rewrite Hnone.
    - destruct IH as (s & Hs & Hw & Ht & Hp).
      rewrite fmap_app.
      change (Render <$> [fiber]) with [Render fiber].
      rewrite flushOutlines_snoc, Hs. simpl.
      eexists. split; [reflexivity|]. simpl.
      rewrite Hw. unfold outlineFibers. by rewrite foldl_app. }
  exists s. by rewrite Hp.
Qed.

Lemma flush_without_elements_never_ends_witness :
  ∃ s, flushOutlines workerEnv (outlineFiber textFiber emptyWindow)
         (Render <$> [textFiber; textFiber]) = Some s
       ∧ fs_window s
         = outlineFibers [textFiber; textFiber]
             (outlineFiber textFiber emptyWindow)
       ∧ fs_trace s = []
       ∧ fs_pass s = getBatchedRectMap []
       ∧ finished (fs_pass s) = false
       ∧ connected (fs_pass s) = true.
Proof. apply flush_without_elements_never_ends. reflexivity. Defined.


(* ===================================================================== *)
(** * Further properties: the scroll listener                             *)
(* ===================================================================== *)

Section scroll.
Context (env : Env).

Lemma scrollRun_snoc st events ev :
  scrollRun env st (events ++ [ev])
  = scrollStep env (scrollRun env st events) ev.
Proof. unfold scrollRun. by rewrite foldl_app. Qed.

Lemma scrollEvents_snoc events ev :
  scrollEvents (events ++ [ev])
  = (scrollEvents events + if isOnScroll ev then 1 else 0)%nat.
Proof.
  unfold scrollEvents. rewrite filter_app, length_app. f_equal.
  rewrite filter_cons, filter_nil. by destruct ev.
Qed.

End scroll.

(** X13: however scroll events and timer callbacks interleave, there is
    at most one message per scroll event (plus one for a timer pending
    at the start); all messages go to the worker if there is one and to
    the local animator otherwise; and as long as no message has been
    sent the remembered position is the one of the start. *)
Theorem scroll_messages_throttled
    (env : Env) (st : ScrollState) (events : list ScrollEvent) :
  let st' := (scrollRun env st events).1 in
  let effects := (scrollRun env st events).2 in
  (length effects + (if isScrollScheduled st' then 1 else 0)
   ≤ scrollEvents events + (if isScrollScheduled st then 1 else 0))%nat
  ∧ Forall (λ e, ∃ dx dy, e = if worker env then PostScroll dx dy
                              else UpdateScroll dx dy) effects
  ∧ (effects = [] →
     prevScrollX st' = prevScrollX st ∧ prevScrollY st' = prevScrollY st).
Proof.
  simpl. induction events as [|ev events IH] using rev_ind.
  - simpl. repeat split; try lia. constructor.
  - rewrite scrollRun_snoc, scrollEvents_snoc.
    destruct (scrollRun env st events) as [st1 effects]. simpl in IH.
    destruct IH as (Hn & Hk & Hp).
    destruct ev as [|x y]; unfold scrollStep; simpl.
    + destruct (isScrollScheduled st1) eqn:Hs; simpl.
      * rewrite Hs. split; [lia|]. by split.
      * split; [lia|]. by split.
    + destruct (isScrollScheduled st1) eqn:Hs; simpl.
      * rewrite length_app. simpl. split; [lia|]. split.
        -- apply Forall_app. split; [done|].
           constructor; [|constructor]. by eexists _, _.
        -- intros Heq. by apply app_eq_nil in Heq as [_ ?].
      * rewrite Hs. split; [lia|]. by split.
Qed.

Lemma scroll_sample_messages :
  let st := {| prevScrollX := 10; prevScrollY := 0;
               isScrollScheduled := false |} in
  scrollRun workerEnv st
    [OnScroll; OnScroll; ScrollTimeout 10 40; ScrollTimeout 0 0;
     OnScroll; ScrollTimeout 5 25]
  = ({| prevScrollX := 5; prevScrollY := 25; isScrollScheduled := false |},
     [PostScroll 0 40; PostScroll (-5) (-15)]).
Proof. vm_compute. reflexivity. Qed.


(* ===================================================================== *)
(** * Further properties: the render callback                             *)
(* ===================================================================== *)

Section render_callback.
Context (env : Env).

Lemma defaultOptions_valid : optionsValid defaultOptions.
Proof.
  unfold optionsValid, defaultOptions.
  repeat (apply map_Forall_insert_2; [reflexivity|]).
  apply map_Forall_empty.
Qed.

Lemma optionalCall_valid o :
  optionsValid o → is_Some (optionalCall (getProp o "onRender")).
Proof.
  intros Hv. unfold getProp.
  destruct (o !! "onRender"%string) as [v|] eqn:Hk; [|by eexists].
  specialize (Hv _ _ Hk). unfold checkField in Hv. simpl in Hv.
  destruct v; simpl in *; (done || by eexists).
Qed.

Lemma reportRenderToListeners_frame rp rt :
  let rt' := (reportRenderToListeners env rp rt).1 in
  rt_internals rt' = rt_internals rt
  ∧ rt_inspectKind rt' = rt_inspectKind rt
  ∧ rt_window rt' = rt_window rt.
Proof.
  unfold reportRenderToListeners.
  destruct (isCompositeFiber (rp_fiber rp)); [|done].
  by destruct (_ && _).
Qed.

(** What one render does to the report of the fiber id [id], when the
    inspector is focused and the toolbar is not switched off. *)
Lemma reportRenderToListeners_lookup rp rt id :
  focusedRuntime rt →
  rt_reportData (reportRenderToListeners env rp rt).1 !! id
  = if decide (isCompositeFiber (rp_fiber rp) = true
               ∧ getFiberId env (fiber_ref (rp_fiber rp)) = id)
    then Some {| rd_count :=
                   default 0 (rd_count <$> rt_reportData rt !! id) + 1;
                 rd_time :=
                   default 0 (rd_time <$> rt_reportData rt !! id)
                   + rp_selfTime rp;
                 rd_renders := [];
                 rd_displayName := rp_displayName rp;
                 rd_type := rp_type rp;
                 rd_changes := [] |}
    else rt_reportData rt !! id.
Proof.
  intros [Hk Ht]. unfold reportRenderToListeners.
  destruct (isCompositeFiber (rp_fiber rp)) eqn:Hc.
  - rewrite (bool_decide_false _ Ht), (bool_decide_true _ Hk). simpl.
    destruct (decide (getFiberId env (fiber_ref (rp_fiber rp)) = id))
      as [<-|Hne].
    + rewrite decide_True by done. rewrite lookup_insert_eq.
      f_equal. f_equal. unfold truthyNumber.
      destruct (Z.eqb_spec
                  (default 0 (rd_time <$> rt_reportData rt
                     !! getFiberId env (fiber_ref (rp_fiber rp)))
                   + rp_selfTime rp) 0) as [->|]; done.
    + rewrite decide_False by tauto. by rewrite lookup_insert_ne.
  - rewrite decide_False; [done|]. by intros [? _].
Qed.

(** The callback on a runtime with valid options: it does not throw,
    and this is what it leaves. *)
Lemma onRender_valid rp rt :
  optionsValid (options (rt_internals rt)) →
  ∃ effects,
    onRender env rp rt
    = Some
        (if default false (isPaused (rt_internals rt))
            && (bool_decide (rt_inspectKind rt = "inspect-off"%string)
                || bool_decide (rt_inspectKind rt = "uninitialized"%string))
         then rt
         else
           let rt1 :=
             if negb (default false (isPaused (rt_internals rt)))
             then {| rt_internals := rt_internals rt;
                     rt_inspectKind := rt_inspectKind rt;
                     rt_reportData := rt_reportData rt;
                     rt_changesListeners := rt_changesListeners rt;
                     rt_interactionListening := rt_interactionListening rt;
                     rt_needsReport := rt_needsReport rt;
                     rt_window := outlineFiber (rp_fiber rp) (rt_window rt) |}
             else rt in
           if negb (bool_decide (rt_inspectKind rt = "inspect-off"%string)
                    || bool_decide
                         (rt_inspectKind rt = "uninitialized"%string))
           then (reportRenderToListeners env rp rt1).1 else rt1,
         effects).
Proof.
  intros Hv. unfold onRender.
  destruct (default false (isPaused (rt_internals rt))
            && (bool_decide (rt_inspectKind rt = "inspect-off"%string)
                || bool_decide
                     (rt_inspectKind rt = "uninitialized"%string)));
    [by eexists|].
  destruct (optionalCall_valid _ Hv) as [cb ->]. simpl.
  destruct (negb (bool_decide (rt_inspectKind rt = "inspect-off"%string)
                  || bool_decide
                       (rt_inspectKind rt = "uninitialized"%string))).
  - destruct (reportRenderToListeners env rp _) as [rt2 effects4].
    by eexists.
  - by eexists.
Qed.

Lemma onRender_frame rp rt rt' effects :
  onRender env rp rt = Some (rt', effects) →
  rt_internals rt' = rt_internals rt
  ∧ rt_inspectKind rt' = rt_inspectKind rt.
Proof.
  unfold onRender. intros H.
  destruct (_ && (_ || _)); [by injection H as <- _|].
  destruct (negb (_ || _)).
  - match type of H with
    | context [reportRenderToListeners env rp ?r] =>
      pose proof (reportRenderToListeners_frame rp r) as (Hi & Hk & _);
      destruct (reportRenderToListeners env rp r) as [rt2 e4]
    end.
    destruct (optionalCall _); simpl in H; [|done].
    injection H as <- _. simpl in *.
    by destruct (negb (default false (isPaused (rt_internals rt)))).
  - destruct (optionalCall _); simpl in H; [|done].
    injection H as <- _.
    by destruct (negb (default false (isPaused (rt_internals rt)))).
Qed.

Lemma onRenders_snoc rps rp rt :
  onRenders env (rps ++ [rp]) rt
  = '(rt1, effects) ← onRenders env rps rt;
    '(rt2, effects') ← onRender env rp rt1;
    Some (rt2, effects ++ effects').
Proof. unfold onRenders. by rewrite foldl_app. Qed.

Lemma reportRenderToListeners_effects rp rt e :
  e ∈ (reportRenderToListeners env rp rt).2 →
  ∃ listener id, e = NotifyChanges listener id.
Proof.
  unfold reportRenderToListeners.
  destruct (isCompositeFiber _); [|intros He; by apply elem_of_nil in He].
  destruct (_ && _); [|intros He; by apply elem_of_nil in He].
  simpl. intros (l & -> & _)%list_elem_of_fmap. by eexists _, _.
Qed.

Lemma onRender_undefined_callback rp rt :
  getProp (options (rt_internals rt)) "onRender" = VUndefined →
  ∃ rt' effects,
    onRender env rp rt = Some (rt', effects)
    ∧ ∀ f r, OptionsOnRender f r ∉ effects.
Proof.
  intros Hundef. unfold onRender. rewrite Hundef.
  destruct (_ && (_ || _)).
  - eexists _, _. split; [reflexivity|]. intros f r Hin.
    destruct (_ && _); [|by apply elem_of_nil in Hin].
    by apply list_elem_of_singleton in Hin.
  - destruct (negb (_ || _)).
    + match goal with
      | |- context [reportRenderToListeners env rp ?r] =>
        pose proof (reportRenderToListeners_effects rp r) as Hn;
        destruct (reportRenderToListeners env rp r) as [rt2 effects4]
      end.
      simpl in *.
      eexists _, _. split; [reflexivity|]. intros f r Hin.
      rewrite app_nil_r in Hin.
      repeat (apply elem_of_app in Hin as [Hin|Hin]).
      * destruct (_ && _); [|by apply elem_of_nil in Hin].
        by apply list_elem_of_singleton in Hin.
      * destruct (toBoolean _); [|by apply elem_of_nil in Hin].
        by apply list_elem_of_singleton in Hin.
      * destruct (bool_decide _); [|by apply elem_of_nil in Hin].
        by apply list_elem_of_singleton in Hin.
      * by destruct (Hn _ Hin) as (? & ? & ?).
    + simpl. eexists _, _. split; [reflexivity|]. intros f r Hin.
      rewrite !app_nil_r in Hin.
      repeat (apply elem_of_app in Hin as [Hin|Hin]).
      * destruct (_ && _); [|by apply elem_of_nil in Hin].
        by apply list_elem_of_singleton in Hin.
      * destruct (toBoolean _); [|by apply elem_of_nil in Hin].
        by apply list_elem_of_singleton in Hin.
      * destruct (bool_decide _); [|by apply elem_of_nil in Hin].
        by apply list_elem_of_singleton in Hin.
Qed.

(** The window after a render: aggregated unless the overlay is
    paused. *)
Lemma onRender_window rp rt :
  optionsValid (options (rt_internals rt)) →
  ∃ rt' effects,
    onRender env rp rt = Some (rt', effects)
    ∧ rt_window rt'
      = if default false (isPaused (rt_internals rt)) then rt_window rt
        else outlineFiber (rp_fiber rp) (rt_window rt).
Proof.
  intros Hv. destruct (onRender_valid rp rt Hv) as [effects Hr].
  eexists _, _. split; [exact Hr|].
  destruct (default false (isPaused (rt_internals rt)));
    destruct (bool_decide (rt_inspectKind rt = "inspect-off"%string)
              || bool_decide (rt_inspectKind rt = "uninitialized"%string));
    cbn -[reportRenderToListeners outlineFiber]; try done;
    apply reportRenderToListeners_frame.
Qed.

End render_callback.

(** X14: while the overlay is paused the render callback leaves the
    aggregation window alone; if in addition the inspector is off or
    uninitialized it changes nothing at all and calls nothing but the
    interaction listener: no log, no report, no [options.onRender]. *)
Theorem onRender_paused
    (env : Env) (rp : RenderReport) (rt : Runtime) :
  optionsValid (options (rt_internals rt)) →
  isPaused (rt_internals rt) = Some true →
  ∃ rt' effects,
    onRender env rp rt = Some (rt', effects)
    ∧ rt_window rt' = rt_window rt
    ∧ (inspectorInactive rt →
       rt' = rt
       ∧ Forall (λ e, e = InteractionListening (fiber_ref (rp_fiber rp)))
           effects).
Proof.
  intros Hv Hp. unfold onRender. rewrite Hp. simpl.
  destruct (bool_decide (rt_inspectKind rt = "inspect-off"%string)
            || bool_decide (rt_inspectKind rt = "uninitialized"%string))
    eqn:Hin.
  - eexists _, _. split; [reflexivity|]. split; [done|]. intros _.
    split; [done|]. destruct (_ && _); repeat constructor.
  - destruct (optionalCall_valid _ Hv) as [cb ->]. simpl.
    pose proof (reportRenderToListeners_frame env rp rt) as (_ & _ & Hw).
    destruct (reportRenderToListeners env rp rt) as [rt2 effects4].
    eexists _, _. split; [reflexivity|]. split; [done|].
    intros [Hk|Hk]; rewrite Hk in Hin; done.
Qed.

Lemma onRender_paused_witness :
  ∃ rt' effects,
    onRender workerEnv (sampleReport fiberA 3)
      (withInternals {| options := defaultOptions; isPaused := Some true |}
         sampleRuntime)
    = Some (rt', effects)
    ∧ rt_window rt' = emptyWindow
    ∧ (inspectorInactive
         (withInternals {| options := defaultOptions; isPaused := Some true |}
            sampleRuntime) →
       rt' = withInternals
               {| options := defaultOptions; isPaused := Some true |}
               sampleRuntime
       ∧ Forall (λ e, e = InteractionListening 1%nat) effects).
Proof.
  apply (onRender_paused workerEnv (sampleReport fiberA 3)
           (withInternals {| options := defaultOptions; isPaused := Some true |}
              sampleRuntime)); [|reflexivity].
  apply defaultOptions_valid.
Defined.


(* ===================================================================== *)
(** * Further properties: options                                         *)
(* ===================================================================== *)

Section options_more.
Context (heap : Heap).

Lemma accepted_known current key value :
  accepted current key value = true →
  key ∈ dom current ∧ checkField key value = FieldValid.
Proof.
  unfold accepted, isOptionKey. intros [Hk Hc]%andb_true_iff.
  apply bool_decide_eq_true in Hk. split; [done|].
  by destruct (checkField key value).
Qed.

Lemma accepted_dom current1 current2 key value :
  dom current1 = dom current2 →
  accepted current1 key value = accepted current2 key value.
Proof. intros Hd. unfold accepted, isOptionKey. by rewrite Hd. Qed.

Lemma validationThrows_dom current1 current2 userOptions :
  dom current1 = dom current2 →
  validationThrows heap current1 userOptions
  ↔ validationThrows heap current2 userOptions.
Proof.
  intros Hd. unfold validationThrows, unreportable, isOptionKey.
  by rewrite Hd.
Qed.

(** Valid options have no field to complain about. *)
Lemma validationThrows_valid current userOptions :
  optionsValid userOptions → ¬ validationThrows heap current userOptions.
Proof.
  intros Hv (key & value & Hl & Hu). unfold unreportable in Hu.
  rewrite (Hv _ _ Hl) in Hu. by rewrite andb_false_r in Hu.
Qed.

(** A call throws while validating and changes nothing, or stores,
    field by field, what is accepted. *)
Lemma setOptions_cases userOptions internals :
  (validationThrows heap (options internals) userOptions
   ∧ setOptions heap userOptions internals = thrown internals)
  ∨ (¬ validationThrows heap (options internals) userOptions
     ∧ ∀ key,
         options (so_internals (setOptions heap userOptions internals))
           !! key
         = match userOptions !! key with
           | Some value =>
             if accepted (options internals) key value then Some value
             else options internals !! key
           | None => options internals !! key
           end).
Proof.
  destruct (validateOptions heap (options internals) userOptions)
    as [acc|] eqn:Hv.
  - right. assert (¬ validationThrows heap (options internals) userOptions)
      as Hno by (rewrite <- validateOptions_None; congruence).
    split; [done|]. intros key. by apply setOptions_lookup.
  - left. apply validateOptions_None in Hv. split; [done|].
    by apply setOptions_throws_on_validation.
Qed.

Lemma setOptions_keeps_dom userOptions internals :
  dom (options (so_internals (setOptions heap userOptions internals)))
  = dom (options internals).
Proof.
  destruct (setOptions_cases userOptions internals)
    as [[_ ->]|[_ Hl]]; [done|].
  apply set_eq. intros key. rewrite !elem_of_dom, Hl.
  destruct (userOptions !! key) as [value|]; [|done].
  destruct (accepted (options internals) key value) eqn:Ha; [|done].
  apply accepted_known in Ha as [Hk _]. apply elem_of_dom in Hk.
  split; [done|by eexists].
Qed.

Lemma setOptions_keeps_valid userOptions internals :
  optionsValid (options internals) →
  optionsValid
    (options (so_internals (setOptions heap userOptions internals))).
Proof.
  intros Hv.
  destruct (setOptions_cases userOptions internals)
    as [[_ ->]|[_ Hl]]; [done|].
  intros key value. rewrite Hl.
  destruct (userOptions !! key) as [v|]; [|by apply Hv].
  destruct (accepted (options internals) key v) eqn:Ha; [|by apply Hv].
  intros [= <-]. by apply accepted_known in Ha as [_ ?].
Qed.

Lemma startLoadOptions_lookup stored internals key :
  ¬ validationThrows heap (options internals) stored →
  options (startLoadOptions heap (Some stored) internals) !! key
  = match stored !! key with
    | Some value =>
      if accepted (options internals) key value then Some value
      else options internals !! key
    | None => options internals !! key
    end.
Proof.
  intros Hno. rewrite <- validateOptions_None in Hno.
  unfold startLoadOptions.
  destruct (validateOptions heap (options internals) stored)
    as [[valid errors]|] eqn:Hv; [|done].
  pose proof (validateOptions_lookup heap _ _ _ key Hv) as Hl.
  simpl in *. rewrite lookup_union, Hl.
  destruct (stored !! key) as [value|]; simpl.
  - destruct (accepted (options internals) key value); simpl;
      by destruct (options internals !! key).
  - by destruct (options internals !! key).
Qed.

Lemma startLoadOptions_thrown stored internals :
  validationThrows heap (options internals) stored →
  startLoadOptions heap (Some stored) internals = internals.
Proof.
  intros Ht. apply validateOptions_None in Ht.
  unfold startLoadOptions. by rewrite Ht.
Qed.

Lemma startLoadOptions_keeps_dom stored internals :
  dom (options (startLoadOptions heap stored internals))
  = dom (options internals).
Proof.
  destruct stored as [stored|]; [|done].
  destruct (validateOptions heap (options internals) stored)
    as [acc|] eqn:Hv.
  - assert (¬ validationThrows heap (options internals) stored) as Hno
      by (rewrite <- validateOptions_None; congruence).
    apply set_eq. intros key.
    rewrite !elem_of_dom, startLoadOptions_lookup by done.
    destruct (stored !! key) as [value|]; [|done].
    destruct (accepted (options internals) key value) eqn:Ha; [|done].
    apply accepted_known in Ha as [Hk _]. apply elem_of_dom in Hk.
    split; [done|by eexists].
  - apply validateOptions_None in Hv.
    by rewrite startLoadOptions_thrown.
Qed.

Lemma setOptionsAll_snoc calls userOptions internals :
  setOptionsAll heap (calls ++ [userOptions]) internals
  = so_internals
      (setOptions heap userOptions (setOptionsAll heap calls internals)).
Proof. unfold setOptionsAll. by rewrite foldl_app. Qed.

Lemma setOptionsAll_keeps_dom calls internals :
  dom (options (setOptionsAll heap calls internals))
  = dom (options internals).
Proof.
  induction calls as [|userOptions calls IH] using rev_ind; [done|].
  by rewrite setOptionsAll_snoc, setOptions_keeps_dom.
Qed.

Lemma setOptionsAll_keeps_valid calls internals :
  optionsValid (options internals) →
  optionsValid (options (setOptionsAll heap calls internals)).
Proof.
  intros Hv. induction calls as [|userOptions calls IH] using rev_ind;
    [done|].
  rewrite setOptionsAll_snoc. by apply setOptions_keeps_valid.
Qed.

Lemma hasOwnProperty_valid current userOptions acc key :
  validateOptions heap current userOptions = Some acc →
  hasOwnProperty acc.1 key
  = match userOptions !! key with
    | Some value => accepted current key value
    | None => false
    end.
Proof.
  intros Hv. unfold hasOwnProperty.
  pose proof (validateOptions_lookup heap current userOptions acc key Hv)
    as Hl.
  destruct (userOptions !! key) as [value|].
  - destruct (accepted current key value).
    + apply bool_decide_eq_true, elem_of_dom. by eexists.
    + apply bool_decide_eq_false. rewrite elem_of_dom, Hl. by intros [? ?].
  - apply bool_decide_eq_false. rewrite elem_of_dom, Hl. by intros [? ?].
Qed.

Lemma getProp_valid current userOptions acc key value :
  validateOptions heap current userOptions = Some acc →
  userOptions !! key = Some value → accepted current key value = true →
  getProp acc.1 key = value.
Proof.
  intros Hv Hu Ha. unfold getProp.
  by rewrite (validateOptions_lookup heap _ _ _ key Hv), Hu, Ha.
Qed.

(** Without an accepted field nothing is stored, whichever way the
    call ends. *)
Lemma setOptions_no_valid userOptions internals errors :
  validateOptions heap (options internals) userOptions = Some (∅, errors) →
  options (so_internals (setOptions heap userOptions internals))
  = options internals
  ∧ isPaused (so_internals (setOptions heap userOptions internals))
    = isPaused internals
  ∧ so_toolbar (setOptions heap userOptions internals) = None.
Proof.
  intros Hv. unfold setOptions. rewrite Hv.
  rewrite bool_decide_true by done.
  destruct (negb <$> userHasOwnProperty heap userOptions "enabled")
    as [[]|]; simpl; [done| |done].
  rewrite (left_id_L ∅ (∪)).
  split; [done|]. split; [by destruct (isPaused internals)|].
  unfold hasOwnProperty. rewrite dom_empty_L.
  by rewrite !bool_decide_false by set_solver.
Qed.

Lemma setOptions_isPaused userOptions internals :
  ¬ validationThrows heap (options internals) userOptions →
  isPaused (so_internals (setOptions heap userOptions internals))
  = match isPaused internals, userOptions !! "enabled"%string with
    | Some paused, Some value =>
      if accepted (options internals) "enabled" value
      then Some (bool_decide (value = VBool false))
      else Some paused
    | Some paused, None => Some paused
    | None, _ => None
    end.
Proof.
  intros Hno. rewrite <- validateOptions_None in Hno.
  destruct (validateOptions heap (options internals) userOptions)
    as [[valid errors]|] eqn:Hv; [|done].
  pose proof (hasOwnProperty_valid _ _ _ "enabled" Hv) as Hown.
  simpl in Hown.
  destruct (decide (valid = ∅)) as [->|Hne].
  - destruct (setOptions_no_valid _ _ _ Hv) as (_ & -> & _).
    unfold hasOwnProperty in Hown. rewrite dom_empty_L in Hown.
    rewrite bool_decide_false in Hown by set_solver.
    destruct (isPaused internals) as [paused|]; [|done].
    destruct (userOptions !! "enabled"%string) as [v|]; [|done].
    by rewrite <- Hown.
  - unfold setOptions. rewrite Hv.
    rewrite bool_decide_false by (by rewrite map_size_empty_iff).
    simpl. destruct (isPaused internals) as [paused|]; [|done].
    rewrite Hown.
    destruct (userOptions !! "enabled"%string) as [v|] eqn:Hu; [|done].
    destruct (accepted (options internals) "enabled" v) eqn:Ha; [|done].
    pose proof (getProp_valid _ _ _ _ _ Hv Hu Ha) as Hg. simpl in Hg.
    by rewrite Hg.
Qed.

End options_more.

Section options_paused.
Context (heap : Heap).

Lemma defaultOptions_no_callbacks key :
  key ∈ callbackOptionKeys → defaultOptions !! key = None.
Proof. intros Hk. list_cases Hk. Qed.

Lemma defaultOptions_keys key :
  key ∈ dom defaultOptions →
  key ∈ booleanOptionKeys ∨ key = "animationSpeed"%string.
Proof.
  unfold defaultOptions. rewrite !dom_insert_L, dom_empty_L.
  rewrite !elem_of_union, !elem_of_singleton.
  intros H. unfold booleanOptionKeys.
  repeat (destruct H as [H|H]; [subst key|]);
    try (by apply elem_of_empty in H);
    try (by right); left; by apply (bool_decide_unpack _).
Qed.

Lemma options_keys_fixed_aux calls stored :
  dom (options (startLoadOptions heap stored
                  (setOptionsAll heap calls defaultInternals)))
  = dom defaultOptions
  ∧ optionsValid (options (setOptionsAll heap calls defaultInternals)).
Proof.
  split.
  - by rewrite startLoadOptions_keeps_dom, setOptionsAll_keeps_dom.
  - apply setOptionsAll_keeps_valid, defaultOptions_valid.
Qed.

End options_paused.

(** X15: neither [setOptions] nor the option loading of [start] ever
    adds or removes an option key: after any run of them the stored
    object has the keys it had. *)
Theorem options_keys_never_change
    (heap : Heap) (calls : list (gmap string JsValue))
    (stored : option (gmap string JsValue)) (internals : Internals) :
  dom (options (startLoadOptions heap stored
                  (setOptionsAll heap calls internals)))
  = dom (options internals)
  ∧ dom (options (setOptionsAll heap calls
                    (startLoadOptions heap stored internals)))
    = dom (options internals).
Proof.
  split.
  - by rewrite startLoadOptions_keeps_dom, setOptionsAll_keeps_dom.
  - by rewrite setOptionsAll_keeps_dom, startLoadOptions_keeps_dom.
Qed.

(** X16: starting from the initial options, whatever is passed to
    [setOptions] and whatever local storage holds, no callback option
    ([onRender], [onCommitStart], ...) is ever stored, nor
    [trackUnnecessaryRenders] or [_debug]: a key outside the seven
    initial ones stays unset.  So the render callback, which does not
    throw, never calls [options.onRender]. *)
Theorem initial_options_never_gain_callbacks
    (heap : Heap) (env : Env) (calls : list (gmap string JsValue))
    (stored : option (gmap string JsValue))
    (rp : RenderReport) (rt : Runtime) :
  let internals := reachedInternals heap calls stored in
  (∀ key, key ∉ dom defaultOptions → options internals !! key = None)
  ∧ (∀ key, key ∈ callbackOptionKeys → options internals !! key = None)
  ∧ options internals !! "trackUnnecessaryRenders"%string = None
  ∧ options internals !! "_debug"%string = None
  ∧ ∃ rt' effects,
      onRender env rp (withInternals internals rt) = Some (rt', effects)
      ∧ ∀ f r, OptionsOnRender f r ∉ effects.
Proof.
  simpl.
  assert (∀ key, key ∉ dom defaultOptions →
            options (reachedInternals heap calls stored) !! key = None)
    as Hnone.
  { intros key Hk. apply not_elem_of_dom. unfold reachedInternals.
    by rewrite (proj1 (options_keys_fixed_aux heap calls stored)). }
  split; [done|]. split; [|split; [|split]].
  - intros key Hk. apply Hnone. apply not_elem_of_dom.
    by apply defaultOptions_no_callbacks.
  - apply Hnone. by apply not_elem_of_dom.
  - apply Hnone. by apply not_elem_of_dom.
  - apply onRender_undefined_callback. unfold getProp. simpl.
    rewrite Hnone; [done|]. by apply not_elem_of_dom.
Qed.

(** X17: [setOptions] is idempotent: a second call with the same object
    leaves the stored options and the pause flag as the first call left
    them. *)
Theorem setOptions_idempotent
    (heap : Heap) (userOptions : gmap string JsValue)
    (internals : Internals) :
  so_internals
    (setOptions heap userOptions
       (so_internals (setOptions heap userOptions internals)))
  = so_internals (setOptions heap userOptions internals).
Proof.
  destruct (setOptions_cases heap userOptions internals)
    as [[Ht Heq]|[Hno Hl1]].
  { rewrite Heq. simpl. by rewrite Heq. }
  pose proof (setOptions_keeps_dom heap userOptions internals) as Hdom.
  assert (¬ validationThrows heap
              (options (so_internals (setOptions heap userOptions internals)))
              userOptions) as Hno2.
  { by rewrite (validationThrows_dom heap _ _ _ Hdom). }
  pose proof (setOptions_isPaused heap userOptions _ Hno2) as Hp2.
  pose proof (setOptions_isPaused heap userOptions internals Hno) as Hp1.
  assert (options (so_internals
                     (setOptions heap userOptions
                        (so_internals
                           (setOptions heap userOptions internals))))
          = options (so_internals (setOptions heap userOptions internals)))
    as Hopt.
  { apply map_eq. intros key. rewrite (setOptions_lookup heap _ _ _ Hno2).
    rewrite Hl1.
    destruct (userOptions !! key) as [value|]; [|done].
    rewrite (accepted_dom _ _ _ _ Hdom).
    by destruct (accepted (options internals) key value). }
  destruct (so_internals (setOptions heap userOptions
              (so_internals (setOptions heap userOptions internals))))
    as [o2 p2].
  destruct (so_internals (setOptions heap userOptions internals))
    as [o1 p1].
  simpl in *. subst o2. f_equal. rewrite Hp2, Hp1.
  destruct (isPaused internals) as [paused|]; [|done].
  destruct (userOptions !! "enabled"%string) as [v|]; [|done].
  rewrite (accepted_dom _ _ _ _ Hdom).
  by destruct (accepted (options internals) "enabled" v).
Qed.

(** X18: a call that returns and brings nothing new (every field it
    would take over already has that value) leaves the stored options
    as they are, returns them, and does not re-initialise the
    toolbar. *)
Theorem setOptions_nothing_new
    (heap : Heap) (userOptions : gmap string JsValue)
    (internals : Internals) :
  so_returned (setOptions heap userOptions internals) ≠ None →
  nothingNew userOptions (options internals) →
  options (so_internals (setOptions heap userOptions internals))
  = options internals
  ∧ so_returned (setOptions heap userOptions internals)
    = Some (options internals)
  ∧ so_toolbar (setOptions heap userOptions internals) = None.
Proof.
  intros Hret Hnew.
  destruct (setOptions_cases heap userOptions internals)
    as [[_ Heq]|[Hno Hl]]; [by rewrite Heq in Hret|].
  assert (options (so_internals (setOptions heap userOptions internals))
          = options internals) as Hopt.
  { apply map_eq. intros key. rewrite Hl.
    destruct (userOptions !! key) as [value|] eqn:Hu; [|done].
    destruct (accepted (options internals) key value) eqn:Ha; [|done].
    symmetry. by apply Hnew. }
  split; [done|].
  rewrite <- validateOptions_None in Hno.
  destruct (validateOptions heap (options internals) userOptions)
    as [[valid errors]|] eqn:Hv; [|done].
  assert (∀ key,
            hasOwnProperty valid key
            && negb (bool_decide
                       (getProp valid key = getProp (options internals) key))
            = false)
    as Hsame.
  { intros key. pose proof (hasOwnProperty_valid heap _ _ _ key Hv) as Ho.
    simpl in Ho. rewrite Ho.
    destruct (userOptions !! key) as [value|] eqn:Hu; [|done].
    destruct (accepted (options internals) key value) eqn:Ha; [|done].
    pose proof (getProp_valid heap _ _ _ _ _ Hv Hu Ha) as Hg.
    simpl in Hg. rewrite Hg. unfold getProp.
    rewrite (Hnew _ _ Hu Ha). simpl. by rewrite bool_decide_true. }
  revert Hopt Hret. unfold setOptions. rewrite Hv.
  destruct (if bool_decide (size valid = 0%nat)
            then negb <$> userHasOwnProperty heap userOptions "enabled"
            else Some false) as [[]|]; simpl; [done| |done].
  intros Hopt _. split; [by rewrite Hopt|].
  by rewrite !Hsame.
Qed.

Lemma setOptions_nothing_new_witness :
  options (so_internals
             (setOptions plainHeap
                (<["showToolbar" := VBool true]> (<["bogus" := VNull]> ∅))
                defaultInternals))
  = defaultOptions
  ∧ so_returned (setOptions plainHeap
                   (<["showToolbar" := VBool true]> (<["bogus" := VNull]> ∅))
                   defaultInternals)
    = Some defaultOptions
  ∧ so_toolbar (setOptions plainHeap
                  (<["showToolbar" := VBool true]> (<["bogus" := VNull]> ∅))
                  defaultInternals)
    = None.
Proof.
  apply (setOptions_nothing_new plainHeap
           (<["showToolbar" := VBool true]> (<["bogus" := VNull]> ∅))
           defaultInternals).
  - vm_compute. discriminate.
  - intros key value Hu Ha. revert Hu Ha.
    rewrite lookup_insert. case_decide as H1; [subst key; by intros [= <-]|].
    rewrite lookup_insert.
    case_decide as H2; [subst key|by rewrite lookup_empty].
    intros [= <-]. vm_compute. discriminate.
Defined.

(** X19: what [setOptions] hands to [saveLocalStorage] is the stored
    options without the callback options; and for options reached from
    the initial ones, which hold booleans and animation speeds only,
    loading that object back over the initial options, as [start] does,
    gives the stored options again. *)
Theorem saved_options_load_back
    (heap : Heap) (calls : list (gmap string JsValue)) :
  let internals := setOptionsAll heap calls defaultInternals in
  (∀ userOptions saved,
     so_saved (setOptions heap userOptions internals) = Some saved →
     saved = storable (options (so_internals
                                  (setOptions heap userOptions internals))))
  ∧ (∀ key value, options internals !! key = Some value →
       (∃ b, value = VBool b) ∨ value ∈ animationSpeeds)
  ∧ options (startLoadOptions heap (Some (storable (options internals)))
               defaultInternals)
    = options internals.
Proof.
  cbv zeta.
  pose proof (setOptionsAll_keeps_dom heap calls defaultInternals) as Hdom.
  pose proof (setOptionsAll_keeps_valid heap calls defaultInternals
                defaultOptions_valid) as Hvalid.
  simpl in Hdom.
  set (o := options (setOptionsAll heap calls defaultInternals)) in *.
  split; [|split].
  - intros userOptions saved. unfold setOptions.
    destruct (validateOptions heap _ userOptions) as [[valid errors]|];
      [|done].
    destruct (if bool_decide (size valid = 0%nat)
              then negb <$> userHasOwnProperty heap userOptions "enabled"
              else Some false) as [[]|]; simpl; [done| |done].
    by intros [= <-].
  - intros key value Hk. pose proof (Hvalid _ _ Hk) as Hc.
    assert (key ∈ dom defaultOptions) as Hin.
    { rewrite <- Hdom. apply elem_of_dom. by eexists. }
    unfold checkField in Hc.
    destruct (defaultOptions_keys _ Hin) as [Hb| ->].
    + rewrite bool_decide_true in Hc by done. left.
      destruct value; try done. by eexists.
    + simpl in Hc. right.
      destruct (bool_decide (value ∈ animationSpeeds)) eqn:Hs; [|done].
      by apply bool_decide_eq_true in Hs.
  - assert (storable o = o) as ->.
    { unfold storable. apply map_filter_id. intros key value Hk. simpl.
      intros Hcb. apply defaultOptions_no_callbacks in Hcb.
      apply not_elem_of_dom in Hcb. apply Hcb. rewrite <- Hdom.
      apply elem_of_dom. by eexists. }
    apply map_eq. intros key.
    rewrite startLoadOptions_lookup by (by apply validationThrows_valid).
    simpl.
    destruct (o !! key) as [value|] eqn:Hk.
    + unfold accepted, isOptionKey. rewrite <- Hdom.
      rewrite bool_decide_true by (apply elem_of_dom; by eexists).
      by rewrite (Hvalid _ _ Hk).
    + apply not_elem_of_dom. rewrite <- Hdom. by apply not_elem_of_dom.
Qed.

(** X29: a call of [setOptions] throws in exactly two cases: a known key
    carries a rejected value whose conversion to a string throws, or no
    field of the call is accepted and the [hasOwnProperty] of the
    caller's object cannot be called or throws.  A call that throws
    stores nothing, saves nothing and leaves the toolbar alone. *)
Theorem setOptions_throws_iff
    (heap : Heap) (userOptions : gmap string JsValue)
    (internals : Internals) :
  let result := setOptions heap userOptions internals in
  (so_returned result = None
   ↔ validationThrows heap (options internals) userOptions
     ∨ ((∀ key value, userOptions !! key = Some value →
           accepted (options internals) key value = false)
        ∧ userHasOwnProperty heap userOptions "enabled" = None))
  ∧ (so_returned result = None →
     so_internals result = internals
     ∧ so_saved result = None
     ∧ so_toolbar result = None).
Proof.
  cbv zeta. split; [|by intros ->%setOptions_thrown].
  destruct (validateOptions heap (options internals) userOptions)
    as [[valid errors]|] eqn:Hv.
  - assert (¬ validationThrows heap (options internals) userOptions) as Hno
      by (rewrite <- validateOptions_None; congruence).
    assert (valid = ∅
            ↔ ∀ key value, userOptions !! key = Some value →
                accepted (options internals) key value = false) as Hempty.
    { split.
      - intros -> key value Hu.
        pose proof (validateOptions_lookup heap _ _ _ key Hv) as Hl.
        simpl in Hl. rewrite lookup_empty, Hu in Hl.
        by destruct (accepted (options internals) key value).
      - intros Hnone. apply map_eq. intros key.
        pose proof (validateOptions_lookup heap _ _ _ key Hv) as Hl.
        simpl in Hl. rewrite Hl, lookup_empty.
        destruct (userOptions !! key) as [value|] eqn:Hu; [|done].
        by rewrite (Hnone _ _ Hu). }
    unfold setOptions. rewrite Hv.
    destruct (decide (valid = ∅)) as [Hval|Hval].
    + rewrite bool_decide_true by (by rewrite Hval).
      destruct (userHasOwnProperty heap userOptions "enabled")
        as [[]|] eqn:Hown; simpl.
      * split; [done|]. by intros [?|[_ ?]].
      * split; [done|]. by intros [?|[_ ?]].
      * split; [|done]. intros _. right. split; [|done]. by apply Hempty.
    + rewrite bool_decide_false by (by rewrite map_size_empty_iff).
      simpl. split; [done|]. intros [?|[Hnone _]]; [done|].
      by apply Hempty in Hnone.
  - apply validateOptions_None in Hv.
    rewrite (setOptions_throws_on_validation heap _ _ Hv). simpl.
    split; [by left|done].
Qed.

Lemma setOptions_throws_sample :
  so_returned
    (setOptions plainHeap (<["hasOwnProperty" := VNumber 1]> ∅)
       defaultInternals) = None
  ∧ so_returned
      (setOptions plainHeap
         (<["hasOwnProperty" := VNumber 1]> (<["log" := VBool true]> ∅))
         defaultInternals)
    ≠ None.
Proof. split; vm_compute; [reflexivity|discriminate]. Qed.


(* ===================================================================== *)
(** * Further properties: renders, options and listeners together         *)
(* ===================================================================== *)

Section render_more.
Context (env : Env).

Lemma addTime_add t s : addTime t s = t + s.
Proof.
  unfold addTime, truthyNumber.
  destruct (t + s =? 0) eqn:H; simpl; [|done].
  apply Z.eqb_eq in H. lia.
Qed.

Lemma focused_not_inactive rt :
  focusedRuntime rt →
  bool_decide (rt_inspectKind rt = "inspect-off"%string)
  || bool_decide (rt_inspectKind rt = "uninitialized"%string) = false.
Proof. intros [-> _]. reflexivity. Qed.

(** One render on a focused runtime. *)
Lemma onRender_focused rp rt id :
  optionsValid (options (rt_internals rt)) → focusedRuntime rt →
  ∃ rt' effects,
    onRender env rp rt = Some (rt', effects)
    ∧ rt_internals rt' = rt_internals rt
    ∧ rt_inspectKind rt' = rt_inspectKind rt
    ∧ rt_reportData rt' !! id
      = if decide (isCompositeFiber (rp_fiber rp) = true
                   ∧ getFiberId env (fiber_ref (rp_fiber rp)) = id)
        then Some (reportAfter (rt_reportData rt !! id) [rp] rp)
        else rt_reportData rt !! id.
Proof.
  intros Hv Hf.
  destruct (onRender_valid env rp rt Hv) as [effects Hr].
  rewrite (focused_not_inactive _ Hf), andb_false_r in Hr. simpl in Hr.
  eexists _, _. split; [exact Hr|].
  destruct (onRender_frame env _ _ _ _ Hr) as [Hi Hk].
  split; [done|]. split; [done|].
  destruct Hf as [Hkind Htool].
  destruct (negb (default false (isPaused (rt_internals rt))));
    rewrite reportRenderToListeners_lookup by (by split);
    simpl; (case_decide; [|done]);
    unfold reportAfter; simpl; rewrite addTime_add; do 2 f_equal; lia.
Qed.

Lemma reportedFor_snoc id rps rp :
  reportedFor env id (rps ++ [rp])
  = reportedFor env id rps
    ++ if decide (isCompositeFiber (rp_fiber rp) = true
                  ∧ getFiberId env (fiber_ref (rp_fiber rp)) = id)
       then [rp] else [].
Proof.
  unfold reportedFor. rewrite filter_app. by f_equal.
Qed.

Lemma reportAfter_snoc existing reported latest rp :
  reportAfter (Some (reportAfter existing reported latest)) [rp] rp
  = reportAfter existing (reported ++ [rp]) rp.
Proof.
  unfold reportAfter. cbn [fmap option_fmap option_map default rd_count
                           rd_time list_fmap length foldl].
  rewrite length_app, fmap_app, foldl_app. cbn [list_fmap length foldl].
  f_equal. generalize (default 0 (rd_count <$> existing)). intros c.
  rewrite Nat2Z.inj_add. simpl. lia.
Qed.

End render_more.

(** X21: with instrumentation in place, a call of [setOptions] that
    returns and carries a boolean [enabled] sets the pause flag to its
    negation, and from then on the render callback aggregates a render
    into the window exactly if [enabled] was [true]. *)
Theorem setOptions_enabled_drives_aggregation
    (heap : Heap) (env : Env) (userOptions : gmap string JsValue)
    (rt : Runtime) (rp : RenderReport) (paused enabled : bool) :
  so_returned (setOptions heap userOptions (rt_internals rt)) ≠ None →
  optionsValid (options (rt_internals rt)) →
  isPaused (rt_internals rt) = Some paused →
  "enabled"%string ∈ dom (options (rt_internals rt)) →
  userOptions !! "enabled"%string = Some (VBool enabled) →
  let rt1 :=
    withInternals
      (so_internals (setOptions heap userOptions (rt_internals rt))) rt in
  isPaused (rt_internals rt1) = Some (negb enabled)
  ∧ ∃ rt' effects,
      onRender env rp rt1 = Some (rt', effects)
      ∧ rt_window rt'
        = if enabled then outlineFiber (rp_fiber rp) (rt_window rt)
          else rt_window rt.
Proof.
  intros Hret Hv Hp Hk Hu. cbv zeta.
  assert (¬ validationThrows heap (options (rt_internals rt)) userOptions)
    as Hno.
  { intros Ht. apply Hret.
    by rewrite (setOptions_throws_on_validation heap _ _ Ht). }
  assert (isPaused
            (so_internals (setOptions heap userOptions (rt_internals rt)))
          = Some (negb enabled)) as Hpaused.
  { rewrite setOptions_isPaused by done. rewrite Hp, Hu.
    rewrite accepted_boolean by (by apply (bool_decide_unpack _)).
    rewrite bool_decide_true by done. simpl. by destruct enabled. }
  split; [done|].
  pose proof (setOptions_keeps_valid heap userOptions _ Hv) as Hv'.
  destruct (onRender_window env rp
              (withInternals
                 (so_internals
                    (setOptions heap userOptions (rt_internals rt))) rt))
    as (rt' & effects & Hr & Hw); [done|].
  exists rt', effects. split; [done|]. rewrite Hw.
  cbn [withInternals rt_internals rt_window]. rewrite Hpaused.
  by destruct enabled.
Qed.

Lemma setOptions_enabled_drives_aggregation_witness :
  let rt1 :=
    withInternals
      (so_internals (setOptions plainHeap (<["enabled" := VBool false]> ∅)
                       (rt_internals sampleRuntime)))
      sampleRuntime in
  isPaused (rt_internals rt1) = Some (negb false)
  ∧ ∃ rt' effects,
      onRender workerEnv (sampleReport fiberA 3) rt1 = Some (rt', effects)
      ∧ rt_window rt'
        = if false
          then outlineFiber (rp_fiber (sampleReport fiberA 3))
                 (rt_window sampleRuntime)
          else rt_window sampleRuntime.
Proof.
  apply (setOptions_enabled_drives_aggregation plainHeap workerEnv
           (<["enabled" := VBool false]> ∅) sampleRuntime
           (sampleReport fiberA 3) false false).
  - vm_compute. discriminate.
  - apply defaultOptions_valid.
  - reflexivity.
  - by apply (bool_decide_unpack _).
  - reflexivity.
Defined.

(** X22: while the inspector is focused and the toolbar is not switched
    off, a run of renders through the callback leaves, for a fiber id,
    a report whose count has grown by the number of composite renders
    with that id and whose time is the running total the code keeps,
    their self times added one after the other to the time there was
    ([existingTime + selfTime || 0] at each of them), carrying the
    display name and type of the last of them, with no changes listed;
    without such a render the report stays as it was. *)
Theorem onRenders_report_totals
    (env : Env) (rps : list RenderReport) (rt : Runtime) (id : Z) :
  optionsValid (options (rt_internals rt)) →
  focusedRuntime rt →
  ∃ rt' effects,
    onRenders env rps rt = Some (rt', effects)
    ∧ rt_reportData rt' !! id
      = match last (reportedFor env id rps) with
        | Some latest =>
          Some (reportAfter (rt_reportData rt !! id)
                  (reportedFor env id rps) latest)
        | None => rt_reportData rt !! id
        end.
Proof.
  intros Hv Hf.
  assert (∃ rt' effects,
            onRenders env rps rt = Some (rt', effects)
            ∧ rt_internals rt' = rt_internals rt
            ∧ rt_inspectKind rt' = rt_inspectKind rt
            ∧ rt_reportData rt' !! id
              = match last (reportedFor env id rps) with
                | Some latest =>
                  Some (reportAfter (rt_reportData rt !! id)
                          (reportedFor env id rps) latest)
                | None => rt_reportData rt !! id
                end) as (rt' & effects & H & _ & _ & Hd);
    [|by eexists _, _].
  induction rps as [|rp rps IH] using rev_ind.
  - eexists _, _. split; [reflexivity|]. done.
  - destruct IH as (rt1 & effects1 & Hrun & Hi & Hk & Hd).
    rewrite onRenders_snoc, Hrun. cbn [mbind option_bind].
    destruct (onRender_focused env rp rt1 id) as (rt2 & effects2 & Hr & Hi2 & Hk2 & Hd2).
    { by rewrite Hi. }
    { destruct Hf as [Hfk Hft]. split; [by rewrite Hk|by rewrite Hi]. }
    rewrite Hr. cbn [mbind option_bind]. eexists _, _.
    split; [reflexivity|]. split; [congruence|]. split; [congruence|].
    rewrite Hd2, reportedFor_snoc.
    case_decide as Hmatch.
    + rewrite last_snoc, Hd.
      destruct (last (reportedFor env id rps)) as [l|] eqn:Hlast.
      * by rewrite reportAfter_snoc.
      * apply last_None in Hlast. by rewrite Hlast.
    + by rewrite app_nil_r.
Qed.

Lemma onRenders_report_totals_witness :
  ∃ rt' effects,
    onRenders workerEnv
      [sampleReport fiberA 3; sampleReport fiberB 4; sampleReport fiberA 5]
      sampleRuntime = Some (rt', effects)
    ∧ rt_reportData rt' !! 1
      = match last (reportedFor workerEnv 1
                      [sampleReport fiberA 3; sampleReport fiberB 4;
                       sampleReport fiberA 5]) with
        | Some latest =>
          Some (reportAfter (rt_reportData sampleRuntime !! 1)
                  (reportedFor workerEnv 1
                     [sampleReport fiberA 3; sampleReport fiberB 4;
                      sampleReport fiberA 5]) latest)
        | None => rt_reportData sampleRuntime !! 1
        end.
Proof.
  apply onRenders_report_totals.
  - apply defaultOptions_valid.
  - split; [reflexivity|]. vm_compute. discriminate.
Defined.


(* ===================================================================== *)
(** * Further properties: render listeners and ignored nodes              *)
(* ===================================================================== *)

Section listeners.

Lemma coreOnRender_invoke type callback current fiberType :
  invokeOnRender (coreOnRender type callback current) fiberType
  = invokeOnRender current fiberType
    ++ if decide (validRegistration (type, callback) = true
                  ∧ type = fiberType)
       then [callback] else [].
Proof.
  destruct (validRegistration (type, callback)) eqn:Hv.
  - assert (invokeOnRender (coreOnRender type callback current) fiberType
            = invokeOnRender current fiberType
              ++ if bool_decide (fiberType = type) then [callback] else [])
      as ->.
    { unfold validRegistration in Hv. simpl in Hv.
      by destruct type, current. }
    f_equal. destruct (decide (fiberType = type)) as [->|Hne].
    + rewrite bool_decide_true by done. by rewrite decide_True.
    + rewrite bool_decide_false by done.
      rewrite decide_False; [done|]. by intros [_ <-].
  - rewrite decide_False by (by intros [? _]). rewrite app_nil_r.
    unfold validRegistration in Hv. simpl in Hv.
    unfold coreOnRender.
    destruct type as [| |b|z|str|f|o|sy]; try done; simpl.
    + by destruct b.
    + by destruct (z =? 0).
    + by destruct (bool_decide (str = EmptyString)).
Qed.

Lemma ignoreScan_elem node ignoredProps o :
  o ∈ ignoreScan node ignoredProps ↔ node = VObject o ∨ o ∈ ignoredProps.
Proof.
  unfold ignoreScan. destruct node; try (split; [by right|by intros [?|?]]).
  rewrite elem_of_union, elem_of_singleton. split.
  - intros [->|?]; [by left|by right].
  - intros [[= ->]|?]; [by left|by right].
Qed.

End listeners.

(** X23: after any run of [onRender] registrations the stored listener,
    called for a fiber, runs the callbacks registered for the type of
    that fiber ([getType(fiber.type)], compared by identity), in the
    order of registration, and no others; a registration whose type is
    neither a function nor a non-null object is dropped. *)
Theorem coreOnRenders_runs_matching
    (registrations : list (JsValue * nat)) (fiberType : JsValue) :
  invokeOnRender (coreOnRenders registrations) fiberType
  = snd <$> filter (λ r, validRegistration r = true ∧ r.1 = fiberType)
              registrations.
Proof.
  induction registrations as [|[type callback] registrations IH]
    using rev_ind; [done|].
  unfold coreOnRenders in *. rewrite foldl_app. simpl foldl.
  rewrite coreOnRender_invoke, IH, filter_app, fmap_app. f_equal.
  rewrite filter_cons, filter_nil. simpl. by case_decide.
Qed.

(** X24: a fiber is rejected by [isValidFiber] exactly if its
    [memoizedProps] is an object that was handed to [ignoreScan] before;
    values that are not objects are neither remembered nor rejected. *)
Theorem isValidFiber_after_ignoreScans
    (nodes : list JsValue) (memoizedProps : JsValue) :
  isValidFiber memoizedProps (ignoreScans nodes) = false
  ↔ ∃ o, memoizedProps = VObject o ∧ VObject o ∈ nodes.
Proof.
  assert (∀ o, o ∈ ignoreScans nodes ↔ VObject o ∈ nodes) as Hmem.
  { intros o. unfold ignoreScans.
    induction nodes as [|node nodes IH] using rev_ind.
    - simpl. split; [set_solver|]. intros H. by apply elem_of_nil in H.
    - rewrite foldl_app. simpl. rewrite ignoreScan_elem, IH, elem_of_app.
      rewrite list_elem_of_singleton. naive_solver. }
  unfold isValidFiber. destruct memoizedProps as [| | | | | |o|];
    try (split; [done|by intros (? & ? & _)]).
  rewrite negb_false_iff, bool_decide_eq_true, Hmem. split.
  - intros H. by exists o.
  - by intros (o' & [= <-] & H).
Qed.


(* ===================================================================== *)
(** * The [console.error] override                                        *)
(* ===================================================================== *)

Lemma prefix_app (p s : string) : String.prefix p (p +:+ s) = true.
Proof.
  induction p as [|c p IH]; simpl.
  - by destruct s.
  - destruct (Ascii.ascii_dec c c); [done|congruence].
Qed.

Lemma dropString_app (p s : string) :
  dropString (String.length p) (p +:+ s) = s.
Proof. induction p as [|c p IH]; simpl; [done|apply IH]. Qed.

Lemma replaceWithEmpty_prefix (p s : string) :
  replaceWithEmpty p (p +:+ s) = s.
Proof.
  destruct (p +:+ s) eqn:Heq; cbn [replaceWithEmpty];
    rewrite <- Heq, prefix_app; apply dropString_app.
Qed.

Lemma split_nonempty (sep : Ascii.ascii) (s : string) : split sep s ≠ [].
Proof.
  induction s as [|c s IH]; simpl; [done|].
  destruct (Ascii.eqb c sep); [done|]. by destruct (split sep s).
Qed.

(** Joining the pieces of a split with the separator gives the string
    back. *)
Lemma join_split (sep : Ascii.ascii) (s : string) :
  join (String sep EmptyString) (split sep s) = s.
Proof.
  induction s as [|c s IH]; simpl; [done|].
  destruct (Ascii.eqb_spec c sep) as [->|Hne].
  - pose proof (split_nonempty sep s).
    destruct (split sep s) as [|first rest]; [done|].
    simpl. by rewrite <- IH.
  - pose proof (split_nonempty sep s).
    destruct (split sep s) as [|first rest]; [done|].
    rewrite <- IH. by destruct rest.
Qed.

(** The first piece of a split is free of the separator. *)
Lemma split_head_free (sep : Ascii.ascii) (s first : string) (rest : list string) :
  split sep s = first :: rest → occurs sep first = false.
Proof.
  revert first rest. induction s as [|c s IH]; intros first rest; simpl.
  - by intros [= <- <-].
  - destruct (Ascii.eqb c sep) eqn:Hc; [by intros [= <- <-]|].
    destruct (split sep s) as [|f r] eqn:Hs; intros [= <- <-]; simpl;
      rewrite Hc; [done|]. simpl. by eapply IH.
Qed.

(** X26: for a first argument made of the Vite header, a line feed and a
    text, the override posts the first line of the text as message and
    the remaining lines as stack, whatever the other arguments: the
    message holds no line feed, and message, line feed and stack give the
    text back (for a text of one line the stack is empty). *)
Theorem consoleError_vite_splits_text
    (text : string) (others : list ConsoleArg) :
  ∃ message stack,
    consoleError
      (ArgValue (VString (viteInternalServerError +:+ String lineFeed text))
       :: others)
    = Some {| ep_message := VString message;
              ep_stack := Some (VString stack);
              ep_componentStack := None |}
    ∧ occurs lineFeed message = false
    ∧ (text = message +:+ String lineFeed stack
       ∨ (text = message ∧ stack = EmptyString)).
Proof.
  unfold consoleError. cbn [lookup list_lookup].
  unfold startsWith. rewrite prefix_app.
  change (viteInternalServerError +:+ String lineFeed text)
    with ((viteInternalServerError +:+ String lineFeed EmptyString) +:+ text).
  rewrite replaceWithEmpty_prefix. cbv zeta.
  pose proof (join_split lineFeed text) as Hjoin.
  destruct (split lineFeed text) as [|message rest] eqn:Hsplit;
    [by apply split_nonempty in Hsplit|].
  exists message, (join (String lineFeed EmptyString) rest).
  split; [done|]. split; [by eapply split_head_free|].
  destruct rest as [|line rest]; [right; by simpl in *|left].
  by rewrite <- Hjoin.
Qed.
